(** * m365-copilot-gateway: the translation engine and the credential paths of
      [src/server.js], embedded in Rocq.

    The gateway is one JavaScript module.  Its pure helpers become Rocq
    functions of the same name; its handlers become state-passing functions
    over a record holding what the handler mutates (local variables of the
    streaming loop, the response object, the Redis store, the MSAL client).
    What belongs to the JavaScript runtime or to a dependency ([JSON.parse],
    [JSON.stringify], [String.prototype.toLowerCase], number printing, the
    clock, MSAL) is a field of an interface ([Runtime], [MsalClient]) over
    which the definitions and the theorems are generic; a reference instance
    at the end of the definitions lets every statement be evaluated on concrete
    inputs.  Handlers run one at a time: the interleaving of requests at their
    [await]s is not modelled. *)

From Stdlib Require Import ZArith NArith Strings.String Strings.Ascii Lia.
From stdpp Require Import base option list gmap.
From Stdlib Require QArith.QArith_base Numbers.DecimalString.
From Equations Require Import Equations.

Local Open Scope Z_scope.
Set Warnings "-register-all".

(** ** JavaScript strings

    A JavaScript string is a sequence of 16-bit code units; [length], [slice],
    [indexOf] and the trimming functions all count code units. *)

Definition code_unit := N.
Definition jsstring := list code_unit.

(** [js "..."] is the string literal with the given ASCII characters. *)
Definition js (s : string) : jsstring := N_of_ascii <$> list_ascii_of_string s.

Definition str_eqb (a b : jsstring) : bool := bool_decide (a = b).

(** ECMAScript WhiteSpace and LineTerminator code points, the set that
    [trim], [trimStart] and [trimEnd] strip. *)
Definition is_js_space (u : code_unit) : bool :=
  ((9 <=? u) && (u <=? 13) || (u =? 32) || (u =? 160) || (u =? 5760)
   || (8192 <=? u) && (u <=? 8202) || (u =? 8232) || (u =? 8233)
   || (u =? 8239) || (u =? 8287) || (u =? 12288) || (u =? 65279))%N.

Fixpoint trimStart (s : jsstring) : jsstring :=
  match s with
  | u :: s' => if is_js_space u then trimStart s' else s
  | [] => []
  end.

Definition trimEnd (s : jsstring) : jsstring := rev (trimStart (rev s)).

Definition trim (s : jsstring) : jsstring := trimEnd (trimStart s).

Fixpoint startsWith (p s : jsstring) : bool :=
  match p, s with
  | [], _ => true
  | a :: p', b :: s' => (a =? b)%N && startsWith p' s'
  | _ :: _, [] => false
  end.

(** [s.indexOf(needle)]; [None] stands for [-1]. *)
Fixpoint indexOf (needle s : jsstring) : option nat :=
  if startsWith needle s then Some 0%nat
  else match s with
       | [] => None
       | _ :: s' => S <$> indexOf needle s'
       end.

(** [s.slice(a, b)] and [s.slice(a)] for the non-negative arguments the
    gateway passes. *)
Definition slice (s : jsstring) (a b : nat) : jsstring := take (b - a) (drop a s).
Definition slice_from (s : jsstring) (a : nat) : jsstring := drop a s.

(** [s.split(sep)] for a one-unit separator: [cur] is the segment being read,
    in reverse. *)
Fixpoint split_go (sep : code_unit) (cur : jsstring) (s : jsstring) : list jsstring :=
  match s with
  | [] => [rev cur]
  | u :: s' => if (u =? sep)%N then rev cur :: split_go sep [] s'
               else split_go sep (u :: cur) s'
  end.

Definition split (sep : code_unit) (s : jsstring) : list jsstring := split_go sep [] s.

(** [parts.join(sep)]. *)
Fixpoint join (sep : jsstring) (parts : list jsstring) : jsstring :=
  match parts with
  | [] => []
  | [p] => p
  | p :: rest => p ++ sep ++ join sep rest
  end.

Definition LF : code_unit := 10%N.

(** ** JavaScript values

    The values [JSON.parse] can return.  [undefined] is the [None] of an
    [option value].  A finite number is the rational it denotes; the code only
    ever tests a parsed number for truthiness. *)

Inductive value : Type :=
| VNull
| VBool (b : bool)
| VNum (q : QArith_base.Q)
| VStr (s : jsstring)
| VArr (items : list value)
| VObj (fields : list (jsstring * value)).

Definition num (z : Z) : value := VNum (QArith_base.inject_Z z).

Fixpoint assoc (k : jsstring) (fields : list (jsstring * value)) : option value :=
  match fields with
  | [] => None
  | (k', v) :: rest => if str_eqb k k' then Some v else assoc k rest
  end.

(** Property read [v.k] (and [v?.k]) for the names the gateway reads:
    [messages], [value], [text], [content], [message], [error],
    [homeAccountId], [status], [user_key]...  None of them exists on an array,
    a string, a number or a boolean, so only a plain object can answer. *)
Definition get_prop (v : value) (k : jsstring) : option value :=
  match v with
  | VObj fields => assoc k fields
  | _ => None
  end.

(** Optional chaining on a possibly undefined receiver. *)
Definition get_prop_opt (v : option value) (k : jsstring) : option value :=
  v ≫= fun o => get_prop o k.

(** Property write [o.k = v] on a plain object: an existing property keeps its
    place, a new one goes last. *)
Fixpoint set_field (k : jsstring) (v : value) (fields : list (jsstring * value))
  : list (jsstring * value) :=
  match fields with
  | [] => [(k, v)]
  | (k', v') :: rest =>
      if str_eqb k k' then (k, v) :: rest else (k', v') :: set_field k v rest
  end.

Definition truthy (v : value) : bool :=
  match v with
  | VNull => false
  | VBool b => b
  | VNum q => negb (QArith_base.Qnum q =? 0)
  | VStr s => negb (str_eqb s [])
  | VArr _ | VObj _ => true
  end.

Definition truthy_opt (v : option value) : bool :=
  match v with Some x => truthy x | None => false end.

(** Case analysis that remembers the equation, for definitions by
    well-founded recursion. *)
Definition inspect {A : Type} (a : A) : {b : A | a = b} := exist _ a eq_refl.

(** Outcome of code that may throw. *)
Inductive exn : Type :=
| JsError (name message : jsstring)
| Thrown (v : value).

Inductive result (A : Type) : Type :=
| Ok (a : A)
| Throw (e : exn).
Arguments Ok {A} a.
Arguments Throw {A} e.

Definition TypeError (m : jsstring) : exn := JsError (js "TypeError") m.

(** ASCII lower-casing of one code unit, which is what [toLowerCase] does to a
    string of ASCII characters. *)
Definition ascii_lower_unit (u : code_unit) : code_unit :=
  if ((65 <=? u) && (u <=? 90))%N then (u + 32)%N else u.

Definition ascii_lower (s : jsstring) : jsstring := ascii_lower_unit <$> s.

Definition is_ascii (s : jsstring) : Prop := Forall (fun u => (u < 128)%N) s.

(** ** The runtime and the configuration

    What the gateway takes from the JavaScript runtime.  [JSON_parse] answers
    [None] where [JSON.parse] throws a SyntaxError.  [Date_now k] is what the
    [k]-th call of [Date.now()] made by the modelled code returns. *)

Class Runtime : Type := {
  JSON_parse : jsstring -> option value;
  JSON_stringify : value -> jsstring;
  String_toLowerCase : jsstring -> jsstring;
  Number_toString : QArith_base.Q -> jsstring;
  Date_now : nat -> Z;
}.

(** The environment variables the modelled code reads, after the parsing done
    at the top of the module ([parseInt], [!== "0"]).  [DEBUG_EVENT_LIMIT] is
    the integer that [parseInt] reads, and [None] when it reads none: for a
    setting that is not numeric it gives NaN, which Redis refuses as an index
    (as it refuses a number beyond the integers it reads, which [None] stands
    for as well). *)
Class Config : Type := {
  DEBUG_EVENT_LIMIT : option Z;
  EMPTY_RESPONSE_HINT : bool;
}.

(** An object literal that is only ever serialized: [JSON.stringify] leaves out
    the properties whose value is [undefined]. *)
Definition json_obj (fields : list (jsstring * option value)) : value :=
  VObj (omap (fun kv => pair kv.1 <$> kv.2) fields).

Section Conversions.
Context `{Runtime}.

(** [String(v)] and template-literal interpolation of a defined value. *)
Fixpoint ToString (v : value) : jsstring :=
  match v with
  | VNull => js "null"
  | VBool true => js "true"
  | VBool false => js "false"
  | VNum q => Number_toString q
  | VStr s => s
  | VArr items =>
      join (js ",")
        (List.map (fun x => match x with VNull => [] | _ => ToString x end) items)
  | VObj _ => js "[object Object]"
  end.

Definition ToString_opt (v : option value) : jsstring :=
  match v with Some x => ToString x | None => js "undefined" end.

(** ** Model names

    [normalizeMode(model)].  [(model || "auto")] keeps a truthy [model] of
    any type; calling [.toLowerCase()] on anything but a string throws. *)
Definition normalizeMode (model : option value) : result jsstring :=
  let picked := if truthy_opt model then default (VStr (js "auto")) model
                else VStr (js "auto") in
  match picked with
  | VStr s =>
      let m := String_toLowerCase s in
      if str_eqb m (js "gpt-5.2-fast") then Ok (js "fast")
      else if str_eqb m (js "gpt-5.2-deep") then Ok (js "deep")
      else if existsb (str_eqb m) [js "auto"; js "fast"; js "deep"] then Ok m
      else Ok (js "auto")
  | _ => Throw (TypeError (js "toLowerCase is not a function"))
  end.

(** On a string of ASCII characters [toLowerCase] lowers the letters A-Z
    and nothing else. *)
Definition lowers_ascii : Prop :=
  forall s, is_ascii s -> String_toLowerCase s = ascii_lower s.

Definition modes : list jsstring := [js "auto"; js "fast"; js "deep"].

(** The name [normalizeMode] lowers: a missing or empty model counts as
    "auto". *)
Definition model_name (name : option jsstring) : jsstring :=
  match name with
  | Some ((_ :: _) as s) => s
  | _ => js "auto"
  end.

End Conversions.

(** ** Extraction of the assistant text *)

Definition typeof_string (v : option value) : option jsstring :=
  match v with Some (VStr s) => Some s | _ => None end.

(** [extractTextFromMessage(msg)]; [None] is the [null] it returns. *)
Definition extractTextFromMessage (msg : value) : option jsstring :=
  match msg with
  | VObj _ | VArr _ =>
      match typeof_string (get_prop msg (js "text")) with
      | Some s => Some s
      | None =>
          match typeof_string (get_prop msg (js "content")) with
          | Some s => Some s
          | None =>
              if truthy_opt (get_prop msg (js "message")) then
                typeof_string (get_prop_opt (get_prop msg (js "message")) (js "text"))
              else None
          end
      end
  | _ => None
  end.

(** [if (!t) continue]: a text that is [null] or empty is passed over. *)
Definition nonempty_text (msg : value) : option jsstring :=
  match extractTextFromMessage msg with
  | Some ((_ :: _) as t) => Some t
  | _ => None
  end.

(** The first [for] loop: from the last message down, the first text that is
    not the echoed prompt. *)
Fixpoint last_not_echo (promptEcho : jsstring) (rmsgs : list value) : option jsstring :=
  match rmsgs with
  | [] => None
  | m :: rest =>
      match nonempty_text m with
      | None => last_not_echo promptEcho rest
      | Some t =>
          if negb (str_eqb promptEcho []) && str_eqb (trim t) (trim promptEcho)
          then last_not_echo promptEcho rest
          else Some t
      end
  end.

(** The second and third [for] loops: from the last message down, the first
    non-empty text. *)
Fixpoint last_text (rmsgs : list value) : option jsstring :=
  match rmsgs with
  | [] => None
  | m :: rest =>
      match nonempty_text m with
      | None => last_text rest
      | Some t => Some t
      end
  end.

Definition as_nonempty_array (v : option value) : option (list value) :=
  match v with Some (VArr ((_ :: _) as l)) => Some l | _ => None end.

(** [extractBestTextFromEvent(obj, promptEcho)]. *)
Definition extractBestTextFromEvent (obj : value) (promptEcho : jsstring) : option jsstring :=
  let from_wrapped :=
    match as_nonempty_array (get_prop_opt (get_prop obj (js "value")) (js "messages")) with
    | Some wrapped => last_text (rev wrapped)
    | None => None
    end in
  match as_nonempty_array (get_prop obj (js "messages")) with
  | Some msgs =>
      match last_not_echo promptEcho (rev msgs) with
      | Some t => Some t
      | None =>
          match last_text (rev msgs) with
          | Some t => Some t
          | None => from_wrapped
          end
      end
  | None => from_wrapped
  end.

(** ** Redis

    The store as the gateway uses it: string values and lists, each with the
    time-to-live last given to it (in seconds; the passing of time is not
    modelled, so a key stays until a command removes it).  A command on a key
    of the other kind is refused by the server and the client call rejects. *)

Inductive redis_val : Type :=
| RString (s : jsstring)
| RList (l : list jsstring).

Record redis_entry : Type := { r_val : redis_val; r_ttl : option Z }.

Abbreviation store := (gmap (list N) redis_entry).

Definition ReplyError (m : string) : exn := JsError (js "ReplyError") (js m).
Definition WRONGTYPE : exn := ReplyError "WRONGTYPE".

(** [redis.get(key)]: [Ok None] is the [null] of a missing key. *)
Definition redis_get (key : jsstring) (r : store) : result (option jsstring) :=
  match r !! key with
  | None => Ok None
  | Some {| r_val := RString s |} => Ok (Some s)
  | Some {| r_val := RList _ |} => Throw WRONGTYPE
  end.

(** [redis.set(key, v)] and [redis.set(key, v, "EX", ttl)]. *)
Definition redis_set (key v : jsstring) (ex : option Z) (r : store) : result store :=
  match ex with
  | None => Ok (<[key := {| r_val := RString v; r_ttl := None |}]> r)
  | Some ttl =>
      if ttl <=? 0 then Throw (ReplyError "ERR invalid expire time")
      else Ok (<[key := {| r_val := RString v; r_ttl := Some ttl |}]> r)
  end.

(** [redis.lpush(key, x)]: the new element becomes the head of the list. *)
Definition redis_lpush (key x : jsstring) (r : store) : result store :=
  match r !! key with
  | None => Ok (<[key := {| r_val := RList [x]; r_ttl := None |}]> r)
  | Some {| r_val := RList l; r_ttl := t |} =>
      Ok (<[key := {| r_val := RList (x :: l); r_ttl := t |}]> r)
  | Some {| r_val := RString _ |} => Throw WRONGTYPE
  end.

(** The elements [start..stop] (inclusive) that LTRIM and LRANGE select. *)
Definition list_range (l : list jsstring) (start stop : Z) : list jsstring :=
  let len := Z.of_nat (length l) in
  let s := if start <? 0 then Z.max 0 (len + start) else start in
  let e := Z.min (if stop <? 0 then len + stop else stop) (len - 1) in
  if (e <? s) || (len <=? s) then []
  else take (Z.to_nat (e - s + 1)) (drop (Z.to_nat s) l).

(** [redis.ltrim(key, start, stop)]; a list trimmed to nothing is removed. *)
Definition redis_ltrim (key : jsstring) (start stop : Z) (r : store) : result store :=
  match r !! key with
  | None => Ok r
  | Some {| r_val := RList l; r_ttl := t |} =>
      match list_range l start stop with
      | [] => Ok (delete key r)
      | kept => Ok (<[key := {| r_val := RList kept; r_ttl := t |}]> r)
      end
  | Some {| r_val := RString _ |} => Throw WRONGTYPE
  end.

(** [redis.lrange(key, start, stop)]. *)
Definition redis_lrange (key : jsstring) (start stop : Z) (r : store) : result (list jsstring) :=
  match r !! key with
  | None => Ok []
  | Some {| r_val := RList l |} => Ok (list_range l start stop)
  | Some {| r_val := RString _ |} => Throw WRONGTYPE
  end.

(** [redis.expire(key, seconds)]. *)
Definition redis_expire (key : jsstring) (seconds : Z) (r : store) : result store :=
  match r !! key with
  | None => Ok r
  | Some e =>
      if seconds <=? 0 then Ok (delete key r)
      else Ok (<[key := {| r_val := r_val e; r_ttl := Some seconds |}]> r)
  end.

Definition debug_key : jsstring := js "debug:last_events".

(** The diagnostic buffer as [/debug/last-events] and [ltrim] see it: newest
    entry first. *)
Definition debug_events (r : store) : list jsstring :=
  match r !! debug_key with
  | Some {| r_val := RList l |} => l
  | _ => []
  end.

Section Redis.
Context `{Runtime} `{Config}.

(** [Math.max(0, DEBUG_EVENT_LIMIT - 1)]: NaN when the limit is. *)
Definition last_index : option Z :=
  (fun limit => Z.max 0 (limit - 1)) <$> DEBUG_EVENT_LIMIT.

(** A command whose index is [last_index]: Redis reads its arguments before it
    looks at the key, and refuses one that is no integer. *)
Definition with_last_index {A : Type} (command : Z -> result A) : result A :=
  match last_index with
  | Some stop => command stop
  | None => Throw (ReplyError "ERR value is not an integer or out of range")
  end.

(** [pushDebugEvent(obj)]: any rejection is swallowed by the [catch {}],
    leaving the commands already done in effect. *)
Definition pushDebugEvent (obj : value) (r : store) : store :=
  match redis_lpush debug_key (JSON_stringify obj) r with
  | Throw _ => r
  | Ok r1 =>
      match with_last_index (fun stop => redis_ltrim debug_key 0 stop r1) with
      | Throw _ => r1
      | Ok r2 =>
          match redis_expire debug_key 3600 r2 with
          | Throw _ => r2
          | Ok r3 => r3
          end
      end
  end.

(** The number of entries [ltrim] keeps under the limit [limit]:
    [Math.max(0, limit - 1)] is the index of the last one. *)
Definition capacity (limit : Z) : nat := Z.to_nat (Z.max 1 limit).

(** The key of the buffer holds no string, so [lpush] is accepted. *)
Definition debug_key_usable (r : store) : Prop :=
  match r !! debug_key with
  | Some {| r_val := RString _ |} => False
  | _ => True
  end.

(** [JSON.parse] gives back what [JSON.stringify] has written of [v]. *)
Definition json_faithful (v : value) : Prop :=
  JSON_stringify v <> [] /\ JSON_parse (JSON_stringify v) = Some v.

(** [redisGetJson(key)]: [Ok None] is [null]. *)
Definition redisGetJson (key : jsstring) (r : store) : result (option value) :=
  match redis_get key r with
  | Throw e => Throw e
  | Ok None | Ok (Some []) => Ok None
  | Ok (Some v) =>
      match JSON_parse v with
      | Some o => Ok (Some o)
      | None => Throw (JsError (js "SyntaxError") (js "JSON.parse"))
      end
  end.

(** [redisSetJson(key, obj, ttlSeconds)]: a falsy [ttlSeconds] stores without
    expiry. *)
Definition redisSetJson (key : jsstring) (obj : value) (ttlSeconds : option Z) (r : store)
  : result store :=
  let v := JSON_stringify obj in
  match ttlSeconds with
  | Some ttl => if ttl =? 0 then redis_set key v None r else redis_set key v (Some ttl) r
  | None => redis_set key v None r
  end.

End Redis.

(** ** The streaming translation loop of [POST /v1/chat/completions]

    The closure variables of the handler that the streaming phase reads. *)

Class Request : Type := {
  requestId : jsstring;
  conversationId : option value;
  model : value;
  prompt : jsstring;
}.

(** What the handler does to the response object, in order. *)
Inductive res_op : Type :=
| Write (s : jsstring)
| End.

(** The [let] variables of the streaming phase, the calls made on the response
    object, the log calls made, the number of [Date.now()] calls so far, and
    Redis. *)
Record stream_state : Type := {
  carry : jsstring;
  fullText : jsstring;
  blocks : nat;
  jsonFail : nat;
  res : list res_op;
  logs : list (jsstring * jsstring);
  ticks : nat;
  redis : store;
}.

Definition set_carry (c : jsstring) (st : stream_state) : stream_state :=
  {| carry := c; fullText := fullText st; blocks := blocks st; jsonFail := jsonFail st;
     res := res st; logs := logs st; ticks := ticks st; redis := redis st |}.

Definition set_fullText (t : jsstring) (st : stream_state) : stream_state :=
  {| carry := carry st; fullText := t; blocks := blocks st; jsonFail := jsonFail st;
     res := res st; logs := logs st; ticks := ticks st; redis := redis st |}.

Definition incr_blocks (st : stream_state) : stream_state :=
  {| carry := carry st; fullText := fullText st; blocks := S (blocks st);
     jsonFail := jsonFail st; res := res st; logs := logs st; ticks := ticks st;
     redis := redis st |}.

Definition incr_jsonFail (st : stream_state) : stream_state :=
  {| carry := carry st; fullText := fullText st; blocks := blocks st;
     jsonFail := S (jsonFail st); res := res st; logs := logs st; ticks := ticks st;
     redis := redis st |}.

(** [res.write(s)] and [res.end()]. *)
Definition res_write (s : jsstring) (st : stream_state) : stream_state :=
  {| carry := carry st; fullText := fullText st; blocks := blocks st; jsonFail := jsonFail st;
     res := res st ++ [Write s]; logs := logs st; ticks := ticks st; redis := redis st |}.

Definition res_end (st : stream_state) : stream_state :=
  {| carry := carry st; fullText := fullText st; blocks := blocks st; jsonFail := jsonFail st;
     res := res st ++ [End]; logs := logs st; ticks := ticks st; redis := redis st |}.

(** [log(level, msg, fields)], kept as the pair [(level, msg)]. *)
Definition log (level msg : string) (st : stream_state) : stream_state :=
  {| carry := carry st; fullText := fullText st; blocks := blocks st; jsonFail := jsonFail st;
     res := res st; logs := logs st ++ [(js level, js msg)]; ticks := ticks st;
     redis := redis st |}.

Definition tick (st : stream_state) : stream_state :=
  {| carry := carry st; fullText := fullText st; blocks := blocks st; jsonFail := jsonFail st;
     res := res st; logs := logs st; ticks := S (ticks st); redis := redis st |}.

Definition set_redis (r : store) (st : stream_state) : stream_state :=
  {| carry := carry st; fullText := fullText st; blocks := blocks st; jsonFail := jsonFail st;
     res := res st; logs := logs st; ticks := ticks st; redis := r |}.

(** The blank line that ends an event block. *)
Definition blank_line : jsstring := [LF; LF].

(** The data lines of a block:
    [lines.map(trimEnd).filter(startsWith("data:")).map(l => l.slice(5).trimStart())]. *)
Definition dataLines (block : jsstring) : list jsstring :=
  (fun l => trimStart (slice_from l 5)) <$>
    List.filter (startsWith (js "data:")) (trimEnd <$> split LF block).

(** The candidate payload of a block; [None] where the loop body [continue]s
    before parsing (no data line, or an empty payload). *)
Definition block_payload (block : jsstring) : option jsstring :=
  match dataLines block with
  | [] => None
  | dl => match trim (join [LF] dl) with
          | [] => None
          | payload => Some payload
          end
  end.

(** The advisory text sent when the upstream produced no text. *)
Definition EMPTY_HINT : jsstring :=
  [10; 65288; 25552; 31034; 65306; 19978; 28216; 26410; 36820; 22238; 21487; 35299;
   26512; 30340; 25991; 26412; 20869; 23481; 12290; 35831; 26816; 26597; 32; 67; 111;
   112; 105; 108; 111; 116; 32; 35768; 21487; 47; 26435; 38480; 65292; 25110; 35775;
   38382; 32; 47; 100; 101; 98; 117; 103; 47; 108; 97; 115; 116; 45; 101; 118; 101;
   110; 116; 115; 32; 26597; 30475; 21407; 22987; 20107; 20214; 29255; 27573; 12290;
   65289; 10]%N.

(** A text the loop cuts as one block when a blank line follows it: it holds
    no blank line and does not end in a line feed. *)
Definition is_block (b : jsstring) : Prop := indexOf blank_line (b ++ [LF]) = None.

(** The text of a stream made of the given blocks, each closed by its blank
    line. *)
Definition frames (bs : list jsstring) : jsstring :=
  concat ((fun b => b ++ blank_line) <$> bs).

(** The texts form a cumulative sequence from the watermark [w]: each one
    extends the one before it. *)
Fixpoint cumulative (w : jsstring) (texts : list jsstring) : Prop :=
  match texts with
  | [] => True
  | t :: texts' => w `prefix_of` t /\ cumulative t texts'
  end.

(** How the reads of the upstream stop: [reader.read()] reports [done], or it
    (or [dec.decode]) throws.  The reads before that each deliver a chunk,
    given to the loop as the text decoded from it. *)
Inductive stream_end : Type :=
| Done
| Raised (e : exn).

Section Stream.
Context `{Runtime} `{Config} `{Request}.

(** [nowUnix()] reads the clock once. *)
Definition nowUnix (st : stream_state) : Z * stream_state :=
  (Date_now (ticks st) / 1000, tick st).

Definition chunk_id : jsstring := js "chatcmpl_" ++ ToString_opt conversationId.

(** The chunk object built by [sendDelta]. *)
Definition delta_chunk (delta : jsstring) (created : Z) : value :=
  json_obj
    [(js "id", Some (VStr chunk_id));
     (js "object", Some (VStr (js "chat.completion.chunk")));
     (js "created", Some (num created));
     (js "model", Some model);
     (js "choices",
      Some (VArr [json_obj [(js "index", Some (num 0));
                            (js "delta", Some (json_obj [(js "content", Some (VStr delta))]));
                            (js "finish_reason", Some VNull)]]))].

(** The chunk object built by [sendStop]. *)
Definition stop_chunk (created : Z) : value :=
  json_obj
    [(js "id", Some (VStr chunk_id));
     (js "object", Some (VStr (js "chat.completion.chunk")));
     (js "created", Some (num created));
     (js "model", Some model);
     (js "choices",
      Some (VArr [json_obj [(js "index", Some (num 0));
                            (js "delta", Some (json_obj []));
                            (js "finish_reason", Some (VStr (js "stop")))]]))].

(** The frame [`data: ${JSON.stringify(chunk)}\n\n`]. *)
Definition sse_frame (chunk : value) : jsstring :=
  js "data: " ++ JSON_stringify chunk ++ blank_line.

Definition DONE_frame : jsstring := js "data: [DONE]" ++ blank_line.

Definition sendDelta (delta : jsstring) (st : stream_state) : stream_state :=
  let '(created, st1) := nowUnix st in
  res_write (sse_frame (delta_chunk delta created)) st1.

Definition sendStop (st : stream_state) : stream_state :=
  let '(created, st1) := nowUnix st in
  res_end (res_write DONE_frame (res_write (sse_frame (stop_chunk created)) st1)).

(** The object handed to [pushDebugEvent] for a parsed payload. *)
Definition debug_sample (ts : Z) (payload : jsstring) : value :=
  json_obj
    [(js "ts", Some (num ts));
     (js "requestId", Some (VStr requestId));
     (js "conversationId", conversationId);
     (js "sample", Some (VStr (slice payload 0 400)))].

(** The watermark update: a text longer than [fullText] replaces it and the
    part beyond the old length is sent. *)
Definition advance (text : option jsstring) (st : stream_state) : stream_state :=
  match text with
  | Some t =>
      if (length (fullText st) <? length t)%nat then
        let delta := slice_from t (length (fullText st)) in
        let st1 := set_fullText t st in
        match delta with
        | [] => st1
        | _ => sendDelta delta st1
        end
      else st
  | None => st
  end.

(** The body of the inner [while], after [block] was cut from [carry] and
    counted. *)
Definition process_block (block : jsstring) (st : stream_state) : stream_state :=
  match block_payload block with
  | None => st
  | Some payload =>
      match JSON_parse payload with
      | None => incr_jsonFail st
      | Some obj =>
          let ts := Date_now (ticks st) in
          let st1 := tick st in
          let st2 := set_redis (pushDebugEvent (debug_sample ts payload) (redis st1)) st1 in
          let st3 := if truthy_opt (get_prop obj (js "error"))
                     then log "error" "graph.stream.errorObject" st2 else st2 in
          advance (extractBestTextFromEvent obj prompt) st3
      end
  end.

(** The text an event block reports, when its payload parses and carries
    one: what the loop body hands to the watermark update. *)
Definition block_text (block : jsstring) : option jsstring :=
  block_payload block ≫= fun payload =>
  JSON_parse payload ≫= fun obj =>
  extractBestTextFromEvent obj prompt.

(** The inner [while (true)]: cut complete blocks off the front of [carry]
    until none is left. *)
Equations? drain (st : stream_state) : stream_state by wf (length (carry st)) lt :=
  drain st with inspect (indexOf blank_line (carry st)) := {
    | exist _ None _ => st
    | exist _ (Some idx) Hidx =>
        drain (process_block (slice (carry st) 0 idx)
                 (incr_blocks (set_carry (slice_from (carry st) (idx + 2)) st)))
  }.
Proof.
  assert (Hcarry : forall b s, carry (process_block b s) = carry s).
  { intros b s. unfold process_block, advance, sendDelta, nowUnix.
    repeat case_match; reflexivity. }
  rewrite Hcarry. simpl. unfold slice_from. rewrite length_drop.
  destruct (carry st); [discriminate|simpl; lia].
Qed.

(** One turn of the outer [while]: a chunk was read and decoded. *)
Definition on_chunk (st : stream_state) (text : jsstring) : stream_state :=
  drain (set_carry (carry st ++ text) st).

Definition stream_init (r : store) (t : nat) : stream_state :=
  {| carry := []; fullText := []; blocks := 0; jsonFail := 0; res := [];
     logs := []; ticks := t; redis := r |}.

(** What follows the [try]/[catch]: the advisory delta, then [sendStop]. *)
Definition finish (st : stream_state) : stream_state :=
  let st1 := match fullText st with
             | [] => if EMPTY_RESPONSE_HINT then sendDelta EMPTY_HINT st else st
             | _ => st
             end in
  sendStop (log "info" "stream.end" st1).

(** The outer [while (true)] over the reads that deliver a chunk; [chunks]
    are the texts decoded from them. *)
Definition stream_loop (r : store) (t : nat) (chunks : list jsstring) : stream_state :=
  foldl on_chunk (log "info" "stream.start" (stream_init r t)) chunks.

(** How the reads stop: [done] leaves the loop by [break], an exception
    lands in the [catch], which only logs. *)
Definition after_reads (ending : stream_end) (st : stream_state) : stream_state :=
  match ending with
  | Done => st
  | Raised _ => log "error" "stream.exception" st
  end.

(** The write made by [sendDelta(delta)] when the clock reads [created]. *)
Definition delta_write (d : jsstring * Z) : res_op :=
  Write (sse_frame (delta_chunk d.1 d.2)).

(** Everything written is a delta chunk. *)
Definition only_deltas (ops : list res_op) : Prop :=
  exists deltas : list (jsstring * Z), ops = delta_write <$> deltas.

(** The state a parsed payload leaves for the watermark update: the clock
    was read, the sample pushed, an upstream error object logged. *)
Definition sampled (payload : jsstring) (obj : value) (st : stream_state) : stream_state :=
  let st2 := set_redis (pushDebugEvent (debug_sample (Date_now (ticks st)) payload)
                          (redis (tick st))) (tick st) in
  if truthy_opt (get_prop obj (js "error"))
  then log "error" "graph.stream.errorObject" st2 else st2.

(** The state with which the inner loop goes round again after cutting the
    block that ends at [idx]. *)
Definition next_turn (idx : nat) (st : stream_state) : stream_state :=
  process_block (slice (carry st) 0 idx)
    (incr_blocks (set_carry (slice_from (carry st) (idx + 2)) st)).

(** The loop body run over a list of blocks, each counted first. *)
Definition feed (bs : list jsstring) (st : stream_state) : stream_state :=
  foldl (fun st b => process_block b (incr_blocks st)) st bs.

(** The advisory delta [finish] sends, if any, with its time stamp. *)
Definition hint_writes (st : stream_state) : list (jsstring * Z) :=
  match fullText st with
  | [] => if EMPTY_RESPONSE_HINT then [(EMPTY_HINT, Date_now (ticks st) / 1000)] else []
  | _ => []
  end.

(** The streaming phase, from [upstream.body.getReader()] to [sendStop()]. *)
Definition stream_phase (r : store) (t : nat) (chunks : list jsstring) (ending : stream_end)
  : stream_state :=
  finish (after_reads ending (stream_loop r t chunks)).

End Stream.

(** ** Account resolution on [POST /v1/chat/completions] *)

(** What [getUserContext] reads of the request: the [x-user-key] header and
    [req.session.account], each possibly undefined. *)
Record request : Type := {
  x_user_key : option jsstring;
  session_account : option value;
}.

Inductive user_context : Type :=
| CtxUserKey (userKey : jsstring)
| CtxSession (account : value).

(** The second [if] of [getUserContext]: [req.session?.account?.homeAccountId]. *)
Definition session_context (req : request) : option user_context :=
  match session_account req with
  | Some account =>
      if truthy_opt (get_prop account (js "homeAccountId"))
      then Some (CtxSession account) else None
  | None => None
  end.

(** [getUserContext(req)]; [None] is [null]. *)
Definition getUserContext (req : request) : option user_context :=
  match x_user_key req with
  | Some userKey =>
      if (10 <? length userKey)%nat then Some (CtxUserKey userKey)
      else session_context req
  | None => session_context req
  end.

(** No key passes the first test of [getUserContext]: the header is absent or
    at most ten code units long. *)
Definition no_usable_key (req : request) : Prop :=
  forall k, x_user_key req = Some k -> (length k <= 10)%nat.

(** How the authentication branch of the handler ends: a reply with a status
    and an error message, the resolved account with which the handler goes on,
    or an exception handed to [next(err)]. *)
Inductive auth_outcome : Type :=
| Rejected (status : Z) (message : jsstring)
| Resolved (account : value)
| Failed (e : exn).

Section Accounts.
Context `{Runtime}.

(** [getAccountByUserKey(userKey)]; [Ok None] is [null]. *)
Definition getAccountByUserKey (userKey : jsstring) (r : store) : result (option value) :=
  match userKey with
  | [] => Ok None
  | _ =>
      match redis_get (js "userkey:" ++ userKey) r with
      | Throw e => Throw e
      | Ok None | Ok (Some []) => Ok None
      | Ok (Some home) => redisGetJson (js "account:" ++ home) r
      end
  end.

(** Lines 556-570 of the handler: from [getUserContext(req)] to the check of
    [account]. *)
Definition resolve_account (req : request) (r : store) : auth_outcome :=
  match getUserContext req with
  | None => Rejected 401 (js "No user context. Use X-User-Key.")
  | Some ctx =>
      let account := match ctx with
                     | CtxSession a => Ok (Some a)
                     | CtxUserKey userKey => getAccountByUserKey userKey r
                     end in
      match account with
      | Throw e => Failed e
      | Ok a =>
          match a with
          | Some acc => if truthy acc then Resolved acc
                        else Rejected 401 (js "Invalid X-User-Key or expired.")
          | None => Rejected 401 (js "Invalid X-User-Key or expired.")
          end
      end
  end.

End Accounts.

(** ** Token acquisition

    The MSAL client of the module and its token cache, as an interface: the
    state of the cache, its (de)serialization and the silent acquisition, which
    may change the cache whether it succeeds or not. *)

Record auth_result : Type := {
  accessToken : jsstring;
  result_account : option value;
}.

Class MsalClient : Type := {
  msal_cache : Type;
  msal_deserialize : jsstring -> msal_cache -> result msal_cache;
  msal_serialize : msal_cache -> jsstring;
  msal_acquireTokenSilent : value -> msal_cache -> result auth_result * msal_cache;
}.

(** What the credential paths mutate: Redis and the token cache of the
    client. *)
Record world `{MsalClient} : Type := {
  w_redis : store;
  w_msal : msal_cache;
}.

Section Tokens.
Context `{Runtime} `{MsalClient}.

Definition msal_key (homeAccountId : option value) : jsstring :=
  js "msal:" ++ ToString_opt homeAccountId.

(** [loadMsalCache(homeAccountId)]. *)
Definition loadMsalCache (homeAccountId : option value) (r : store) : result (option jsstring) :=
  redis_get (msal_key homeAccountId) r.

(** [saveMsalCache(homeAccountId, cache)] with its default time-to-live of
    seven days. *)
Definition saveMsalCache (homeAccountId : option value) (cache : jsstring) (r : store)
  : result store :=
  redis_set (msal_key homeAccountId) cache (Some (60 * 60 * 24 * 7)) r.

(** [acquireAccessToken({ account, requestId })]: the outcome of the call and
    the world it leaves. *)
Definition acquireAccessToken (account : value) (w : world) : result jsstring * world :=
  let home := get_prop account (js "homeAccountId") in
  match loadMsalCache home (w_redis w) with
  | Throw e => (Throw e, w)
  | Ok cached =>
      let loaded := match cached with
                    | Some ((_ :: _) as c) => msal_deserialize c (w_msal w)
                    | _ => Ok (w_msal w)
                    end in
      match loaded with
      | Throw e => (Throw e, w)
      | Ok c1 =>
          match msal_acquireTokenSilent account c1 with
          | (Throw e, c2) => (Throw e, {| w_redis := w_redis w; w_msal := c2 |})
          | (Ok res, c2) =>
              match saveMsalCache home (msal_serialize c2) (w_redis w) with
              | Throw e => (Throw e, {| w_redis := w_redis w; w_msal := c2 |})
              | Ok r1 => (Ok (accessToken res), {| w_redis := r1; w_msal := c2 |})
              end
          end
      end
  end.

End Tokens.

(** ** Device-code onboarding *)

(** The response MSAL hands to [deviceCodeCallback]. *)
Record DeviceCodeResponse : Type := {
  userCode : jsstring;
  verificationUri : jsstring;
  message : jsstring;
  expiresIn : Z;
  interval : Z;
}.

(** A reply of a route: [res.status(code).json(body)]. *)
Record reply : Type := { status : Z; body : value }.

Section DeviceFlow.
Context `{Runtime} `{MsalClient}.

Definition devtx_key (txId : jsstring) : jsstring := js "devtx:" ++ txId.

(** The [deviceInfo] object of [deviceCodeCallback]. *)
Definition deviceInfo (txId : jsstring) (createdAt : Z) (response : DeviceCodeResponse) : value :=
  json_obj
    [(js "txId", Some (VStr txId));
     (js "status", Some (VStr (js "pending")));
     (js "createdAt", Some (num createdAt));
     (js "user_code", Some (VStr (userCode response)));
     (js "verification_uri", Some (VStr (verificationUri response)));
     (js "message", Some (VStr (message response)));
     (js "expires_in", Some (num (expiresIn response)));
     (js "interval", Some (num (interval response)))].

(** [deviceCodeCallback(response)]: the pending record is stored, then the
    promise awaited by the route is resolved with it, which is the body the
    route replies with. *)
Definition device_pending (txId : jsstring) (createdAt : Z) (response : DeviceCodeResponse)
    (r : store) : result (store * reply) :=
  let info := deviceInfo txId createdAt response in
  match redisSetJson (devtx_key txId) info (Some (expiresIn response)) r with
  | Throw e => Throw e
  | Ok r1 => Ok (r1, {| status := 200; body := info |})
  end.

(** Assignment [o.k = v] in module (strict) code: it throws on a primitive,
    and a named property put on an array is not serialized. *)
Definition assign (o : value) (k : jsstring) (v : value) : result value :=
  match o with
  | VObj fields => Ok (VObj (set_field k v fields))
  | VArr items => Ok (VArr items)
  | _ => Throw (TypeError (js "Cannot create property"))
  end.

(** [(await redisGetJson(key)) || { txId }]. *)
Definition stored_or_fresh (txId : jsstring) (r : store) : result value :=
  match redisGetJson (devtx_key txId) r with
  | Throw e => Throw e
  | Ok (Some v) => if truthy v then Ok v else Ok (json_obj [(js "txId", Some (VStr txId))])
  | Ok None => Ok (json_obj [(js "txId", Some (VStr txId))])
  end.

(** [String(e?.message || e)]: the message of an error, or its name when the
    message is empty. *)
Definition cause_of (e : exn) : jsstring :=
  match e with
  | JsError name msg =>
      match msg with
      | [] => name
      | _ => msg
      end
  | Thrown v =>
      if truthy_opt (get_prop v (js "message"))
      then ToString_opt (get_prop v (js "message")) else ToString v
  end.

(** The [catch] of the background task; an exception raised here leaves the
    task rejected. *)
Definition device_failed (txId : jsstring) (e : exn) (r : store) : result store :=
  match stored_or_fresh txId r with
  | Throw e' => Throw e'
  | Ok cur =>
      match assign cur (js "status") (VStr (js "error")) with
      | Throw e' => Throw e'
      | Ok cur1 =>
          match assign cur1 (js "error") (VStr (cause_of e)) with
          | Throw e' => Throw e'
          | Ok cur2 => redisSetJson (devtx_key txId) cur2 (Some (60 * 60)) r
          end
      end
  end.

(** The [try] of the background task after [acquireTokenByDeviceCode]
    returned [res]: [Throw] with the store reached is what its [catch]
    receives.  [userKey] is the fresh [base64url(crypto.randomBytes(24))] and
    [completedAt] the reading of the clock. *)
Definition device_succeeded (txId userKey : jsstring) (completedAt : Z) (res : auth_result)
    (w : world) : result store * store :=
  let r := w_redis w in
  let home := get_prop_opt (result_account res) (js "homeAccountId") in
  match result_account res with
  | Some account =>
      if truthy_opt home then
        match saveMsalCache home (msal_serialize (w_msal w)) r with
        | Throw e => (Throw e, r)
        | Ok r1 =>
            match redisSetJson (js "account:" ++ ToString_opt home) account None r1 with
            | Throw e => (Throw e, r1)
            | Ok r2 =>
                match redis_set (js "userkey:" ++ userKey) (ToString_opt home)
                        (Some (60 * 60 * 24 * 30)) r2 with
                | Throw e => (Throw e, r2)
                | Ok r3 =>
                    match stored_or_fresh txId r3 with
                    | Throw e => (Throw e, r3)
                    | Ok done =>
                        match assign done (js "status") (VStr (js "complete")) with
                        | Throw e => (Throw e, r3)
                        | Ok d1 =>
                            match assign d1 (js "user_key") (VStr userKey) with
                            | Throw e => (Throw e, r3)
                            | Ok d2 =>
                                match assign d2 (js "completedAt") (num completedAt) with
                                | Throw e => (Throw e, r3)
                                | Ok d3 =>
                                    match redisSetJson (devtx_key txId) d3
                                            (Some (60 * 60 * 24)) r3 with
                                    | Throw e => (Throw e, r3)
                                    | Ok r4 => (Ok r4, r4)
                                    end
                                end
                            end
                        end
                    end
                end
            end
        end
      else (Throw (JsError (js "Error") (js "No account in device code result")), r)
  | None => (Throw (JsError (js "Error") (js "No account in device code result")), r)
  end.

(** The background task from the moment the provider settles
    [acquireTokenByDeviceCode], with a result or with an exception. *)
Definition device_settled (txId userKey : jsstring) (completedAt : Z)
    (outcome : result auth_result) (w : world) : result store :=
  match outcome with
  | Ok res =>
      match device_succeeded txId userKey completedAt res w with
      | (Ok r', _) => Ok r'
      | (Throw e, r') => device_failed txId e r'
      end
  | Throw e => device_failed txId e (w_redis w)
  end.

(** The record of a transaction once the background task has completed it:
    the stored record with [status], [user_key] and [completedAt] assigned. *)
Definition completed_record (info : value) (userKey : jsstring) (completedAt : Z) : value :=
  match info with
  | VObj fields =>
      VObj (set_field (js "completedAt") (num completedAt)
              (set_field (js "user_key") (VStr userKey)
                 (set_field (js "status") (VStr (js "complete")) fields)))
  | v => v
  end.

(** [GET /auth/device/status/:txId]. *)
Definition device_status (txId : jsstring) (r : store) : result reply :=
  match redisGetJson (devtx_key txId) r with
  | Throw e => Throw e
  | Ok (Some info) =>
      if truthy info then Ok {| status := 200; body := info |}
      else Ok {| status := 404;
                 body := json_obj [(js "error",
                           Some (json_obj [(js "message", Some (VStr (js "txId not found")))]))] |}
  | Ok None =>
      Ok {| status := 404;
            body := json_obj [(js "error",
                      Some (json_obj [(js "message", Some (VStr (js "txId not found")))]))] |}
  end.

End DeviceFlow.

(** ** A reference runtime

    A concrete [Runtime] on which the definitions above can be evaluated: a
    recursive-descent reader and a printer for JSON with integer numbers, ASCII
    lower-casing, and a clock that advances one second per reading. *)

Module Reference.

Definition is_json_ws (u : code_unit) : bool :=
  ((u =? 32) || (u =? 9) || (u =? 10) || (u =? 13))%N.

Fixpoint skip_ws (s : jsstring) : jsstring :=
  match s with
  | u :: s' => if is_json_ws u then skip_ws s' else s
  | [] => []
  end.

Definition is_digit (u : code_unit) : bool := ((48 <=? u) && (u <=? 57))%N.

Fixpoint read_digits (acc : Z) (s : jsstring) : Z * jsstring :=
  match s with
  | u :: s' => if is_digit u then read_digits (10 * acc + Z.of_N (u - 48)) s' else (acc, s)
  | [] => (acc, [])
  end.

(** An integer literal: an optional minus sign, then [0] or a digit string
    without leading zero. *)
Definition read_int (s : jsstring) : option (Z * jsstring) :=
  let '(neg, body) := match s with 45%N :: r => (true, r) | _ => (false, s) end in
  match body with
  | 48%N :: r => Some (0, r)
  | u :: _ =>
      if is_digit u then
        let '(z, r) := read_digits 0 body in Some (if neg then - z else z, r)
      else None
  | [] => None
  end.

Definition hex_val (u : code_unit) : option N :=
  if is_digit u then Some (u - 48)%N
  else if ((97 <=? u) && (u <=? 102))%N then Some (u - 87)%N
  else if ((65 <=? u) && (u <=? 70))%N then Some (u - 55)%N
  else None.

(** The characters of a string literal after its opening quote; [acc] is the
    text read so far, in reverse. *)
Fixpoint read_chars (fuel : nat) (acc : jsstring) (s : jsstring) : option (jsstring * jsstring) :=
  match fuel with
  | O => None
  | S fuel' =>
      match s with
      | 34%N :: r => Some (rev acc, r)
      | 92%N :: 117%N :: a :: b :: c :: d :: r =>
          match hex_val a, hex_val b, hex_val c, hex_val d with
          | Some a', Some b', Some c', Some d' =>
              read_chars fuel' ((((a' * 16 + b') * 16 + c') * 16 + d')%N :: acc) r
          | _, _, _, _ => None
          end
      | 92%N :: e :: r =>
          let unescaped :=
            if (e =? 34)%N then Some 34%N else if (e =? 92)%N then Some 92%N
            else if (e =? 47)%N then Some 47%N else if (e =? 98)%N then Some 8%N
            else if (e =? 102)%N then Some 12%N else if (e =? 110)%N then Some 10%N
            else if (e =? 114)%N then Some 13%N else if (e =? 116)%N then Some 9%N
            else None in
          match unescaped with
          | Some u => read_chars fuel' (u :: acc) r
          | None => None
          end
      | u :: r => if (u <? 32)%N then None else read_chars fuel' (u :: acc) r
      | [] => None
      end
  end.

Definition read_string (s : jsstring) : option (jsstring * jsstring) :=
  match s with
  | 34%N :: r => read_chars (S (length r)) [] r
  | _ => None
  end.

Fixpoint read_value (fuel : nat) (s : jsstring) : option (value * jsstring) :=
  match fuel with
  | O => None
  | S fuel' =>
      let s := skip_ws s in
      if startsWith (js "null") s then Some (VNull, drop 4 s)
      else if startsWith (js "true") s then Some (VBool true, drop 4 s)
      else if startsWith (js "false") s then Some (VBool false, drop 5 s)
      else
        match s with
        | 34%N :: _ =>
            match read_string s with
            | Some (t, r) => Some (VStr t, r)
            | None => None
            end
        | 91%N :: r =>
            match skip_ws r with
            | 93%N :: r' => Some (VArr [], r')
            | _ => read_items fuel' [] r
            end
        | 123%N :: r =>
            match skip_ws r with
            | 125%N :: r' => Some (VObj [], r')
            | _ => read_members fuel' [] r
            end
        | _ =>
            match read_int s with
            | Some (z, r) => Some (num z, r)
            | None => None
            end
        end
  end
with read_items (fuel : nat) (acc : list value) (s : jsstring) : option (value * jsstring) :=
  match fuel with
  | O => None
  | S fuel' =>
      match read_value fuel' s with
      | Some (v, r) =>
          match skip_ws r with
          | 44%N :: r' => read_items fuel' (v :: acc) r'
          | 93%N :: r' => Some (VArr (rev (v :: acc)), r')
          | _ => None
          end
      | None => None
      end
  end
with read_members (fuel : nat) (acc : list (jsstring * value)) (s : jsstring)
  : option (value * jsstring) :=
  match fuel with
  | O => None
  | S fuel' =>
      match read_string (skip_ws s) with
      | Some (k, r) =>
          match skip_ws r with
          | 58%N :: r1 =>
              match read_value fuel' r1 with
              | Some (v, r2) =>
                  match skip_ws r2 with
                  | 44%N :: r' => read_members fuel' (set_field k v acc) r'
                  | 125%N :: r' => Some (VObj (set_field k v acc), r')
                  | _ => None
                  end
              | None => None
              end
          | _ => None
          end
      | None => None
      end
  end.

Definition parse (s : jsstring) : option value :=
  match read_value (2 * length s + 2) s with
  | Some (v, r) => match skip_ws r with [] => Some v | _ => None end
  | None => None
  end.

Definition print_Z (z : Z) : jsstring :=
  js (DecimalString.NilEmpty.string_of_int (Z.to_int z)).

Definition print_number (q : QArith_base.Q) : jsstring :=
  match QArith_base.Qden q with
  | 1%positive => print_Z (QArith_base.Qnum q)
  | d => print_Z (QArith_base.Qnum q) ++ js "/" ++ print_Z (Z.pos d)
  end.

Definition hex_digit (n : N) : code_unit := if (n <? 10)%N then (48 + n)%N else (87 + n)%N.

Definition print_unit (u : code_unit) : jsstring :=
  if (u =? 34)%N then js "\" ++ [34%N]
  else if (u =? 92)%N then js "\\"
  else if (u =? 10)%N then js "\n"
  else if (u =? 13)%N then js "\r"
  else if (u =? 9)%N then js "\t"
  else if (u =? 8)%N then js "\b"
  else if (u =? 12)%N then js "\f"
  else if (u <? 32)%N then js "\u00" ++ [hex_digit (u / 16); hex_digit (u mod 16)]
  else [u].

Definition print_string (s : jsstring) : jsstring :=
  [34%N] ++ concat (print_unit <$> s) ++ [34%N].

Fixpoint print (v : value) : jsstring :=
  match v with
  | VNull => js "null"
  | VBool true => js "true"
  | VBool false => js "false"
  | VNum q => print_number q
  | VStr s => print_string s
  | VArr items => js "[" ++ join (js ",") (List.map print items) ++ js "]"
  | VObj fields =>
      js "{" ++ join (js ",")
                  (List.map (fun kv => print_string kv.1 ++ js ":" ++ print kv.2) fields)
      ++ js "}"
  end.

(** A token cache that is its own serialization; a silent acquisition
    appends a mark to it and answers with a token naming the account. *)
#[export] Instance msal : MsalClient := {|
  msal_cache := jsstring;
  msal_deserialize := fun c _ => Ok c;
  msal_serialize := fun c => c;
  msal_acquireTokenSilent := fun account c =>
    match get_prop account (js "homeAccountId") with
    | Some (VStr home) =>
        (Ok {| accessToken := js "token:" ++ home; result_account := Some account |},
         c ++ js "+")
    | _ => (Throw (JsError (js "ClientAuthError") (js "no_account_found")), c)
    end;
|}.

#[export] Instance runtime : Runtime := {|
  JSON_parse := parse;
  JSON_stringify := print;
  String_toLowerCase := ascii_lower;
  Number_toString := print_number;
  Date_now := fun k => 1700000000000 + 1000 * Z.of_nat k;
|}.

#[export] Instance config : Config := {|
  DEBUG_EVENT_LIMIT := Some 50;
  EMPTY_RESPONSE_HINT := true;
|}.

(** The setting [DEBUG_EVENT_LIMIT=0], and a setting that is not a number. *)
Definition zero_capacity : Config := {|
  DEBUG_EVENT_LIMIT := Some 0;
  EMPTY_RESPONSE_HINT := true;
|}.
Definition no_capacity : Config := {|
  DEBUG_EVENT_LIMIT := None;
  EMPTY_RESPONSE_HINT := true;
|}.

#[export] Instance chat : Request := {|
  requestId := js "req-1";
  conversationId := Some (VStr (js "conv-1"));
  model := VStr (js "auto");
  prompt := js "SYSTEM: be brief";
|}.

(** The event block whose payload is a message list with one text. *)
Definition event (text : string) : jsstring :=
  js "data: " ++ print (VObj [(js "messages", VArr [VObj [(js "text", VStr (js text))]])]).

(** The three events of the scenario, and their bytes cut in the middle of
    the second block. *)
Definition scenario_blocks : list jsstring :=
  [event "Hi"; event "Hi there"; event "Hi there!"].
Definition scenario_chunks : list jsstring :=
  [take 50 (frames scenario_blocks); drop 50 (frames scenario_blocks)].

(** A block whose payload is not JSON, followed by a good one. *)
Definition malformed_block : jsstring := js "data: {oops".
Definition malformed_stream : stream_state :=
  set_carry (malformed_block ++ blank_line ++ event "Hi" ++ blank_line) (stream_init ∅ 0).

(** A request with a short key and a session, and one with a long key that
    the store does not know. *)
Definition session_of (home : string) : value :=
  VObj [(js "homeAccountId", VStr (js home)); (js "username", VStr (js "ann@example.org"))].
Definition short_key_request : request :=
  {| x_user_key := Some (js "short-key"); session_account := Some (session_of "home-1") |}.
Definition unknown_key_request : request :=
  {| x_user_key := Some (js "0123456789abcdef"); session_account := Some (session_of "home-1") |}.

Definition start_world : world := {| w_redis := ∅; w_msal := js "cache" |}.

Definition device_response : DeviceCodeResponse := {|
  userCode := js "ABCD-1234";
  verificationUri := js "https://microsoft.com/devicelogin";
  message := js "To sign in, open the page and enter the code";
  expiresIn := 900;
  interval := 5;
|}.
Definition device_result : auth_result :=
  {| accessToken := js "token:home-1"; result_account := Some (session_of "home-1") |}.

End Reference.

(** ** What the loop keeps, in the terms of the properties below *)

(** From [st] to [out] nothing written is taken back, the watermark does not
    shrink and the counters do not go down. *)
Definition grows (st out : stream_state) : Prop :=
  res st `prefix_of` res out
  /\ (length (fullText st) <= length (fullText out))%nat
  /\ (blocks st <= blocks out)%nat
  /\ (jsonFail st <= jsonFail out)%nat.

(** Every write of the loop and every parse failure has its own block. *)
Definition accounted (st : stream_state) : Prop :=
  (length (res st) + jsonFail st <= blocks st)%nat.

(** Nothing was written exactly as long as the watermark is empty. *)
Definition silent_iff_empty (st : stream_state) : Prop :=
  res st = [] <-> fullText st = [].

Section StreamCounts.
Context `{Runtime}.

(** The block has a payload that [JSON.parse] rejects. *)
Definition is_malformed (b : jsstring) : bool :=
  match block_payload b with
  | Some payload => match JSON_parse payload with None => true | Some _ => false end
  | None => false
  end.

End StreamCounts.

(** ** The text of an event, in the terms of the properties below *)

(** The text is not the echo of the prompt. *)
Definition not_echo (promptEcho t : jsstring) : Prop :=
  promptEcho = [] \/ trim t <> trim promptEcho.

(** The message lists an event offers: [obj.messages] and
    [obj.value.messages]. *)
Definition offered (obj : value) (msgs : list value) : Prop :=
  get_prop obj (js "messages") = Some (VArr msgs)
  \/ get_prop_opt (get_prop obj (js "value")) (js "messages") = Some (VArr msgs).

(** ** The diagnostic route *)

Section DebugRoute.
Context `{Runtime} `{Config}.

(** The callback of [arr.map] in [GET /debug/last-events]: an entry that is
    not JSON comes back wrapped as [{ raw: s }]. *)
Definition parse_or_raw (s : jsstring) : value :=
  match JSON_parse s with
  | Some o => o
  | None => json_obj [(js "raw", Some (VStr s))]
  end.

(** [GET /debug/last-events]. *)
Definition debug_last_events (r : store) : result reply :=
  match with_last_index (fun stop => redis_lrange debug_key 0 stop r) with
  | Throw e => Throw e
  | Ok arr =>
      let parsed := parse_or_raw <$> arr in
      Ok {| status := 200;
            body := json_obj [(js "count", Some (num (Z.of_nat (length parsed))));
                              (js "events", Some (VArr parsed))] |}
  end.

End DebugRoute.

(** ** Device-code onboarding, in the terms of the properties below *)

Section DeviceOutcomes.
Context `{Runtime}.

(** The record of a transaction once the [catch] of the background task has
    marked it: the stored record with [status] and [error] assigned. *)
Definition failed_record (info : value) (cause : jsstring) : value :=
  match info with
  | VObj fields =>
      VObj (set_field (js "error") (VStr cause)
              (set_field (js "status") (VStr (js "error")) fields))
  | v => v
  end.

(** The cause the [catch] stores when the provider's call settles with
    [outcome]: the exception thrown, or the one the [try] raises itself for a
    result without an account; [None] when the [try] goes on. *)
Definition failure_cause (outcome : result auth_result) : option jsstring :=
  match outcome with
  | Throw e => Some (cause_of e)
  | Ok res =>
      if truthy_opt (get_prop_opt (result_account res) (js "homeAccountId")) then None
      else Some (js "No account in device code result")
  end.

End DeviceOutcomes.

(** ** Key material

    [base64url(buf)]: the standard base64 of [Buffer.prototype.toString], then
    the three [replace] calls.  A buffer is the list of its bytes. *)

Definition base64_alphabet : jsstring :=
  js "ABCDEFGHIJKLMNOPQRSTUVWXYZabcdefghijklmnopqrstuvwxyz0123456789+/".

Definition base64_digit (n : N) : code_unit := nth (N.to_nat n) base64_alphabet 0%N.

Definition PAD : code_unit := 61%N.

Fixpoint base64 (buf : list N) : jsstring :=
  match buf with
  | a :: b :: c :: rest =>
      base64_digit (N.shiftr a 2)
      :: base64_digit (N.lor (N.shiftl (N.land a 3) 4) (N.shiftr b 4))
      :: base64_digit (N.lor (N.shiftl (N.land b 15) 2) (N.shiftr c 6))
      :: base64_digit (N.land c 63)
      :: base64 rest
  | [a; b] =>
      [base64_digit (N.shiftr a 2);
       base64_digit (N.lor (N.shiftl (N.land a 3) 4) (N.shiftr b 4));
       base64_digit (N.shiftl (N.land b 15) 2);
       PAD]
  | [a] =>
      [base64_digit (N.shiftr a 2); base64_digit (N.shiftl (N.land a 3) 4); PAD; PAD]
  | [] => []
  end.

(** [s.replace(/c/g, d)] for a single code unit [c]. *)
Definition replace_unit (c d : code_unit) (s : jsstring) : jsstring :=
  (fun u => if (u =? c)%N then d else u) <$> s.

(** [s.replace(/c+$/g, "")]: the longest run of [c] that ends the string goes. *)
Fixpoint strip_trailing (c : code_unit) (s : jsstring) : jsstring :=
  match s with
  | [] => []
  | u :: rest =>
      match strip_trailing c rest with
      | [] => if (u =? c)%N then [] else [u]
      | kept => u :: kept
      end
  end.

Definition base64url (buf : list N) : jsstring :=
  strip_trailing PAD (replace_unit 47%N 95%N (replace_unit 43%N 45%N (base64 buf))).

Definition is_byte (b : N) : Prop := (b < 256)%N.

(** The alphabet of RFC 4648, section 5: what may stand in a URL or a header
    without escaping. *)
Definition url_safe_alphabet : jsstring :=
  js "ABCDEFGHIJKLMNOPQRSTUVWXYZabcdefghijklmnopqrstuvwxyz0123456789-_".

(** The digit of [base64url] for a sextet: the digit of [base64] after the two
    replacements. *)
Definition url_digit (n : N) : code_unit :=
  let u := base64_digit n in
  let u := if (u =? 43)%N then 45%N else u in
  if (u =? 47)%N then 95%N else u.

(** Reading a key back, which the gateway never does: the inverse used to show
    that keys do not collide. *)
Fixpoint position (u : code_unit) (s : jsstring) : N :=
  match s with
  | [] => 0
  | v :: rest => if (u =? v)%N then 0 else N.succ (position u rest)
  end.

Definition url_value (u : code_unit) : N := position u url_safe_alphabet.

Definition first_byte (i j : N) : N := N.lor (N.shiftl i 2) (N.shiftr j 4).
Definition second_byte (j k : N) : N := N.lor (N.shiftl (N.land j 15) 4) (N.shiftr k 2).
Definition third_byte (k l : N) : N := N.lor (N.shiftl (N.land k 3) 6) l.

Fixpoint read_base64url (s : jsstring) : list N :=
  match s with
  | w :: x :: y :: z :: rest =>
      first_byte (url_value w) (url_value x)
      :: second_byte (url_value x) (url_value y)
      :: third_byte (url_value y) (url_value z)
      :: read_base64url rest
  | [w; x; y] =>
      [first_byte (url_value w) (url_value x); second_byte (url_value x) (url_value y)]
  | [w; x] => [first_byte (url_value w) (url_value x)]
  | _ => []
  end.

(** ** Logging helpers *)

Definition ELLIPSIS : code_unit := 8230%N.

Definition REDACTED : value := VStr (js "[REDACTED]").

Section Logging.
Context `{Runtime}.

(** The string [safeString] cuts: the value itself if it is a string, its JSON
    text otherwise. *)
Definition text_of (v : value) : jsstring :=
  match v with
  | VStr s => s
  | _ => JSON_stringify v
  end.

(** [safeString(v, maxLen)]: [null] and [undefined] come back as they are. *)
Definition safeString (v : option value) (maxLen : nat) : option value :=
  match v with
  | None => None
  | Some VNull => Some VNull
  | Some x =>
      let s := text_of x in
      Some (VStr (if (maxLen <? length s)%nat then slice s 0 maxLen ++ [ELLIPSIS] else s))
  end.

Definition is_sensitive (k : jsstring) : bool :=
  let lk := String_toLowerCase k in
  str_eqb lk (js "authorization") || str_eqb lk (js "cookie") || str_eqb lk (js "set-cookie").

(** [redactHeaders(headers)]: the loop over [Object.keys(h)], run on the copy
    [h] of the headers with the names in the order [keys] in which
    [Object.keys] lists them (index-like names first, then the others as
    inserted). *)
Definition redactHeaders (keys : list jsstring) (headers : list (jsstring * value))
  : list (jsstring * value) :=
  foldl (fun h k => if is_sensitive k then set_field k REDACTED h else h) headers keys.

(** What the properties below say of one header. *)
Definition redacted (kv : jsstring * value) : jsstring * value :=
  if is_sensitive kv.1 then (kv.1, REDACTED) else kv.

(** The headers of the three calls to Graph, as [fetchGraph] receives them:
    [Accept] is sent by [copilotChatOverStream] only. *)
Definition graph_headers (accessToken : jsstring) (streaming : bool) : list (jsstring * value) :=
  [(js "Authorization", VStr (js "Bearer " ++ accessToken));
   (js "Content-Type", VStr (js "application/json"))]
  ++ (if streaming then [(js "Accept", VStr (js "text/event-stream"))] else []).

End Logging.

(** ** The session store

    [RedisSessionStore], built once with the prefix "sess:" and
    [SESSION_TTL], the [parseInt] of the environment variable ([None] for
    NaN). *)

Class SessionConfig : Type := {
  SESSION_TTL : option Z;
}.

(** What [_getTTL] reads of the cookie of a session, as the Cookie of
    express-session gives it: [expires] is falsy ([None]) or a date, whose
    [getTime()] is a number of milliseconds or NaN ([Some None]); [maxAge] is
    not a number ([None]), or the difference of two such readings, an integer
    or NaN ([Some None]). *)
Record Cookie : Type := {
  expires : option (option Z);
  maxAge : option (option Z);
}.

(** A session: its cookie, if any, and the value [JSON.stringify] writes for
    it. *)
Record session : Type := {
  sess_cookie : option Cookie;
  sess_json : value;
}.

Definition redis_del (key : jsstring) (r : store) : result store := Ok (delete key r).

(** [Math.ceil(ms / 1000)] of an integer. *)
Definition ceil_seconds (ms : Z) : Z := - ((- ms) / 1000).

Section SessionStore.
Context `{Runtime} `{SessionConfig}.

Definition store_prefix : jsstring := js "sess:".

(** [this.ttl = opts.ttl || 86400]. *)
Definition store_ttl : Z :=
  match SESSION_TTL with
  | Some t => if t =? 0 then 86400 else t
  | None => 86400
  end.

Definition _key (sid : jsstring) : jsstring := store_prefix ++ sid.

(** [_getTTL(sess)], [now] being what [Date.now()] answers if it is asked. *)
Definition _getTTL (sess : session) (now : Z) : Z :=
  let from_expires :=
    match sess_cookie sess ≫= expires with
    | Some (Some exp) =>
        let ttl := ceil_seconds (exp - now) in
        if 0 <? ttl then Some ttl else None
    | _ => None
    end in
  let from_maxAge :=
    match sess_cookie sess ≫= maxAge with
    | Some (Some ms) =>
        let ttl := ceil_seconds ms in
        if 0 <? ttl then Some ttl else None
    | _ => None
    end in
  match from_expires with
  | Some ttl => ttl
  | None => match from_maxAge with Some ttl => ttl | None => store_ttl end
  end.

(** The four methods; [Throw e] is the callback called with the error [e]. *)
Definition store_get (sid : jsstring) (r : store) : result (option value) :=
  match redis_get (_key sid) r with
  | Throw e => Throw e
  | Ok None | Ok (Some []) => Ok None
  | Ok (Some data) =>
      match JSON_parse data with
      | Some o => Ok (Some o)
      | None => Throw (JsError (js "SyntaxError") (js "JSON.parse"))
      end
  end.

Definition store_set (sid : jsstring) (sess : session) (now : Z) (r : store) : result store :=
  let ttl := _getTTL sess now in
  redis_set (_key sid) (JSON_stringify (sess_json sess)) (Some ttl) r.

Definition store_destroy (sid : jsstring) (r : store) : result store :=
  redis_del (_key sid) r.

Definition store_touch (sid : jsstring) (sess : session) (now : Z) (r : store) : result store :=
  let ttl := _getTTL sess now in
  redis_expire (_key sid) ttl r.

End SessionStore.

(** ** The prompt

    What [buildPrompt] takes from the engine besides the [Runtime]:
    [toUpperCase], and the text that interpolation gives for the member of
    [Object.prototype] that a name inherits ([None] when it inherits none),
    which is what [hints[mode]] finds for a name that is no key of the
    literal. *)

Class Engine : Type := {
  String_toUpperCase : jsstring -> jsstring;
  Object_prototype_member : jsstring -> option jsstring;
}.

Definition hint_auto : jsstring :=
  [20320; 26159; 20225; 19994; 21150; 20844; 21161; 25163; 12290; 26681; 25454; 38382;
   39064; 22797; 26434; 24230; 33258; 21160; 36873; 25321; 31616; 27905; 25110; 28145;
   20837; 30340; 22238; 31572; 26041; 24335; 12290]%N.

Definition hint_fast : jsstring :=
  [35831; 24555; 36895; 12289; 31616; 27905; 22238; 31572; 65292; 20248; 20808; 32473;
   32467; 35770; 21644; 35201; 28857; 65292; 36991; 20813; 38271; 31687; 38138; 22443;
   12290]%N.

Definition hint_deep : jsstring :=
  [35831; 28145; 20837; 20998; 26512; 65292; 20998; 27493; 39588; 32473; 20986; 24605;
   32771; 19982; 21487; 25191; 34892; 24314; 35758; 65292; 24517; 35201; 26102; 21015;
   20986; 39118; 38505; 19982; 27880; 24847; 20107; 39033; 12290]%N.

Definition hints : list (jsstring * value) :=
  [(js "auto", VStr hint_auto); (js "fast", VStr hint_fast); (js "deep", VStr hint_deep)].

Definition is_high_surrogate (u : code_unit) : bool := ((55296 <=? u) && (u <=? 56319))%N.
Definition is_low_surrogate (u : code_unit) : bool := ((56320 <=? u) && (u <=? 57343))%N.

(** The strings that iterating a string yields: one per code point. *)
Fixpoint code_points (s : jsstring) : list jsstring :=
  match s with
  | [] => []
  | u :: rest =>
      match rest with
      | v :: rest' =>
          if is_high_surrogate u && is_low_surrogate v then [u; v] :: code_points rest'
          else [u] :: code_points rest
      | [] => [[u]]
      end
  end.

Definition DQUOTE : code_unit := 34%N.

Section Prompt.
Context `{Runtime} `{Engine}.

(** [hints[mode] || hints.auto], interpolated. *)
Definition hint_for (mode : jsstring) : jsstring :=
  match assoc mode hints with
  | Some h => ToString h
  | None =>
      match Object_prototype_member mode with
      | Some inherited => inherited
      | None => hint_auto
      end
  end.

(** What [for (const m of messages || [])] goes through. *)
Definition iterated (messages : option value) : result (list value) :=
  if truthy_opt messages then
    match messages with
    | Some (VArr items) => Ok items
    | Some (VStr s) => Ok (VStr <$> code_points s)
    | _ => Throw (TypeError (js "(messages || []) is not iterable"))
    end
  else Ok [].

(** The body of the loop for one message: the line it pushes. *)
Definition prompt_line (m : value) : result jsstring :=
  match m with
  | VNull => Throw (TypeError (js "Cannot read properties of null (reading 'role')"))
  | _ =>
      let role := get_prop m (js "role") in
      match (if truthy_opt role then role else Some (VStr (js "user"))) with
      | Some (VStr r) =>
          let content :=
            match get_prop m (js "content") with
            | Some (VStr c) => c
            | Some v => JSON_stringify v
            | None => js "undefined"
            end in
          Ok (String_toUpperCase r ++ js ": " ++ content)
      | _ =>
          Throw (TypeError (js "(m.role || " ++ [DQUOTE] ++ js "user" ++ [DQUOTE]
                            ++ js ").toUpperCase is not a function"))
      end
  end.

Fixpoint prompt_lines (items : list value) : result (list jsstring) :=
  match items with
  | [] => Ok []
  | m :: rest =>
      match prompt_line m with
      | Throw e => Throw e
      | Ok line =>
          match prompt_lines rest with
          | Throw e => Throw e
          | Ok lines => Ok (line :: lines)
          end
      end
  end.

(** [buildPrompt(messages, mode)]. *)
Definition buildPrompt (messages : option value) (mode : jsstring) : result jsstring :=
  let hint := hint_for mode in
  match iterated messages with
  | Throw e => Throw e
  | Ok items =>
      match prompt_lines items with
      | Throw e => Throw e
      | Ok lines => Ok (join [LF] ((js "SYSTEM: " ++ hint) :: lines ++ [js "ASSISTANT:"]))
      end
  end.

(** A message the loop can turn into a line: it is not [null], and its
    [role], when truthy, is a string. *)
Definition usable_message (m : value) : Prop :=
  m <> VNull
  /\ forall r, get_prop m (js "role") = Some r -> truthy r = true -> exists s, r = VStr s.

End Prompt.

(** ** The decoder of the upstream bytes

    [new TextDecoder()] and [dec.decode(value, { stream: true })]: the UTF-8
    decoder of the Encoding Standard.  It replaces a malformed sequence by
    U+FFFD, keeps an unfinished sequence for the next call, and drops a byte
    order mark that opens the stream.  A read delivers the list of its
    bytes. *)

Record decoder : Type := {
  bytes_needed : N;
  bytes_seen : N;
  code_point : N;
  lower_boundary : N;
  upper_boundary : N;
  BOM_seen : bool;
}.

Definition new_TextDecoder : decoder := {|
  bytes_needed := 0;
  bytes_seen := 0;
  code_point := 0;
  lower_boundary := 128;
  upper_boundary := 191;
  BOM_seen := false;
|}.

Definition REPLACEMENT : N := 65533%N.

Definition between (lo hi b : N) : bool := ((lo <=? b) && (b <=? hi))%N.

(** The decoder with no sequence open. *)
Definition closed (d : decoder) : decoder := {|
  bytes_needed := 0;
  bytes_seen := 0;
  code_point := 0;
  lower_boundary := 128;
  upper_boundary := 191;
  BOM_seen := BOM_seen d;
|}.

(** A byte read when no sequence is open: the code points it yields and the
    sequence it opens. *)
Definition lead_byte (b : N) (d : decoder) : list N * decoder :=
  if (b <=? 127)%N then ([b], closed d)
  else if between 194 223 b then
    ([], {| bytes_needed := 1; bytes_seen := 0; code_point := N.land b 31;
            lower_boundary := 128; upper_boundary := 191; BOM_seen := BOM_seen d |})
  else if between 224 239 b then
    ([], {| bytes_needed := 2; bytes_seen := 0; code_point := N.land b 15;
            lower_boundary := if (b =? 224)%N then 160%N else 128%N;
            upper_boundary := if (b =? 237)%N then 159%N else 191%N;
            BOM_seen := BOM_seen d |})
  else if between 240 244 b then
    ([], {| bytes_needed := 3; bytes_seen := 0; code_point := N.land b 7;
            lower_boundary := if (b =? 240)%N then 144%N else 128%N;
            upper_boundary := if (b =? 244)%N then 143%N else 191%N;
            BOM_seen := BOM_seen d |})
  else ([REPLACEMENT], closed d).

(** The handler of the decoder for one byte.  A byte that cannot continue the
    open sequence ends it with U+FFFD and is read again as a first byte. *)
Definition handle_byte (b : N) (d : decoder) : list N * decoder :=
  if (bytes_needed d =? 0)%N then lead_byte b d
  else if between (lower_boundary d) (upper_boundary d) b then
    let cp := N.lor (N.shiftl (code_point d) 6) (N.land b 63) in
    if (bytes_seen d + 1 =? bytes_needed d)%N then ([cp], closed d)
    else ([], {| bytes_needed := bytes_needed d; bytes_seen := bytes_seen d + 1;
                 code_point := cp; lower_boundary := 128; upper_boundary := 191;
                 BOM_seen := BOM_seen d |})
  else
    let '(out, d1) := lead_byte b (closed d) in (REPLACEMENT :: out, d1).

(** The first code point ever produced is dropped if it is the byte order
    mark. *)
Definition without_BOM (cps : list N) (d : decoder) : list N * decoder :=
  match cps with
  | [] => ([], d)
  | c :: rest =>
      if BOM_seen d then (cps, d)
      else (if (c =? 65279)%N then rest else cps,
            {| bytes_needed := bytes_needed d; bytes_seen := bytes_seen d;
               code_point := code_point d; lower_boundary := lower_boundary d;
               upper_boundary := upper_boundary d; BOM_seen := true |})
  end.

(** The code units of a code point. *)
Definition utf16 (c : N) : jsstring :=
  if (c <? 65536)%N then [c]
  else [(55296 + N.shiftr (c - 65536) 10)%N; (56320 + N.land (c - 65536) 1023)%N].

Definition decode_byte (b : N) (d : decoder) : jsstring * decoder :=
  let '(cps, d1) := handle_byte b d in
  let '(out, d2) := without_BOM cps d1 in
  (concat (utf16 <$> out), d2).

(** [dec.decode(value, { stream: true })]: the text returned and the decoder
    left for the next call. *)
Fixpoint decode (d : decoder) (value : list N) : jsstring * decoder :=
  match value with
  | [] => ([], d)
  | b :: rest =>
      let '(t1, d1) := decode_byte b d in
      let '(t2, d2) := decode d1 rest in
      (t1 ++ t2, d2)
  end.

(** The texts that the successive reads add to [carry]. *)
Fixpoint decoded_reads (d : decoder) (values : list (list N)) : list jsstring :=
  match values with
  | [] => []
  | value :: rest =>
      let '(text, d1) := decode d value in
      text :: decoded_reads d1 rest
  end.

(** ** Further reference inputs

    An engine, a session configuration and inputs on which the properties of
    the helpers are evaluated, next to those of [Reference]. *)

Module Fixtures.
Import Reference.

Definition ascii_upper_unit (u : code_unit) : code_unit :=
  if ((97 <=? u) && (u <=? 122))%N then (u - 32)%N else u.

#[export] Instance engine : Engine := {|
  String_toUpperCase := fun s => ascii_upper_unit <$> s;
  Object_prototype_member := fun name =>
    if str_eqb name (js "constructor") then Some (js "function Object() { [native code] }")
    else if str_eqb name (js "toString") then Some (js "function toString() { [native code] }")
    else if str_eqb name (js "valueOf") then Some (js "function valueOf() { [native code] }")
    else if str_eqb name (js "__proto__") then Some (js "[object Object]")
    else None;
|}.

#[export] Instance sessions : SessionConfig := {|
  SESSION_TTL := Some 86400;
|}.

(** The 24 bytes of a key and the key they give. *)
Definition key_bytes : list N :=
  [251; 239; 190; 0; 16; 131; 16; 81; 135; 32; 146; 139; 48; 211; 143; 65; 20; 147; 81; 85;
   151; 97; 150; 155]%N.
Definition minted_key : jsstring := base64url key_bytes.

(** A transaction that is pending in the store. *)
Definition pending_fields : list (jsstring * value) :=
  [(js "txId", VStr (js "tx-1")); (js "status", VStr (js "pending"))].
Definition pending_world : world :=
  {| w_redis := {[ devtx_key (js "tx-1") :=
                     {| r_val := RString (print (VObj pending_fields)); r_ttl := Some 900 |} ]};
     w_msal := js "cache" |}.
Definition cancelled : exn := JsError (js "ClientAuthError") (js "user_cancelled").

(** Headers as a client could send them, and an order of visit. *)
Definition sample_headers : list (jsstring * value) :=
  [(js "Authorization", VStr (js "Bearer abc"));
   (js "X-Trace", VStr (js "t-1"));
   (js "Set-Cookie", VStr (js "sid=1"))].
Definition sample_keys : list jsstring :=
  [js "X-Trace"; js "Authorization"; js "Set-Cookie"].

(** A session whose cookie expires ninety and a half seconds after the clock
    reads 1700000000000. *)
Definition visit : session := {|
  sess_cookie := Some {| expires := Some (Some 1700000090500); maxAge := Some (Some 90500) |};
  sess_json := VObj [(js "account", session_of "home-1")];
|}.

(** A conversation, and the prompt made of it in mode "fast". *)
Definition sample_messages : option value :=
  Some (VArr [VObj [(js "role", VStr (js "system")); (js "content", VStr (js "Be terse."))];
              VObj [(js "content", VStr (js "Hello"))]]).
Definition sample_prompt : jsstring :=
  match buildPrompt sample_messages (js "fast") with
  | Ok p => p
  | Throw _ => []
  end.

(** A stream of one malformed block, one event and an unfinished rest. *)
Definition mixed_blocks : list jsstring := [malformed_block; event "Hi"].
Definition mixed_rest : jsstring := js "data: {".

(** The bytes of a comment line with an accented letter followed by an event,
    whole, and cut by the reads inside the two bytes of the letter. *)
Definition accented_bytes : list N :=
  js ": caf" ++ [195; 169; 10]%N ++ event "Hi" ++ blank_line.
Definition accented_reads : list (list N) :=
  [take 6 accented_bytes; drop 6 accented_bytes].

(** An event whose only text is the prompt of the request. *)
Definition echo_event : value :=
  VObj [(js "messages", VArr [VObj [(js "text", VStr (js " SYSTEM: be brief "))]])].

End Fixtures.

(** * Properties *)

(** ** The helpers on small inputs *)

Example split_keeps_empty_segments :
  split LF (js "a" ++ [LF] ++ js "b" ++ [LF]) = [js "a"; js "b"; []].
Proof. reflexivity. Qed.

Example split_of_empty : split LF [] = [[]].
Proof. reflexivity. Qed.

Example trim_both_ends : trim ([9; 32]%N ++ js "a b" ++ [13; 10; 8232]%N) = js "a b".
Proof. reflexivity. Qed.

Example indexOf_first_occurrence : indexOf (js "ab") (js "xxabab") = Some 2%nat.
Proof. reflexivity. Qed.

Example indexOf_not_found : indexOf blank_line (js "data: 1" ++ [LF]) = None.
Proof. reflexivity. Qed.

Example dataLines_of_block :
  dataLines (js "event: message" ++ [LF] ++ js "data:   {}  " ++ [LF] ++ js "data:1")
  = [js "{}"; js "1"].
Proof. reflexivity. Qed.

Example payload_joins_data_lines :
  block_payload (js "data: [1," ++ [LF] ++ js ": comment" ++ [LF] ++ js "data: 2]")
  = Some (js "[1," ++ [LF] ++ js "2]").
Proof. reflexivity. Qed.

Example payload_of_comment_block : block_payload (js ": keep-alive") = None.
Proof. reflexivity. Qed.

Example text_prefers_last_non_echo :
  extractBestTextFromEvent
    (VObj [(js "messages", VArr [VObj [(js "text", VStr (js "answer"))];
                                 VObj [(js "text", VStr (js " PROMPT "))]])])
    (js "PROMPT")
  = Some (js "answer").
Proof. reflexivity. Qed.

Example text_falls_back_to_echo :
  extractBestTextFromEvent
    (VObj [(js "messages", VArr [VObj [(js "text", VStr (js "PROMPT"))]])]) (js "PROMPT")
  = Some (js "PROMPT").
Proof. reflexivity. Qed.

Example text_from_wrapped_list :
  extractBestTextFromEvent
    (VObj [(js "value",
            VObj [(js "messages",
                   VArr [VObj [(js "message", VObj [(js "text", VStr (js "nested"))])];
                         VObj [(js "content", VNull)]])])])
    (js "PROMPT")
  = Some (js "nested").
Proof. reflexivity. Qed.

Example list_range_keeps_head : list_range [js "c"; js "b"; js "a"] 0 1 = [js "c"; js "b"].
Proof. reflexivity. Qed.

Example reference_parse_roundtrip :
  Reference.parse (Reference.print (VObj [(js "a", VArr [num (-12); VNull; VBool true]);
                                          (js "b", VStr ([34; 92; 10; 7; 20013]%N))]))
  = Some (VObj [(js "a", VArr [num (-12); VNull; VBool true]);
                (js "b", VStr ([34; 92; 10; 7; 20013]%N))]).
Proof. vm_compute. reflexivity. Qed.

Example reference_parse_rejects : Reference.parse (js "{oops") = None.
Proof. vm_compute. reflexivity. Qed.

(** ** Strings *)

Lemma str_eqb_eq (a b : jsstring) : str_eqb a b = true <-> a = b.
Proof. unfold str_eqb. apply bool_decide_eq_true. Qed.

Lemma str_eqb_refl (a : jsstring) : str_eqb a a = true.
Proof. apply str_eqb_eq. reflexivity. Qed.

Lemma startsWith_app (p s : jsstring) : startsWith p (p ++ s) = true.
Proof. induction p as [|a p IH]; simpl; [reflexivity|]. rewrite N.eqb_refl. exact IH. Qed.

Lemma startsWith_prefix (p s : jsstring) : startsWith p s = true -> exists t, s = p ++ t.
Proof.
  revert s. induction p as [|a p IH]; intros s Hs; simpl in *.
  - exists s. reflexivity.
  - destruct s as [|b s]; [discriminate|].
    apply andb_true_iff in Hs as [Hab Hs]. apply N.eqb_eq in Hab as ->.
    destruct (IH _ Hs) as [t ->]. exists t. reflexivity.
Qed.

Lemma startsWith_app_r (p s t : jsstring) :
  startsWith p s = true -> startsWith p (s ++ t) = true.
Proof.
  intros Hs. destruct (startsWith_prefix _ _ Hs) as [u ->].
  rewrite <- app_assoc. apply startsWith_app.
Qed.

Lemma startsWith_app_inv (p s t : jsstring) :
  startsWith p (s ++ t) = true -> (length p <= length s)%nat -> startsWith p s = true.
Proof.
  revert s. induction p as [|a p IH]; intros s Hs Hlen; [reflexivity|].
  destruct s as [|b s]; simpl in *; [lia|].
  apply andb_true_iff in Hs as [-> Hs]. simpl. apply IH; [exact Hs|lia].
Qed.

Lemma indexOf_cons (needle : jsstring) (u : code_unit) (s : jsstring) :
  indexOf needle (u :: s)
  = if startsWith needle (u :: s) then Some 0%nat else S <$> indexOf needle s.
Proof. reflexivity. Qed.

(** An index found by [indexOf] leaves room for the needle. *)
Lemma indexOf_bound (needle s : jsstring) (i : nat) :
  indexOf needle s = Some i -> (i + length needle <= length s)%nat.
Proof.
  revert i. induction s as [|u s IH]; intros i Hi; simpl in Hi.
  - destruct needle; simpl in Hi; [|discriminate]. injection Hi as <-. simpl. lia.
  - destruct (startsWith needle (u :: s)) eqn:Hp.
    + injection Hi as <-. destruct (startsWith_prefix _ _ Hp) as [t Ht].
      rewrite Ht, length_app. lia.
    + destruct (indexOf needle s) as [j|] eqn:Hj; [|discriminate].
      injection Hi as <-. specialize (IH j eq_refl). simpl. lia.
Qed.

(** Text arriving later does not move an occurrence already found. *)
Lemma indexOf_app (needle s t : jsstring) (i : nat) :
  indexOf needle s = Some i -> indexOf needle (s ++ t) = Some i.
Proof.
  revert i. induction s as [|u s IH]; intros i Hi; simpl in Hi.
  - destruct needle; simpl in Hi; [|discriminate]. injection Hi as <-.
    destruct t; reflexivity.
  - simpl. destruct (startsWith needle (u :: s)) eqn:Hp.
    + injection Hi as <-.
      change (u :: s ++ t) with ((u :: s) ++ t).
      rewrite (startsWith_app_r _ _ t Hp). reflexivity.
    + destruct (indexOf needle s) as [j|] eqn:Hj; [|discriminate].
      injection Hi as <-.
      assert (Hnp : startsWith needle (u :: s ++ t) = false).
      { destruct (startsWith needle (u :: s ++ t)) eqn:Hq; [|reflexivity].
        exfalso. pose proof (indexOf_bound _ _ _ Hj) as Hb.
        change (u :: s ++ t) with ((u :: s) ++ t) in Hq.
        apply startsWith_app_inv in Hq; [congruence|simpl; lia]. }
      rewrite Hnp, (IH j eq_refl). reflexivity.
Qed.

(** ** The streaming loop *)

Section StreamFacts.
Context `{Runtime} `{Config} `{Request}.

Lemma advance_carry text st : carry (advance text st) = carry st.
Proof.
  unfold advance. destruct text as [t|]; [|reflexivity].
  destruct (length (fullText st) <? length t)%nat; [|reflexivity].
  destruct (slice_from t (length (fullText st))); reflexivity.
Qed.

(** The loop body leaves [carry] alone. *)
Lemma process_block_carry block st : carry (process_block block st) = carry st.
Proof.
  unfold process_block. destruct (block_payload block) as [payload|]; [|reflexivity].
  destruct (JSON_parse payload) as [obj|]; [|reflexivity].
  rewrite advance_carry. destruct (truthy_opt _); reflexivity.
Qed.

Lemma indexOf_blank_line_drop c idx :
  indexOf blank_line c = Some idx -> (length (drop (idx + 2) c) < length c)%nat.
Proof.
  intros Hidx. rewrite length_drop.
  destruct c as [|u c]; [discriminate|]. simpl. lia.
Qed.

Lemma drain_step st :
  drain st =
  match indexOf blank_line (carry st) with
  | None => st
  | Some idx =>
      drain (process_block (slice (carry st) 0 idx)
               (incr_blocks (set_carry (slice_from (carry st) (idx + 2)) st)))
  end.
Proof.
  rewrite drain_equation_1.
  destruct (inspect (indexOf blank_line (carry st))) as [[idx|] Hidx];
    simpl; rewrite Hidx; reflexivity.
Qed.

Lemma process_block_set_carry b c st :
  process_block b (set_carry c st) = set_carry c (process_block b st).
Proof.
  destruct st. unfold process_block, advance, sendDelta, nowUnix. simpl.
  destruct (block_payload b) as [payload|]; [|reflexivity].
  destruct (JSON_parse payload) as [obj|]; [|reflexivity].
  destruct (truthy_opt (get_prop obj (js "error")));
    destruct (extractBestTextFromEvent obj prompt) as [t|]; simpl; try reflexivity;
    destruct (length _ <? length t)%nat; simpl; try reflexivity;
    destruct (slice_from t _); reflexivity.
Qed.

Lemma set_carry_set_carry c c' st : set_carry c (set_carry c' st) = set_carry c st.
Proof. reflexivity. Qed.

Lemma set_carry_id st : set_carry (carry st) st = st.
Proof. destruct st; reflexivity. Qed.

Lemma set_carry_incr_blocks c st : set_carry c (incr_blocks st) = incr_blocks (set_carry c st).
Proof. reflexivity. Qed.

(** Induction along the turns of the inner loop. *)
Lemma drain_turns_ind (P : stream_state -> stream_state -> Prop) :
  (forall st, indexOf blank_line (carry st) = None -> P st st) ->
  (forall st idx, indexOf blank_line (carry st) = Some idx ->
     P (next_turn idx st) (drain (next_turn idx st)) -> P st (drain (next_turn idx st))) ->
  forall st, P st (drain st).
Proof.
  intros Hstop Hturn st.
  remember (length (carry st)) as n eqn:Hn. revert st Hn.
  induction n as [n IH] using lt_wf_ind. intros st ->.
  rewrite drain_step. destruct (indexOf blank_line (carry st)) as [idx|] eqn:Hidx.
  - apply (Hturn st idx Hidx). eapply IH; [|reflexivity].
    unfold next_turn. rewrite process_block_carry. simpl.
    apply indexOf_blank_line_drop. exact Hidx.
  - apply Hstop. exact Hidx.
Qed.

Lemma drain_stop st : indexOf blank_line (carry st) = None -> drain st = st.
Proof. intros Hnone. rewrite drain_step, Hnone. reflexivity. Qed.

Lemma drain_turn st idx :
  indexOf blank_line (carry st) = Some idx -> drain st = drain (next_turn idx st).
Proof. intros Hidx. rewrite drain_step, Hidx. reflexivity. Qed.

(** The loop stops exactly when no blank line is left in [carry]. *)
Lemma drain_done st : indexOf blank_line (carry (drain st)) = None.
Proof.
  apply (drain_turns_ind (fun _ out => indexOf blank_line (carry out) = None)); auto.
Qed.

(** Appending text to [carry] commutes with a turn of the loop. *)
Lemma next_turn_append t idx st :
  indexOf blank_line (carry st) = Some idx ->
  next_turn idx (set_carry (carry st ++ t) st)
  = set_carry (carry (next_turn idx st) ++ t) (next_turn idx st).
Proof.
  intros Hidx. pose proof (indexOf_bound _ _ _ Hidx) as Hb. simpl in Hb.
  unfold next_turn. rewrite process_block_carry.
  change (carry (set_carry (carry st ++ t) st)) with (carry st ++ t).
  change (carry (incr_blocks (set_carry (slice_from (carry st) (idx + 2)) st)))
    with (slice_from (carry st) (idx + 2)).
  unfold slice, slice_from. rewrite !drop_0, Nat.sub_0_r.
  rewrite take_app_le by lia. rewrite drop_app_le by lia.
  rewrite set_carry_set_carry, <- !set_carry_incr_blocks.
  rewrite !process_block_set_carry, set_carry_set_carry. reflexivity.
Qed.

(** Draining before more text arrives changes nothing: the blocks cut are
    the same however the text was split into chunks. *)
Lemma drain_append t st :
  drain (set_carry (carry (drain st) ++ t) (drain st)) = drain (set_carry (carry st ++ t) st).
Proof.
  apply (drain_turns_ind (fun st out =>
           drain (set_carry (carry out ++ t) out) = drain (set_carry (carry st ++ t) st))).
  - reflexivity.
  - intros st' idx Hidx IH. rewrite IH.
    rewrite (drain_turn (set_carry (carry st' ++ t) st') idx).
    + rewrite next_turn_append by exact Hidx. reflexivity.
    + simpl. apply indexOf_app. exact Hidx.
Qed.

Lemma foldl_on_chunk chunks st :
  foldl on_chunk (drain st) chunks = drain (set_carry (carry st ++ concat chunks) st).
Proof.
  revert st. induction chunks as [|t chunks IH]; intros st; simpl.
  - rewrite app_nil_r, set_carry_id. reflexivity.
  - unfold on_chunk at 2. rewrite drain_append, IH.
    change (carry (set_carry (carry st ++ t) st)) with (carry st ++ t).
    rewrite set_carry_set_carry, <- (assoc_L (++)). reflexivity.
Qed.

(** A block followed by its blank line is what the loop cuts next. *)
Lemma indexOf_block b rest :
  is_block b -> indexOf blank_line (b ++ blank_line ++ rest) = Some (length b).
Proof.
  unfold is_block. induction b as [|u b IH]; intros Hb; [reflexivity|].
  change ((u :: b) ++ [LF]) with (u :: b ++ [LF]) in Hb.
  change ((u :: b) ++ blank_line ++ rest) with (u :: b ++ blank_line ++ rest).
  rewrite indexOf_cons in Hb. rewrite indexOf_cons.
  destruct (startsWith blank_line (u :: b ++ [LF])) eqn:Hp; [discriminate|].
  destruct (indexOf blank_line (b ++ [LF])) eqn:Hi; [discriminate|].
  assert (Hq : startsWith blank_line (u :: b ++ blank_line ++ rest) = false).
  { destruct b as [|v b]; exact Hp. }
  rewrite Hq, IH by reflexivity. reflexivity.
Qed.

Lemma drain_block b rest st :
  is_block b -> carry st = b ++ blank_line ++ rest ->
  drain st = drain (set_carry rest (process_block b (incr_blocks st))).
Proof.
  intros Hb Hc. rewrite (drain_turn st (length b)).
  - unfold next_turn, slice, slice_from. rewrite Hc, drop_0, Nat.sub_0_r.
    rewrite take_app_length.
    replace (drop (length b + 2) (b ++ blank_line ++ rest)) with rest.
    + rewrite <- set_carry_incr_blocks, process_block_set_carry. reflexivity.
    + rewrite drop_app_ge by lia.
      replace (length b + 2 - length b)%nat with 2%nat by lia. reflexivity.
  - rewrite Hc. apply indexOf_block. exact Hb.
Qed.

Lemma feed_set_carry bs c st : feed bs (set_carry c st) = set_carry c (feed bs st).
Proof.
  revert st. induction bs as [|b bs IH]; intros st; [reflexivity|].
  simpl. rewrite <- IH, <- process_block_set_carry. reflexivity.
Qed.

Lemma drain_frames bs rest st :
  Forall is_block bs -> carry st = frames bs ++ rest ->
  drain st = drain (set_carry rest (feed bs st)).
Proof.
  intros Hbs. revert st. induction Hbs as [|b bs Hb Hbs IH]; intros st Hc.
  - simpl in *. rewrite <- Hc, set_carry_id. reflexivity.
  - unfold frames in Hc. simpl in Hc. rewrite <- !app_assoc in Hc.
    rewrite (drain_block b _ st Hb Hc).
    rewrite IH by reflexivity. simpl.
    rewrite feed_set_carry, set_carry_set_carry. reflexivity.
Qed.

(** The outer loop over the chunks read is the loop body run over the
    blocks of the whole text, whatever the chunk boundaries. *)
Lemma chunks_as_blocks chunks bs rest st :
  carry st = [] -> concat chunks = frames bs ++ rest ->
  Forall is_block bs -> indexOf blank_line rest = None ->
  foldl on_chunk st chunks = set_carry rest (feed bs st).
Proof.
  intros Hc Hcat Hbs Hrest.
  rewrite <- (drain_stop st) at 1 by (rewrite Hc; reflexivity).
  rewrite foldl_on_chunk, Hc. simpl.
  rewrite (drain_frames bs rest) by (simpl; auto).
  rewrite feed_set_carry, set_carry_set_carry.
  apply drain_stop. exact Hrest.
Qed.
End StreamFacts.

Section Watermark.
Context `{Runtime} `{Config} `{Request}.

Lemma process_block_parsed b payload obj st :
  block_payload b = Some payload -> JSON_parse payload = Some obj ->
  process_block b st = advance (extractBestTextFromEvent obj prompt) (sampled payload obj st).
Proof. intros Hp Ho. unfold process_block. rewrite Hp, Ho. reflexivity. Qed.

Lemma sampled_fields payload obj st :
  fullText (sampled payload obj st) = fullText st
  /\ res (sampled payload obj st) = res st
  /\ ticks (sampled payload obj st) = S (ticks st)
  /\ jsonFail (sampled payload obj st) = jsonFail st
  /\ blocks (sampled payload obj st) = blocks st
  /\ redis (sampled payload obj st)
     = pushDebugEvent (debug_sample (Date_now (ticks st)) payload) (redis st).
Proof. unfold sampled. destruct (truthy_opt _); repeat split; reflexivity. Qed.

Lemma drop_nonempty (t : jsstring) (n : nat) : (n < length t)%nat -> drop n t <> [].
Proof.
  intros Hn Hd. apply (f_equal length) in Hd. rewrite length_drop in Hd. simpl in Hd. lia.
Qed.

(** A text longer than the watermark replaces it; the part beyond the old
    length is sent, stamped with the next reading of the clock. *)
Lemma advance_longer t st :
  (length (fullText st) < length t)%nat ->
  advance (Some t) st
  = sendDelta (slice_from t (length (fullText st))) (set_fullText t st).
Proof.
  intros Hlen. unfold advance.
  destruct (Nat.ltb_spec (length (fullText st)) (length t)) as [_|Hge]; [|lia].
  pose proof (drop_nonempty t _ Hlen) as Hne. unfold slice_from in *.
  destruct (drop (length (fullText st)) t); [congruence|reflexivity].
Qed.

(** A text no longer than the watermark changes nothing. *)
Lemma advance_not_longer t st :
  (length t <= length (fullText st))%nat -> advance (Some t) st = st.
Proof.
  intros Hlen. unfold advance.
  destruct (Nat.ltb_spec (length (fullText st)) (length t)) as [Hlt|_]; [lia|reflexivity].
Qed.

Lemma advance_fields text st :
  let grows := match text with
               | Some t => (length (fullText st) <? length t)%nat
               | None => false
               end in
  fullText (advance text st) = (if grows then default [] text else fullText st)
  /\ res (advance text st)
     = res st ++ (if grows
                  then [delta_write (slice_from (default [] text) (length (fullText st)),
                                     Date_now (ticks st) / 1000)]
                  else [])
  /\ ticks (advance text st) = (if grows then S (ticks st) else ticks st)
  /\ jsonFail (advance text st) = jsonFail st
  /\ blocks (advance text st) = blocks st
  /\ redis (advance text st) = redis st.
Proof.
  destruct text as [t|]; cbv zeta.
  - destruct (Nat.ltb_spec (length (fullText st)) (length t)) as [Hlt|Hge].
    + rewrite advance_longer by exact Hlt. repeat split; reflexivity.
    + rewrite advance_not_longer by exact Hge. rewrite app_nil_r. repeat split; reflexivity.
  - rewrite app_nil_r. repeat split; reflexivity.
Qed.

(** What the loop body does with a block, in terms of the text it reports. *)
Lemma process_block_text b st :
  let grows := match block_text b with
               | Some t => (length (fullText st) <? length t)%nat
               | None => false
               end in
  fullText (process_block b st) = (if grows then default [] (block_text b) else fullText st)
  /\ res (process_block b st)
     = res st ++ (if grows
                  then [delta_write (slice_from (default [] (block_text b)) (length (fullText st)),
                                     Date_now (S (ticks st)) / 1000)]
                  else []).
Proof.
  cbv zeta. unfold block_text.
  destruct (block_payload b) as [payload|] eqn:Hp; cbn [mbind option_bind];
    [|unfold process_block; rewrite Hp, app_nil_r; split; reflexivity].
  destruct (JSON_parse payload) as [obj|] eqn:Ho; cbn [mbind option_bind];
    [|unfold process_block; rewrite Hp, Ho, app_nil_r; split; reflexivity].
  rewrite (process_block_parsed b payload obj st Hp Ho).
  destruct (sampled_fields payload obj st) as (Hf & Hr & Ht & _).
  destruct (advance_fields (extractBestTextFromEvent obj prompt) (sampled payload obj st))
    as (Hf' & Hr' & _).
  rewrite Hf, Hr, Ht in *. split; assumption.
Qed.

Lemma process_block_incr_blocks b st :
  fullText (process_block b (incr_blocks st)) = fullText (process_block b st)
  /\ res (process_block b (incr_blocks st)) = res (process_block b st).
Proof.
  destruct (process_block_text b (incr_blocks st)) as [-> ->].
  destruct (process_block_text b st) as [-> ->]. split; reflexivity.
Qed.
End Watermark.

Section Translation.
Context `{Runtime} `{Config} `{Request}.

Lemma feed_cons b bs st : feed (b :: bs) st = feed bs (process_block b (incr_blocks st)).
Proof. reflexivity. Qed.

Lemma default_last_cons (w t : jsstring) (ts : list jsstring) :
  default w (last (t :: ts)) = default t (last ts).
Proof. rewrite last_cons. destruct (last ts); reflexivity. Qed.

(** Over a cumulative sequence of texts the deltas sent add up to the text of
    the last event, from any watermark the sequence extends. *)
Lemma feed_cumulative bs st :
  cumulative (fullText st) (omap block_text bs) ->
  exists deltas : list (jsstring * Z),
    res (feed bs st) = res st ++ (delta_write <$> deltas)
    /\ fullText (feed bs st) = fullText st ++ concat (deltas.*1)
    /\ fullText (feed bs st) = default (fullText st) (last (omap block_text bs))
    /\ Forall (fun d => d.1 <> []) deltas.
Proof.
  revert st. induction bs as [|b bs IH]; intros st Hcum.
  - exists []. simpl. rewrite !app_nil_r. repeat split; constructor.
  - rewrite feed_cons.
    destruct (process_block_incr_blocks b st) as [Hf1 Hr1].
    destruct (process_block_text b st) as [Hf2 Hr2].
    rewrite Hf2 in Hf1. rewrite Hr2 in Hr1. clear Hf2 Hr2.
    simpl in Hcum. destruct (block_text b) as [t|] eqn:Hb.
    + simpl in Hcum. destruct Hcum as [[k Hk] Hcum].
      assert (Hlast : default (fullText st) (last (omap block_text (b :: bs)))
                      = default t (last (omap block_text bs))).
      { simpl. rewrite Hb. apply default_last_cons. }
      rewrite Hlast.
      destruct (Nat.ltb_spec (length (fullText st)) (length t)) as [Hlt|Hge].
      * simpl in Hf1, Hr1.
        assert (Hd : slice_from t (length (fullText st)) = k).
        { unfold slice_from. rewrite Hk, drop_app_length. reflexivity. }
        rewrite Hd in Hr1.
        destruct (IH (process_block b (incr_blocks st))) as (ds & Hr & Hf & Hl & Hne).
        { rewrite Hf1. exact Hcum. }
        exists ((k, Date_now (S (ticks st)) / 1000) :: ds).
        split; [|split; [|split]].
        -- rewrite Hr, Hr1. simpl. rewrite <- (assoc_L (++)). reflexivity.
        -- rewrite Hf, Hf1, Hk. simpl. rewrite <- (assoc_L (++)). reflexivity.
        -- rewrite Hl, Hf1. reflexivity.
        -- constructor; [|exact Hne]. simpl. intros ->.
           rewrite Hk, length_app in Hlt. simpl in Hlt. lia.
      * simpl in Hf1, Hr1. rewrite app_nil_r in Hr1.
        assert (Ht : t = fullText st).
        { rewrite Hk, length_app in Hge. destruct k; [rewrite Hk, app_nil_r; reflexivity|].
          simpl in Hge. lia. }
        destruct (IH (process_block b (incr_blocks st))) as (ds & Hr & Hf & Hl & Hne).
        { rewrite Hf1, <- Ht. exact Hcum. }
        exists ds. split; [|split; [|split]].
        -- rewrite Hr, Hr1. reflexivity.
        -- rewrite Hf, Hf1. reflexivity.
        -- rewrite Hl, Hf1, Ht. reflexivity.
        -- exact Hne.
    + simpl in Hf1, Hr1. rewrite app_nil_r in Hr1.
      destruct (IH (process_block b (incr_blocks st))) as (ds & Hr & Hf & Hl & Hne).
      { rewrite Hf1. exact Hcum. }
      exists ds. split; [|split; [|split]].
      * rewrite Hr, Hr1. reflexivity.
      * rewrite Hf, Hf1. reflexivity.
      * rewrite Hl, Hf1. simpl. rewrite Hb. reflexivity.
      * exact Hne.
Qed.

(** A block whose text is longer than the watermark: the loop body reads the
    clock twice, for the diagnostic sample and for the chunk it sends. *)
Lemma process_block_grows b t st :
  block_text b = Some t -> (length (fullText st) < length t)%nat ->
  let st' := process_block b (incr_blocks st) in
  fullText st' = t
  /\ res st' = res st ++ [delta_write (slice_from t (length (fullText st)),
                                       Date_now (S (ticks st)) / 1000)]
  /\ ticks st' = S (S (ticks st)).
Proof.
  intros Hb Hlt. cbv zeta.
  destruct (process_block_incr_blocks b st) as [Hf1 Hr1].
  destruct (process_block_text b st) as [Hf2 Hr2].
  rewrite Hb in Hf2, Hr2. simpl in Hf2, Hr2.
  destruct (Nat.ltb_spec (length (fullText st)) (length t)) as [_|Hge]; [|lia].
  split; [congruence|]. split; [congruence|].
  unfold block_text in Hb.
  destruct (block_payload b) as [payload|] eqn:Hp; [|discriminate].
  cbn [mbind option_bind] in Hb.
  destruct (JSON_parse payload) as [obj|] eqn:Ho; [|discriminate].
  cbn [mbind option_bind] in Hb.
  rewrite (process_block_parsed b payload obj _ Hp Ho), Hb.
  destruct (sampled_fields payload obj (incr_blocks st)) as (Hf & _ & Ht & _).
  destruct (advance_fields (Some t) (sampled payload obj (incr_blocks st)))
    as (_ & _ & Ht' & _).
  rewrite Ht', Hf, Ht. simpl.
  destruct (Nat.ltb_spec (length (fullText st)) (length t)) as [_|Hge]; [reflexivity|lia].
Qed.

Lemma finish_res st :
  res (finish st)
  = res st ++ (delta_write <$> hint_writes st)
    ++ [Write (sse_frame (stop_chunk (Date_now (ticks st + length (hint_writes st)) / 1000)));
        Write DONE_frame; End].
Proof.
  unfold finish, hint_writes. destruct (fullText st); [destruct EMPTY_RESPONSE_HINT|];
    simpl; repeat rewrite <- List.app_assoc; simpl;
    rewrite ?Nat.add_0_r, ?Nat.add_1_r; reflexivity.
Qed.

Lemma after_reads_fields ending st :
  res (after_reads ending st) = res st
  /\ fullText (after_reads ending st) = fullText st
  /\ ticks (after_reads ending st) = ticks st.
Proof. destruct ending; repeat split; reflexivity. Qed.

(** The writes of the scenario of three cumulative texts, in the terms of
    [sendDelta] and [sendStop]. *)
Lemma scenario_writes r t0 chunks rest b1 b2 b3 ending :
  is_block b1 -> is_block b2 -> is_block b3 ->
  block_text b1 = Some (js "Hi") ->
  block_text b2 = Some (js "Hi there") ->
  block_text b3 = Some (js "Hi there!") ->
  concat chunks = frames [b1; b2; b3] ++ rest -> indexOf blank_line rest = None ->
  res (stream_phase r t0 chunks ending)
  = [delta_write (js "Hi", Date_now (t0 + 1) / 1000);
     delta_write (js " there", Date_now (t0 + 3) / 1000);
     delta_write (js "!", Date_now (t0 + 5) / 1000);
     Write (sse_frame (stop_chunk (Date_now (t0 + 6) / 1000)));
     Write DONE_frame;
     End].
Proof.
  intros Hb1 Hb2 Hb3 Ht1 Ht2 Ht3 Hcat Hrest.
  unfold stream_phase, stream_loop.
  rewrite (chunks_as_blocks chunks [b1; b2; b3] rest) by (auto; reflexivity).
  set (st0 := log "info" "stream.start" (stream_init r t0)).
  unfold feed. cbn [foldl].
  destruct (process_block_grows b1 _ st0 Ht1) as (Hf1 & Hr1 & Hk1); [simpl; lia|].
  set (st1 := process_block b1 (incr_blocks st0)) in *.
  destruct (process_block_grows b2 _ st1 Ht2) as (Hf2 & Hr2 & Hk2);
    [rewrite Hf1; simpl; lia|].
  set (st2 := process_block b2 (incr_blocks st1)) in *.
  destruct (process_block_grows b3 _ st2 Ht3) as (Hf3 & Hr3 & Hk3);
    [rewrite Hf2; simpl; lia|].
  set (st3 := process_block b3 (incr_blocks st2)) in *.
  rewrite finish_res.
  destruct (after_reads_fields ending (set_carry rest st3)) as (Hr & Hf & Hk).
  unfold hint_writes. rewrite Hr, Hf, Hk.
  change (fullText (set_carry rest st3)) with (fullText st3).
  change (res (set_carry rest st3)) with (res st3).
  change (ticks (set_carry rest st3)) with (ticks st3).
  rewrite Hf3, Hr3, Hr2, Hr1, Hk3, Hk2, Hk1, Hf2, Hf1.
  change (ticks st0) with t0. change (res st0) with (@nil res_op).
  change (fullText st0) with (@nil code_unit).
  replace (t0 + 1)%nat with (S t0) by lia.
  replace (t0 + 3)%nat with (S (S (S t0))) by lia.
  replace (t0 + 5)%nat with (S (S (S (S (S t0))))) by lia.
  replace (t0 + 6)%nat with (S (S (S (S (S (S t0)))))) by lia.
  simpl. rewrite Nat.add_0_r. reflexivity.
Qed.

(** C1. Upstream events reporting the cumulative texts "Hi", "Hi there",
    "Hi there!" (however their text is cut into chunks) make the gateway
    write, each as a frame [data: <JSON>] closed by a blank line, the
    [chat.completion.chunk] objects whose delta has the content "Hi", then
    " there", then "!", each with a null finish_reason, then one such object
    with an empty delta and finish_reason "stop", then the marker
    [data: [DONE]], and end the response. *)
Theorem cumulative_scenario_deltas r t0 chunks rest b1 b2 b3 ending :
  is_block b1 -> is_block b2 -> is_block b3 ->
  block_text b1 = Some (js "Hi") ->
  block_text b2 = Some (js "Hi there") ->
  block_text b3 = Some (js "Hi there!") ->
  concat chunks = frames [b1; b2; b3] ++ rest -> indexOf blank_line rest = None ->
  let chunk := fun (delta finish_reason : value) (created : Z) =>
    VObj [(js "id", VStr (js "chatcmpl_" ++ ToString_opt conversationId));
          (js "object", VStr (js "chat.completion.chunk"));
          (js "created", num created);
          (js "model", model);
          (js "choices",
           VArr [VObj [(js "index", num 0); (js "delta", delta);
                       (js "finish_reason", finish_reason)]])] in
  let data := fun c : value => Write (js "data: " ++ JSON_stringify c ++ [LF; LF]) in
  let content := fun s : jsstring => VObj [(js "content", VStr s)] in
  res (stream_phase r t0 chunks ending)
  = [data (chunk (content (js "Hi")) VNull (Date_now (t0 + 1) / 1000));
     data (chunk (content (js " there")) VNull (Date_now (t0 + 3) / 1000));
     data (chunk (content (js "!")) VNull (Date_now (t0 + 5) / 1000));
     data (chunk (VObj []) (VStr (js "stop")) (Date_now (t0 + 6) / 1000));
     Write (js "data: [DONE]" ++ [LF; LF]);
     End].
Proof.
  intros Hb1 Hb2 Hb3 Ht1 Ht2 Ht3 Hcat Hrest. cbv zeta.
  exact (scenario_writes r t0 chunks rest b1 b2 b3 ending Hb1 Hb2 Hb3 Ht1 Ht2 Ht3 Hcat Hrest).
Qed.

(** C2. An event whose text equals the watermark sends nothing and leaves
    the watermark as it is; hence an event processed a second time, right
    after the first, sends nothing: of two copies of an event at most the
    first yields a delta. *)
Theorem watermark_idempotent b t st :
  block_text b = Some t ->
  (fullText st = t ->
     res (process_block b st) = res st /\ fullText (process_block b st) = fullText st)
  /\ (let st1 := process_block b st in
      res (process_block b st1) = res st1 /\ fullText (process_block b st1) = fullText st1).
Proof.
  intros Hb. split.
  - intros Hw. destruct (process_block_text b st) as [Hf Hr].
    rewrite Hb in Hf, Hr. rewrite Hw in Hf, Hr.
    rewrite Nat.ltb_irrefl in Hf, Hr. rewrite app_nil_r in Hr. rewrite Hf, Hr, Hw.
    split; reflexivity.
  - cbv zeta. destruct (process_block_text b st) as [Hf _].
    destruct (process_block_text b (process_block b st)) as [Hf' Hr'].
    rewrite Hb in Hf, Hf', Hr'.
    assert (Hge : (length (fullText (process_block b st)) <? length t)%nat = false).
    { rewrite Hf. apply Nat.ltb_ge.
      destruct (Nat.ltb_spec (length (fullText st)) (length t)); simpl; lia. }
    rewrite Hge in Hf', Hr'. rewrite app_nil_r in Hr'. split; assumption.
Qed.

(** C4. A block whose payload is not empty and not JSON adds exactly one to
    [jsonFail], writes nothing, changes nothing else, and the loop goes on
    with the text that follows the block. *)
Theorem malformed_block_counted_and_skipped b payload st :
  block_payload b = Some payload -> JSON_parse payload = None ->
  process_block b st = incr_jsonFail st
  /\ jsonFail (process_block b st) = S (jsonFail st)
  /\ res (process_block b st) = res st
  /\ (forall rest, is_block b -> carry st = b ++ blank_line ++ rest ->
        drain st = drain (incr_jsonFail (incr_blocks (set_carry rest st)))).
Proof.
  intros Hp Ho.
  assert (Heq : forall s, process_block b s = incr_jsonFail s).
  { intros s. unfold process_block. rewrite Hp, Ho. reflexivity. }
  rewrite Heq. repeat split.
  intros rest Hb Hc. rewrite (drain_block b rest st Hb Hc), Heq. reflexivity.
Qed.

(** The writes of the loop for cumulative texts, in the terms of
    [sendDelta]. *)
Lemma cumulative_writes r t chunks bs rest :
  Forall is_block bs -> concat chunks = frames bs ++ rest ->
  indexOf blank_line rest = None ->
  cumulative [] (omap block_text bs) ->
  exists deltas : list (jsstring * Z),
    res (stream_loop r t chunks) = delta_write <$> deltas
    /\ concat (deltas.*1) = default [] (last (omap block_text bs))
    /\ Forall (fun d => d.1 <> []) deltas.
Proof.
  intros Hbs Hcat Hrest Hcum. unfold stream_loop.
  rewrite (chunks_as_blocks chunks bs rest) by (auto; reflexivity).
  destruct (feed_cumulative bs (log "info" "stream.start" (stream_init r t)) Hcum)
    as (ds & Hr & Hf & Hl & Hne).
  exists ds. split; [exact Hr|]. split; [|exact Hne].
  rewrite Hf in Hl. exact Hl.
Qed.

(** C3. For events whose texts are cumulative, each one extending the one
    before it (so that lengths do not decrease), everything the loop writes
    is a frame [data: <JSON>] of a [chat.completion.chunk] object with a null
    finish_reason, no delta content is empty, and the delta contents
    concatenated are the text of the last event. *)
Theorem cumulative_deltas_concat r t chunks bs rest :
  Forall is_block bs -> concat chunks = frames bs ++ rest ->
  indexOf blank_line rest = None ->
  cumulative [] (omap block_text bs) ->
  let chunk := fun (delta finish_reason : value) (created : Z) =>
    VObj [(js "id", VStr (js "chatcmpl_" ++ ToString_opt conversationId));
          (js "object", VStr (js "chat.completion.chunk"));
          (js "created", num created);
          (js "model", model);
          (js "choices",
           VArr [VObj [(js "index", num 0); (js "delta", delta);
                       (js "finish_reason", finish_reason)]])] in
  let data := fun c : value => Write (js "data: " ++ JSON_stringify c ++ [LF; LF]) in
  let content := fun s : jsstring => VObj [(js "content", VStr s)] in
  exists deltas : list (jsstring * Z),
    res (stream_loop r t chunks) = (fun d => data (chunk (content d.1) VNull d.2)) <$> deltas
    /\ concat (deltas.*1) = default [] (last (omap block_text bs))
    /\ Forall (fun d => d.1 <> []) deltas.
Proof.
  intros Hbs Hcat Hrest Hcum. cbv zeta.
  exact (cumulative_writes r t chunks bs rest Hbs Hcat Hrest Hcum).
Qed.

Lemma only_deltas_process_block b st :
  only_deltas (res st) -> only_deltas (res (process_block b st)).
Proof.
  intros [ds Hds]. destruct (process_block_text b st) as [_ Hr]. rewrite Hr, Hds.
  match goal with |- context [if ?c then _ else _] => destruct c end.
  - eexists (ds ++ [_]). rewrite fmap_app. reflexivity.
  - exists ds. rewrite app_nil_r. reflexivity.
Qed.

Lemma only_deltas_drain st : only_deltas (res st) -> only_deltas (res (drain st)).
Proof.
  apply (drain_turns_ind (fun st out => only_deltas (res st) -> only_deltas (res out))).
  - auto.
  - intros st' idx _ IH Hst. apply IH. unfold next_turn.
    apply only_deltas_process_block. exact Hst.
Qed.

Lemma only_deltas_loop chunks st :
  only_deltas (res st) -> only_deltas (res (foldl on_chunk st chunks)).
Proof.
  revert st. induction chunks as [|c chunks IH]; intros st Hst; [exact Hst|].
  simpl. apply IH. unfold on_chunk. apply only_deltas_drain. exact Hst.
Qed.

(** The shape of every response, in the terms of [sendDelta] and
    [sendStop]. *)
Lemma terminated_writes r t chunks ending :
  exists (deltas : list (jsstring * Z)) (created : Z),
    res (stream_phase r t chunks ending)
    = (delta_write <$> deltas)
      ++ [Write (sse_frame (stop_chunk created)); Write DONE_frame; End].
Proof.
  unfold stream_phase. rewrite finish_res.
  destruct (after_reads_fields ending (stream_loop r t chunks)) as (-> & _ & _).
  destruct (only_deltas_loop chunks (log "info" "stream.start" (stream_init r t)))
    as [ds Hds]; [exists []; reflexivity|].
  fold (stream_loop r t chunks) in Hds. rewrite Hds.
  eexists (ds ++ hint_writes _), _.
  rewrite fmap_app, <- (assoc_L (++)). reflexivity.
Qed.

(** C5. Whatever was read and however the reading stopped, by the end of
    the stream or by an exception, the response is a run of frames
    [data: <JSON>] of [chat.completion.chunk] objects that carry a delta
    content and a null finish_reason, then exactly one such frame whose
    object has an empty delta and finish_reason "stop", then the marker
    [data: [DONE]], then the end of the response. *)
Theorem stream_always_terminated r t chunks ending :
  let chunk := fun (delta finish_reason : value) (created : Z) =>
    VObj [(js "id", VStr (js "chatcmpl_" ++ ToString_opt conversationId));
          (js "object", VStr (js "chat.completion.chunk"));
          (js "created", num created);
          (js "model", model);
          (js "choices",
           VArr [VObj [(js "index", num 0); (js "delta", delta);
                       (js "finish_reason", finish_reason)]])] in
  let data := fun c : value => Write (js "data: " ++ JSON_stringify c ++ [LF; LF]) in
  let content := fun s : jsstring => VObj [(js "content", VStr s)] in
  exists (deltas : list (jsstring * Z)) (created : Z),
    res (stream_phase r t chunks ending)
    = ((fun d => data (chunk (content d.1) VNull d.2)) <$> deltas)
      ++ [data (chunk (VObj []) (VStr (js "stop")) created);
          Write (js "data: [DONE]" ++ [LF; LF]);
          End].
Proof. cbv zeta. exact (terminated_writes r t chunks ending). Qed.
End Translation.

(** ** The diagnostic buffer *)

Lemma list_range_from_0 (l : list jsstring) (stop : Z) :
  0 <= stop -> list_range l 0 stop = take (Z.to_nat (stop + 1)) l.
Proof.
  intros Hstop. unfold list_range.
  destruct (Z.ltb_spec 0 0) as [?|_]; [lia|].
  destruct (Z.ltb_spec stop 0) as [?|_]; [lia|].
  destruct l as [|x l].
  { rewrite take_nil. destruct (_ || _); [reflexivity|]. rewrite drop_nil. apply take_nil. }
  set (len := Z.of_nat (length (x :: l))).
  assert (Hlen : 1 <= len) by (unfold len; simpl; lia).
  destruct (Z.ltb_spec (Z.min stop (len - 1)) 0) as [?|_]; [lia|].
  destruct (Z.leb_spec len 0) as [?|_]; [lia|].
  cbn [orb]. rewrite drop_0.
  destruct (Z.le_gt_cases stop (len - 1)) as [Hle|Hgt].
  - rewrite Z.min_l by lia. f_equal. lia.
  - rewrite Z.min_r by lia.
    rewrite !take_ge; [reflexivity| |]; unfold len in *; lia.
Qed.

Section DebugBuffer.
Context `{Runtime} `{Config}.

Lemma capacity_stop limit : Z.to_nat (Z.max 0 (limit - 1) + 1) = capacity limit.
Proof. unfold capacity. f_equal. lia. Qed.

Lemma capacity_pos limit : (1 <= capacity limit)%nat.
Proof. unfold capacity. lia. Qed.

Lemma last_index_limit limit :
  DEBUG_EVENT_LIMIT = Some limit -> last_index = Some (Z.max 0 (limit - 1)).
Proof. unfold last_index. intros ->. reflexivity. Qed.

Lemma last_index_none : DEBUG_EVENT_LIMIT = None -> last_index = None.
Proof. unfold last_index. intros ->. reflexivity. Qed.

Lemma pushDebugEvent_events obj r limit :
  DEBUG_EVENT_LIMIT = Some limit ->
  debug_events (pushDebugEvent obj r)
  = match r !! debug_key with
    | Some {| r_val := RString _ |} => []
    | _ => take (capacity limit) (JSON_stringify obj :: debug_events r)
    end.
Proof.
  intros Hlimit. pose proof (capacity_pos limit) as Hcap.
  unfold pushDebugEvent, with_last_index, debug_events, redis_lpush.
  rewrite (last_index_limit limit Hlimit).
  destruct (r !! debug_key) as [[[s|l] t]|] eqn:Hk.
  - rewrite Hk. reflexivity.
  - unfold redis_ltrim. rewrite lookup_insert_eq.
    rewrite list_range_from_0 by lia. rewrite capacity_stop.
    destruct (capacity limit) as [|n]; [lia|]. cbn [take].
    unfold redis_expire. rewrite lookup_insert_eq.
    destruct (3600 <=? 0) eqn:E; [discriminate|].
    rewrite lookup_insert_eq. reflexivity.
  - unfold redis_ltrim. rewrite lookup_insert_eq.
    rewrite list_range_from_0 by lia. rewrite capacity_stop.
    destruct (capacity limit) as [|n]; [lia|]. cbn [take].
    unfold redis_expire. rewrite lookup_insert_eq.
    destruct (3600 <=? 0) eqn:E; [discriminate|].
    rewrite lookup_insert_eq. reflexivity.
Qed.

(** Without a limit that Redis can read nothing is trimmed and the expiry is
    not renewed: the append is all that happens. *)
Lemma pushDebugEvent_unlimited obj r :
  DEBUG_EVENT_LIMIT = None ->
  pushDebugEvent obj r
  = match redis_lpush debug_key (JSON_stringify obj) r with
    | Ok r1 => r1
    | Throw _ => r
    end.
Proof.
  intros Hlimit. unfold pushDebugEvent, with_last_index.
  rewrite (last_index_none Hlimit). reflexivity.
Qed.
End DebugBuffer.

Section DebugBufferClaims.
Context `{Runtime} `{Config} `{Request}.

(** C6, with the capacity the trim enforces. Under a limit that is an
    integer, after an append, whatever the buffer held before, it holds at
    most [max(1, limit)] entries; it is the new entry followed by the newest
    entries it held, so what is dropped is the oldest.  Under a setting that
    is not a number the trim is refused and nothing is dropped: the buffer is
    the new entry followed by all it held.  In either case every payload that
    parses is appended, whatever text it carries. *)
Theorem debug_buffer_bounded_fifo obj r :
  (forall limit, DEBUG_EVENT_LIMIT = Some limit ->
     (length (debug_events (pushDebugEvent obj r)) <= Z.to_nat (Z.max 1 limit))%nat
     /\ (debug_key_usable r ->
         debug_events (pushDebugEvent obj r)
         = take (Z.to_nat (Z.max 1 limit)) (JSON_stringify obj :: debug_events r)))
  /\ (DEBUG_EVENT_LIMIT = None -> debug_key_usable r ->
      debug_events (pushDebugEvent obj r) = JSON_stringify obj :: debug_events r)
  /\ (forall b payload parsed st,
        block_payload b = Some payload -> JSON_parse payload = Some parsed ->
        redis (process_block b st)
        = pushDebugEvent (debug_sample (Date_now (ticks st)) payload) (redis st)).
Proof.
  split; [|split].
  - intros limit Hlimit. fold (capacity limit).
    rewrite (pushDebugEvent_events obj r limit Hlimit). unfold debug_key_usable.
    split.
    + destruct (r !! debug_key) as [[[s|l] t]|]; simpl; try lia;
        rewrite length_take; lia.
    + destruct (r !! debug_key) as [[[s|l] t]|]; [intros []| |]; reflexivity.
  - intros Hlimit. rewrite (pushDebugEvent_unlimited obj r Hlimit).
    unfold debug_key_usable, debug_events, redis_lpush.
    destruct (r !! debug_key) as [[[s|l] t]|] eqn:Hk; [intros []| |];
      intros _; rewrite lookup_insert_eq; reflexivity.
  - intros b payload parsed st Hp Ho.
    rewrite (process_block_parsed b payload parsed st Hp Ho).
    destruct (advance_fields (extractBestTextFromEvent parsed prompt)
                (sampled payload parsed st)) as (_ & _ & _ & _ & _ & ->).
    apply sampled_fields.
Qed.
End DebugBufferClaims.

(** ** Account resolution *)

Section AccountResolution.
Context `{Runtime}.

Lemma getUserContext_key req k :
  x_user_key req = Some k -> (10 < length k)%nat ->
  getUserContext req = Some (CtxUserKey k).
Proof.
  intros Hk Hlen. unfold getUserContext. rewrite Hk.
  destruct (Nat.ltb_spec 10 (length k)); [reflexivity|lia].
Qed.

Lemma getUserContext_no_key req :
  no_usable_key req -> getUserContext req = session_context req.
Proof.
  intros Hno. unfold getUserContext, no_usable_key in *.
  destruct (x_user_key req) as [k|]; [|reflexivity].
  specialize (Hno k eq_refl). destruct (Nat.ltb_spec 10 (length k)); [lia|reflexivity].
Qed.

(** C7, with the length test as the code makes it. A key longer than ten
    code units decides alone, the session is not looked at: the request is
    rejected with 401 when that key resolves to no stored account.  A request
    with no such key is resolved by its session, and rejected with 401 when it
    has none. *)
Theorem account_resolution req r :
  (forall k, x_user_key req = Some k -> (10 < length k)%nat ->
     resolve_account req r
     = resolve_account {| x_user_key := Some k; session_account := None |} r
     /\ (getAccountByUserKey k r = Ok None ->
         resolve_account req r = Rejected 401 (js "Invalid X-User-Key or expired.")))
  /\ (no_usable_key req ->
      (session_context req = None ->
       resolve_account req r = Rejected 401 (js "No user context. Use X-User-Key."))
      /\ (forall account, session_context req = Some (CtxSession account) ->
            resolve_account req r = Resolved account)).
Proof.
  split.
  - intros k Hk Hlen. unfold resolve_account.
    rewrite (getUserContext_key req k Hk Hlen).
    rewrite (getUserContext_key {| x_user_key := Some k; session_account := None |} k eq_refl Hlen).
    split; [reflexivity|]. intros ->. reflexivity.
  - intros Hno. unfold resolve_account. rewrite (getUserContext_no_key req Hno).
    split; [intros ->; reflexivity|].
    intros account Hs. rewrite Hs.
    unfold session_context in Hs.
    destruct (session_account req) as [a|]; [|discriminate].
    destruct (truthy_opt (get_prop a (js "homeAccountId"))) eqn:Ht; [|discriminate].
    injection Hs as <-. destruct a; try discriminate. reflexivity.
Qed.

(** A key with no [userkey:] entry resolves to nothing. *)
Lemma getAccountByUserKey_unknown k r :
  r !! (js "userkey:" ++ k) = None -> getAccountByUserKey k r = Ok None.
Proof.
  intros Hk. destruct k as [|u k]; [reflexivity|].
  unfold getAccountByUserKey, redis_get.
  match goal with |- context [r !! ?x] =>
    replace (r !! x) with (@None redis_entry) by (symmetry; exact Hk) end.
  reflexivity.
Qed.
End AccountResolution.

(** ** Token acquisition *)

Section TokenAcquisition.
Context `{Runtime} `{MsalClient}.

(** C8. Whenever [acquireAccessToken] returns a token, the store it leaves
    holds, under the account's [msal:] key and for seven days, the
    serialization of the token cache as the silent acquisition left it. *)
Theorem token_cache_persisted account w token w' :
  acquireAccessToken account w = (Ok token, w') ->
  w_redis w' !! msal_key (get_prop account (js "homeAccountId"))
  = Some {| r_val := RString (msal_serialize (w_msal w')); r_ttl := Some 604800 |}
  /\ exists cache res,
       msal_acquireTokenSilent account cache = (Ok res, w_msal w')
       /\ token = accessToken res.
Proof.
  unfold acquireAccessToken, loadMsalCache, saveMsalCache, redis_set.
  set (home := get_prop account (js "homeAccountId")).
  destruct (redis_get (msal_key home) (w_redis w)) as [cached|e]; [|discriminate].
  match goal with |- context [match ?l with Ok _ => _ | Throw _ => _ end = _] =>
    destruct l as [c1|e] end; [|discriminate].
  destruct (msal_acquireTokenSilent account c1) as [[res|e] c2] eqn:Hsilent; [|discriminate].
  change (60 * 60 * 24 * 7 <=? 0) with false. cbn iota.
  intros Heq. injection Heq as <- <-. simpl. split.
  - apply lookup_insert_eq.
  - exists c1, res. split; [exact Hsilent|reflexivity].
Qed.
End TokenAcquisition.

(** ** Device-code onboarding *)

Section DeviceFlowClaims.
Context `{Runtime} `{MsalClient}.

Lemma redisGetJson_stored (key : jsstring) (v : value) (ttl : option Z) (r : store) :
  json_faithful v ->
  r !! key = Some {| r_val := RString (JSON_stringify v); r_ttl := ttl |} ->
  redisGetJson key r = Ok (Some v).
Proof.
  intros [Hne Hparse] Hk. unfold redisGetJson, redis_get.
  match goal with |- context [r !! ?x] =>
    replace (r !! x) with (Some {| r_val := RString (JSON_stringify v); r_ttl := ttl |})
      by (symmetry; exact Hk) end.
  destruct (JSON_stringify v) eqn:Hs; [congruence|]. rewrite Hparse. reflexivity.
Qed.

Lemma redisSetJson_ok (key : jsstring) (v : value) (ttl : Z) (r : store) :
  0 <= ttl ->
  exists t, redisSetJson key v (Some ttl) r
            = Ok (<[key := {| r_val := RString (JSON_stringify v); r_ttl := t |}]> r).
Proof.
  intros Httl. unfold redisSetJson, redis_set.
  destruct (Z.eqb_spec ttl 0) as [->|Hnz]; [eexists; reflexivity|].
  destruct (Z.leb_spec ttl 0) as [?|_]; [lia|]. eexists; reflexivity.
Qed.

Lemma device_status_stored (txId : jsstring) (v : value) (ttl : option Z) (r : store) :
  json_faithful v -> truthy v = true ->
  r !! devtx_key txId = Some {| r_val := RString (JSON_stringify v); r_ttl := ttl |} ->
  device_status txId r = Ok {| status := 200; body := v |}.
Proof.
  intros Hv Ht Hk. unfold device_status.
  rewrite (redisGetJson_stored _ v ttl r Hv Hk), Ht. reflexivity.
Qed.

Lemma devtx_key_fresh (p : string) (x txId : jsstring) :
  (p = "msal:" \/ p = "account:" \/ p = "userkey:")%string ->
  js p ++ x <> devtx_key txId.
Proof. intros [->|[->| ->]] E; vm_compute in E; discriminate. Qed.

(** C9. While the transaction is pending, the status route answers with
    the stored record: status "pending" with the user code and the
    verification URI.  Once the provider has completed the flow for an
    account, it answers with the record completed: status "complete" with
    the key minted for the account. *)
Theorem device_flow_status txId createdAt response userKey completedAt res account r0 :
  let info := deviceInfo txId createdAt response in
  let done := completed_record info userKey completedAt in
  0 <= expiresIn response ->
  json_faithful info -> json_faithful done ->
  result_account res = Some account ->
  truthy_opt (get_prop account (js "homeAccountId")) = true ->
  exists r1,
    device_pending txId createdAt response r0 = Ok (r1, {| status := 200; body := info |})
    /\ device_status txId r1 = Ok {| status := 200; body := info |}
    /\ get_prop info (js "status") = Some (VStr (js "pending"))
    /\ get_prop info (js "user_code") = Some (VStr (userCode response))
    /\ get_prop info (js "verification_uri") = Some (VStr (verificationUri response))
    /\ forall w : world,
         w_redis w !! devtx_key txId = r1 !! devtx_key txId ->
         exists r2,
           device_settled txId userKey completedAt (Ok res) w = Ok r2
           /\ device_status txId r2 = Ok {| status := 200; body := done |}
           /\ get_prop done (js "status") = Some (VStr (js "complete"))
           /\ get_prop done (js "user_key") = Some (VStr userKey).
Proof.
  intros info done Hexp Hinfo Hdone Hacc Hhome.
  destruct (redisSetJson_ok (devtx_key txId) info (expiresIn response) r0 Hexp) as [t Hset].
  eexists. unfold device_pending. fold info. rewrite Hset.
  split; [reflexivity|]. split.
  { apply (device_status_stored txId info t); [exact Hinfo|reflexivity|].
    apply lookup_insert_eq. }
  split; [reflexivity|]. split; [reflexivity|]. split; [reflexivity|].
  intros w Hw. rewrite lookup_insert_eq in Hw.
  set (home := get_prop account (js "homeAccountId")) in *.
  unfold device_settled, device_succeeded. rewrite Hacc.
  cbn [get_prop_opt mbind option_bind]. fold home. rewrite Hhome.
  unfold saveMsalCache, redisSetJson, redis_set.
  change (60 * 60 * 24 * 7 <=? 0) with false.
  change (60 * 60 * 24 * 30 <=? 0) with false.
  change (60 * 60 * 24 =? 0) with false.
  change (60 * 60 * 24 <=? 0) with false. cbn iota.
  match goal with |- context [stored_or_fresh txId ?r] => set (r3 := r) end.
  assert (Hr3 : r3 !! devtx_key txId
                = Some {| r_val := RString (JSON_stringify info); r_ttl := t |}).
  { unfold r3. rewrite !lookup_insert_ne; [exact Hw| | |];
      apply devtx_key_fresh; auto. }
  unfold stored_or_fresh.
  rewrite (redisGetJson_stored _ info t r3 Hinfo Hr3).
  change (truthy info) with true. cbn iota.
  eexists. split; [reflexivity|]. split.
  { apply (device_status_stored txId done (Some (60 * 60 * 24))); [exact Hdone|reflexivity|].
    apply lookup_insert_eq. }
  split; reflexivity.
Qed.
End DeviceFlowClaims.

(** ** Model names *)

Lemma ascii_lower_is_ascii (s : jsstring) : is_ascii (ascii_lower s) -> is_ascii s.
Proof.
  unfold is_ascii, ascii_lower. induction s as [|u s IH]; intros Hs; [constructor|].
  rewrite fmap_cons in Hs. apply Forall_cons in Hs as [Hu Hs].
  constructor; [|exact (IH Hs)].
  unfold ascii_lower_unit in Hu.
  destruct ((65 <=? u) && (u <=? 90))%N eqn:E; [|exact Hu].
  apply andb_true_iff in E as [_ E]. apply N.leb_le in E. lia.
Qed.

Section ModelNames.
Context `{Runtime}.

Lemma normalizeMode_name name :
  normalizeMode (VStr <$> name)
  = let m := String_toLowerCase (model_name name) in
    if str_eqb m (js "gpt-5.2-fast") then Ok (js "fast")
    else if str_eqb m (js "gpt-5.2-deep") then Ok (js "deep")
    else if existsb (str_eqb m) modes then Ok m
    else Ok (js "auto").
Proof. destruct name as [[|u s]|]; reflexivity. Qed.

(** C10. For a model that is a string or is absent, [normalizeMode]
    returns one of "auto", "fast", "deep": "fast" and "deep" for the aliases
    "gpt-5.2-fast" and "gpt-5.2-deep" in any letter case, the mode itself for
    a mode name, and "auto" for every other name. *)
Theorem normalizeMode_closed name :
  lowers_ascii ->
  let m := String_toLowerCase (model_name name) in
  (exists mode, normalizeMode (VStr <$> name) = Ok mode /\ mode ∈ modes)
  /\ (ascii_lower (model_name name) = js "gpt-5.2-fast" ->
      normalizeMode (VStr <$> name) = Ok (js "fast"))
  /\ (ascii_lower (model_name name) = js "gpt-5.2-deep" ->
      normalizeMode (VStr <$> name) = Ok (js "deep"))
  /\ (m ∈ modes -> normalizeMode (VStr <$> name) = Ok m)
  /\ (m ∉ [js "gpt-5.2-fast"; js "gpt-5.2-deep"; js "auto"; js "fast"; js "deep"] ->
      normalizeMode (VStr <$> name) = Ok (js "auto")).
Proof.
  intros Hlow m. rewrite normalizeMode_name. fold m. cbv zeta.
  assert (Hex : existsb (str_eqb m) modes = true <-> m ∈ modes).
  { rewrite existsb_exists. unfold modes. split.
    - intros (x & Hx & Hm). apply str_eqb_eq in Hm as ->. apply list_elem_of_In. exact Hx.
    - intros Hm. exists m. split; [apply list_elem_of_In; exact Hm|apply str_eqb_refl]. }
  assert (Halias : forall a, is_ascii a -> ascii_lower (model_name name) = a -> m = a).
  { intros a Ha Hl. unfold m. rewrite Hlow; [exact Hl|].
    apply ascii_lower_is_ascii. rewrite Hl. exact Ha. }
  assert (Hfast : is_ascii (js "gpt-5.2-fast")) by (repeat constructor).
  assert (Hdeep : is_ascii (js "gpt-5.2-deep")) by (repeat constructor).
  split; [|split; [|split; [|split]]].
  - destruct (str_eqb m (js "gpt-5.2-fast"));
      [eexists; split; [reflexivity|unfold modes; rewrite !elem_of_cons; auto]|].
    destruct (str_eqb m (js "gpt-5.2-deep"));
      [eexists; split; [reflexivity|unfold modes; rewrite !elem_of_cons; auto]|].
    destruct (existsb (str_eqb m) modes) eqn:E.
    + eexists; split; [reflexivity|]. apply Hex. reflexivity.
    + eexists; split; [reflexivity|unfold modes; rewrite !elem_of_cons; auto].
  - intros Hl. rewrite (Halias _ Hfast Hl). reflexivity.
  - intros Hl. rewrite (Halias _ Hdeep Hl). reflexivity.
  - intros Hm. apply Hex in Hm as Hm'. rewrite Hm'.
    assert (Hm2 : m = js "auto" \/ m = js "fast" \/ m = js "deep").
    { unfold modes in Hm. rewrite !elem_of_cons, elem_of_nil in Hm. tauto. }
    destruct Hm2 as [->|[->| ->]]; reflexivity.
  - intros Hm.
    assert (H1 : str_eqb m (js "gpt-5.2-fast") = false).
    { apply not_true_is_false. intros E. apply str_eqb_eq in E. apply Hm.
      rewrite !elem_of_cons. auto. }
    assert (H2 : str_eqb m (js "gpt-5.2-deep") = false).
    { apply not_true_is_false. intros E. apply str_eqb_eq in E. apply Hm.
      rewrite !elem_of_cons. auto. }
    assert (H3 : existsb (str_eqb m) modes = false).
    { apply not_true_is_false. intros E. apply Hex in E. apply Hm.
      unfold modes in E. rewrite !elem_of_cons in *. tauto. }
    rewrite H1, H2, H3. reflexivity.
Qed.
End ModelNames.

(** ** The statements on concrete inputs

    Each example evaluates the gateway on the reference runtime. *)

Section Examples.
Import Reference.

Lemma reference_lowers_ascii : lowers_ascii.
Proof. intros s _. reflexivity. Defined.

(** The scenario of C1, its bytes cut inside the second block. *)
Lemma cumulative_scenario_witness :
  let chunk := fun (delta finish_reason : value) (created : Z) =>
    VObj [(js "id", VStr (js "chatcmpl_conv-1"));
          (js "object", VStr (js "chat.completion.chunk"));
          (js "created", num created);
          (js "model", VStr (js "auto"));
          (js "choices",
           VArr [VObj [(js "index", num 0); (js "delta", delta);
                       (js "finish_reason", finish_reason)]])] in
  let data := fun c : value => Write (js "data: " ++ JSON_stringify c ++ [LF; LF]) in
  let content := fun s : jsstring => VObj [(js "content", VStr s)] in
  res (stream_phase ∅ 0 scenario_chunks Done)
  = [data (chunk (content (js "Hi")) VNull 1700000001);
     data (chunk (content (js " there")) VNull 1700000003);
     data (chunk (content (js "!")) VNull 1700000005);
     data (chunk (VObj []) (VStr (js "stop")) 1700000006);
     Write (js "data: [DONE]" ++ [LF; LF]);
     End].
Proof.
  cbv zeta.
  refine (cumulative_scenario_deltas ∅ 0%nat scenario_chunks []
            (event "Hi") (event "Hi there") (event "Hi there!") Done _ _ _ _ _ _ _ _);
    vm_compute; reflexivity.
Defined.

(** An event replayed sends nothing the second time. *)
Lemma watermark_idempotent_witness :
  block_text (event "Hi") = Some (js "Hi")
  /\ res (process_block (event "Hi") (process_block (event "Hi") (stream_init ∅ 0)))
     = res (process_block (event "Hi") (stream_init ∅ 0)).
Proof.
  assert (Hb : block_text (event "Hi") = Some (js "Hi")) by (vm_compute; reflexivity).
  split; [exact Hb|].
  apply (proj2 (watermark_idempotent (event "Hi") (js "Hi") (stream_init ∅ 0) Hb)).
Defined.

Lemma cumulative_deltas_concat_witness :
  let chunk := fun (delta finish_reason : value) (created : Z) =>
    VObj [(js "id", VStr (js "chatcmpl_conv-1"));
          (js "object", VStr (js "chat.completion.chunk"));
          (js "created", num created);
          (js "model", VStr (js "auto"));
          (js "choices",
           VArr [VObj [(js "index", num 0); (js "delta", delta);
                       (js "finish_reason", finish_reason)]])] in
  let data := fun c : value => Write (js "data: " ++ JSON_stringify c ++ [LF; LF]) in
  let content := fun s : jsstring => VObj [(js "content", VStr s)] in
  exists deltas : list (jsstring * Z),
    res (stream_loop ∅ 0 scenario_chunks)
    = (fun d => data (chunk (content d.1) VNull d.2)) <$> deltas
    /\ concat (deltas.*1) = js "Hi there!".
Proof.
  cbv zeta.
  destruct (cumulative_deltas_concat ∅ 0%nat scenario_chunks scenario_blocks [])
    as (deltas & Hres & Hcat & _).
  - repeat constructor.
  - vm_compute; reflexivity.
  - reflexivity.
  - vm_compute. repeat split; [exists (js "Hi") | exists (js " there") | exists (js "!")];
      reflexivity.
  - exists deltas. split; [exact Hres|]. rewrite Hcat. vm_compute. reflexivity.
Defined.

(** A stream that breaks inside its second event: the first delta, then the
    terminal sequence. *)
Lemma stream_always_terminated_witness :
  let chunk := fun (delta finish_reason : value) (created : Z) =>
    VObj [(js "id", VStr (js "chatcmpl_conv-1"));
          (js "object", VStr (js "chat.completion.chunk"));
          (js "created", num created);
          (js "model", VStr (js "auto"));
          (js "choices",
           VArr [VObj [(js "index", num 0); (js "delta", delta);
                       (js "finish_reason", finish_reason)]])] in
  let data := fun c : value => Write (js "data: " ++ JSON_stringify c ++ [LF; LF]) in
  let content := fun s : jsstring => VObj [(js "content", VStr s)] in
  exists (deltas : list (jsstring * Z)) (created : Z),
    res (stream_phase ∅ 0 [take 50 (frames scenario_blocks)]
           (Raised (JsError (js "TypeError") (js "terminated"))))
    = ((fun d => data (chunk (content d.1) VNull d.2)) <$> deltas)
      ++ [data (chunk (VObj []) (VStr (js "stop")) created);
          Write (js "data: [DONE]" ++ [LF; LF]);
          End].
Proof.
  cbv zeta.
  exact (stream_always_terminated ∅ 0%nat [take 50 (frames scenario_blocks)]
           (Raised (JsError (js "TypeError") (js "terminated")))).
Defined.

(** A malformed block is counted and the block after it is translated. *)
Lemma malformed_block_witness :
  jsonFail (process_block malformed_block malformed_stream) = S (jsonFail malformed_stream)
  /\ res (process_block malformed_block malformed_stream) = res malformed_stream
  /\ drain malformed_stream
     = drain (incr_jsonFail (incr_blocks (set_carry (event "Hi" ++ blank_line) malformed_stream))).
Proof.
  destruct (malformed_block_counted_and_skipped malformed_block (js "{oops") malformed_stream)
    as (_ & Hfail & Hres & Hgo); [vm_compute; reflexivity | vm_compute; reflexivity |].
  split; [exact Hfail|]. split; [exact Hres|].
  apply Hgo; vm_compute; reflexivity.
Defined.

(** The bound of C6 is not [DEBUG_EVENT_LIMIT] itself: with
    [DEBUG_EVENT_LIMIT=0] one append leaves one entry in the buffer. *)
Lemma zero_capacity_counterexample :
  @DEBUG_EVENT_LIMIT zero_capacity = Some 0
  /\ ~ (Z.of_nat (length (debug_events (@pushDebugEvent runtime zero_capacity VNull ∅))) <= 0).
Proof. split; [reflexivity|]. intros Hle. vm_compute in Hle. apply Hle. reflexivity. Qed.

Lemma debug_buffer_witness :
  debug_events (pushDebugEvent VNull ∅) = [js "null"]
  /\ debug_events (@pushDebugEvent runtime no_capacity VNull (pushDebugEvent VNull ∅))
     = [js "null"; js "null"]
  /\ redis (process_block (event "Hi") (stream_init ∅ 0))
     = pushDebugEvent (debug_sample (Date_now 0) (drop 6 (event "Hi"))) ∅.
Proof.
  destruct (debug_buffer_bounded_fifo VNull ∅) as (Hfifo & _ & Hpush).
  destruct (@debug_buffer_bounded_fifo runtime no_capacity chat VNull (pushDebugEvent VNull ∅))
    as (_ & Hgrows & _).
  split; [|split].
  - rewrite (proj2 (Hfifo 50 eq_refl)); [reflexivity|]. vm_compute. exact I.
  - rewrite Hgrows; [vm_compute; reflexivity | reflexivity | vm_compute; exact I].
  - apply (Hpush (event "Hi") (drop 6 (event "Hi"))
             (VObj [(js "messages", VArr [VObj [(js "text", VStr (js "Hi"))]])]));
      vm_compute; reflexivity.
Defined.

(** A malformed key does not always give 401, as C7 has it: a key of nine
    code units sent along with a session is passed over and the session
    resolves the request. *)
Lemma short_key_with_session_counterexample :
  x_user_key short_key_request = Some (js "short-key")
  /\ (length (js "short-key") <= 10)%nat
  /\ ~ (exists msg, resolve_account short_key_request ∅ = Rejected 401 msg).
Proof.
  split; [reflexivity|]. split; [vm_compute; lia|].
  intros [msg Hrej]. vm_compute in Hrej. discriminate Hrej.
Qed.

Lemma account_resolution_witness :
  resolve_account unknown_key_request ∅ = Rejected 401 (js "Invalid X-User-Key or expired.")
  /\ resolve_account short_key_request ∅ = Resolved (session_of "home-1").
Proof.
  split.
  - apply (proj1 (account_resolution unknown_key_request ∅) (js "0123456789abcdef"));
      [reflexivity | vm_compute; lia | vm_compute; reflexivity].
  - apply (proj2 (account_resolution short_key_request ∅)).
    + intros k Hk. injection Hk as <-. vm_compute. lia.
    + vm_compute. reflexivity.
Defined.

Lemma token_cache_persisted_witness :
  acquireAccessToken (session_of "home-1") start_world
  = (Ok (js "token:home-1"), (acquireAccessToken (session_of "home-1") start_world).2)
  /\ w_redis (acquireAccessToken (session_of "home-1") start_world).2
       !! msal_key (get_prop (session_of "home-1") (js "homeAccountId"))
     = Some {| r_val := RString (msal_serialize
                                   (w_msal (acquireAccessToken (session_of "home-1") start_world).2));
               r_ttl := Some 604800 |}.
Proof.
  assert (Hok : acquireAccessToken (session_of "home-1") start_world
                = (Ok (js "token:home-1"),
                   (acquireAccessToken (session_of "home-1") start_world).2))
    by (vm_compute; reflexivity).
  split; [exact Hok|].
  apply (proj1 (token_cache_persisted _ _ _ _ Hok)).
Defined.

Lemma device_flow_status_witness :
  exists r1 r2,
    device_status (js "tx-1") r1
    = Ok {| status := 200; body := deviceInfo (js "tx-1") 1700000000000 device_response |}
    /\ device_settled (js "tx-1") (js "k3y-0123456789abcdef") 1700000060000 (Ok device_result)
         {| w_redis := r1; w_msal := js "cache+" |} = Ok r2
    /\ device_status (js "tx-1") r2
       = Ok {| status := 200;
               body := completed_record (deviceInfo (js "tx-1") 1700000000000 device_response)
                         (js "k3y-0123456789abcdef") 1700000060000 |}.
Proof.
  destruct (device_flow_status (js "tx-1") 1700000000000 device_response
              (js "k3y-0123456789abcdef") 1700000060000 device_result
              (session_of "home-1") ∅)
    as (r1 & _ & Hpending & _ & _ & _ & Hsettled).
  - vm_compute. discriminate.
  - split; [vm_compute; discriminate | vm_compute; reflexivity].
  - split; [vm_compute; discriminate | vm_compute; reflexivity].
  - reflexivity.
  - reflexivity.
  - destruct (Hsettled (@Build_world msal r1 (js "cache+")) eq_refl)
      as (r2 & Hr2 & Hdone & _).
    exists r1, r2. split; [exact Hpending|]. split; [exact Hr2|exact Hdone].
Defined.

Lemma normalizeMode_closed_witness :
  normalizeMode (Some (VStr (js "GPT-5.2-Fast"))) = Ok (js "fast")
  /\ normalizeMode (Some (VStr (js "Deep"))) = Ok (js "deep")
  /\ normalizeMode (Some (VStr (js "gpt-4o"))) = Ok (js "auto")
  /\ normalizeMode None = Ok (js "auto").
Proof.
  pose proof (normalizeMode_closed (Some (js "GPT-5.2-Fast")) reference_lowers_ascii) as Hfast.
  pose proof (normalizeMode_closed (Some (js "Deep")) reference_lowers_ascii) as Hdeep.
  pose proof (normalizeMode_closed (Some (js "gpt-4o")) reference_lowers_ascii) as Hother.
  pose proof (normalizeMode_closed None reference_lowers_ascii) as Habsent.
  cbv zeta in Hfast, Hdeep, Hother, Habsent.
  destruct Hfast as (_ & Hfast & _), Hdeep as (_ & _ & _ & Hdeep & _),
           Hother as (_ & _ & _ & _ & Hother), Habsent as (_ & _ & _ & Habsent & _).
  split; [|split; [|split]].
  - apply Hfast. vm_compute. reflexivity.
  - apply Hdeep. change (js "deep" ∈ modes). unfold modes. rewrite !elem_of_cons. auto.
  - apply Hother.
    change (js "gpt-4o" ∉ [js "gpt-5.2-fast"; js "gpt-5.2-deep"; js "auto"; js "fast"; js "deep"]).
    rewrite !not_elem_of_cons. repeat split; try (vm_compute; discriminate).
    apply not_elem_of_nil.
  - apply Habsent. change (js "auto" ∈ modes). unfold modes. rewrite !elem_of_cons. auto.
Defined.
End Examples.

(** * Further properties of the code *)

(** ** The streaming loop as a whole *)

Section StreamLoop.
Context `{Runtime} `{Config} `{Request}.

Lemma stream_loop_drain r t chunks :
  stream_loop r t chunks
  = drain (set_carry (concat chunks) (log "info" "stream.start" (stream_init r t))).
Proof.
  unfold stream_loop.
  rewrite <- (drain_stop (log "info" "stream.start" (stream_init r t))) at 1 by reflexivity.
  rewrite foldl_on_chunk. reflexivity.
Qed.

Lemma stream_phase_concat r t chunks chunks' ending :
  concat chunks = concat chunks' ->
  stream_phase r t chunks ending = stream_phase r t chunks' ending.
Proof.
  intros Hcat. unfold stream_phase. rewrite !stream_loop_drain, Hcat. reflexivity.
Qed.

(** X1. The translation depends on the text decoded from the reads, not on
    how it falls into chunks: two sequences of decoded chunks with the same
    concatenation leave the same state and the same response. *)
Theorem chunk_boundaries_irrelevant r t chunks chunks' ending :
  concat chunks = concat chunks' ->
  stream_phase r t chunks ending = stream_phase r t chunks' ending.
Proof. apply stream_phase_concat. Qed.

(** The three ways the loop body can go. *)
Lemma process_block_cases b st :
  (block_payload b = None /\ process_block b st = st)
  \/ (is_malformed b = true /\ process_block b st = incr_jsonFail st)
  \/ (exists payload obj,
        is_malformed b = false
        /\ process_block b st
           = advance (extractBestTextFromEvent obj prompt) (sampled payload obj st)).
Proof.
  unfold is_malformed, process_block.
  destruct (block_payload b) as [payload|]; [|left; split; reflexivity].
  destruct (JSON_parse payload) as [obj|]; right.
  - right. exists payload, obj. split; reflexivity.
  - left. split; reflexivity.
Qed.

Lemma grows_refl st : grows st st.
Proof. repeat split; reflexivity. Qed.

Lemma grows_trans st1 st2 st3 : grows st1 st2 -> grows st2 st3 -> grows st1 st3.
Proof.
  intros (Hr & Hf & Hb & Hj) (Hr' & Hf' & Hb' & Hj').
  repeat split; [etrans; eassumption|lia..].
Qed.

Lemma grows_advance text st : grows st (advance text st).
Proof.
  destruct (advance_fields text st) as (Hf & Hr & _ & Hj & Hb & _).
  unfold grows. rewrite Hf, Hr, Hj, Hb.
  split; [apply prefix_app_r; reflexivity|]. repeat split; try lia.
  destruct text as [t|]; [|lia].
  destruct (Nat.ltb_spec (length (fullText st)) (length t)); simpl; lia.
Qed.

Lemma grows_process_block b st : grows st (process_block b st).
Proof.
  destruct (process_block_cases b st) as [[_ ->]|[[_ ->]|(payload & obj & _ & ->)]].
  - apply grows_refl.
  - repeat split; simpl; try reflexivity; lia.
  - eapply grows_trans; [|apply grows_advance].
    destruct (sampled_fields payload obj st) as (Hf & Hr & _ & Hj & Hb & _).
    unfold grows. rewrite Hf, Hr, Hj, Hb. repeat split; reflexivity.
Qed.

Lemma grows_drain st : grows st (drain st).
Proof.
  apply (drain_turns_ind grows).
  - intros st' _. apply grows_refl.
  - intros st' idx _ IH. eapply grows_trans; [|exact IH].
    unfold next_turn. eapply grows_trans; [|apply grows_process_block].
    repeat split; simpl; try reflexivity; lia.
Qed.

Lemma grows_on_chunk st c : grows st (on_chunk st c).
Proof.
  unfold on_chunk. eapply grows_trans; [|apply grows_drain].
  repeat split; simpl; reflexivity.
Qed.

Lemma grows_loop more st : grows st (foldl on_chunk st more).
Proof.
  revert st. induction more as [|c more IH]; intros st; [apply grows_refl|].
  simpl. eapply grows_trans; [apply grows_on_chunk|apply IH].
Qed.

(** X2. Reading more of the upstream only adds to what the loop has done:
    the response written so far is a prefix of the response after further
    chunks, the watermark is no shorter, and the counters of blocks and of
    parse failures are no smaller. *)
Theorem stream_output_only_grows r t chunks more :
  grows (stream_loop r t chunks) (stream_loop r t (chunks ++ more)).
Proof. unfold stream_loop. rewrite foldl_app. apply grows_loop. Qed.

Lemma drain_carry_suffix st : carry (drain st) `suffix_of` carry st.
Proof.
  apply (drain_turns_ind (fun st out => carry out `suffix_of` carry st)).
  - reflexivity.
  - intros st' idx _ IH. etrans; [exact IH|].
    unfold next_turn. rewrite process_block_carry. simpl. unfold slice_from.
    apply suffix_drop.
Qed.

(** X3. After any sequence of reads the buffer holds no complete block, and
    it is the tail of the text received: only the unfinished end of the stream
    stays buffered. *)
Theorem carry_is_unfinished_tail r t chunks :
  indexOf blank_line (carry (stream_loop r t chunks)) = None
  /\ carry (stream_loop r t chunks) `suffix_of` concat chunks.
Proof.
  rewrite stream_loop_drain. split; [apply drain_done|].
  apply (drain_carry_suffix
           (set_carry (concat chunks) (log "info" "stream.start" (stream_init r t)))).
Qed.

Lemma process_block_counts b st :
  blocks (process_block b st) = blocks st
  /\ jsonFail (process_block b st) = (jsonFail st + if is_malformed b then 1 else 0)%nat.
Proof.
  destruct (process_block_cases b st) as [[Hp ->]|[[Hm ->]|(payload & obj & Hm & ->)]].
  - unfold is_malformed. rewrite Hp. simpl. split; lia.
  - rewrite Hm. simpl. split; lia.
  - rewrite Hm.
    destruct (advance_fields (extractBestTextFromEvent obj prompt) (sampled payload obj st))
      as (_ & _ & _ & -> & -> & _).
    destruct (sampled_fields payload obj st) as (_ & _ & _ & -> & -> & _). split; lia.
Qed.

Lemma feed_counts bs st :
  blocks (feed bs st) = (blocks st + length bs)%nat
  /\ jsonFail (feed bs st) = (jsonFail st + length (List.filter is_malformed bs))%nat.
Proof.
  revert st. induction bs as [|b bs IH]; intros st; [simpl; split; lia|].
  rewrite feed_cons. destruct (IH (process_block b (incr_blocks st))) as [-> ->].
  destruct (process_block_counts b (incr_blocks st)) as [-> ->].
  simpl. destruct (is_malformed b); simpl; split; lia.
Qed.

(** X4. When the text received is a sequence of blocks, each closed by a
    blank line, followed by an unfinished rest, the loop has counted exactly
    those blocks, has counted as parse failures exactly the blocks whose
    payload is not JSON, and keeps exactly the rest buffered. *)
Theorem loop_counts_blocks r t chunks bs rest :
  Forall is_block bs -> concat chunks = frames bs ++ rest ->
  indexOf blank_line rest = None ->
  blocks (stream_loop r t chunks) = length bs
  /\ jsonFail (stream_loop r t chunks) = length (List.filter is_malformed bs)
  /\ carry (stream_loop r t chunks) = rest.
Proof.
  intros Hbs Hcat Hrest. unfold stream_loop.
  rewrite (chunks_as_blocks chunks bs rest) by (auto; reflexivity).
  destruct (feed_counts bs (log "info" "stream.start" (stream_init r t))) as [Hb Hj].
  change (blocks (set_carry rest ?s)) with (blocks s).
  change (jsonFail (set_carry rest ?s)) with (jsonFail s).
  rewrite Hb, Hj. repeat split.
Qed.

Lemma accounted_next_turn idx st : accounted st -> accounted (next_turn idx st).
Proof.
  unfold accounted, next_turn. intros Hst.
  set (st1 := incr_blocks (set_carry (slice_from (carry st) (idx + 2)) st)).
  assert (Hone : (length (res st1) + jsonFail st1 < blocks st1)%nat) by (simpl; lia).
  destruct (process_block_counts (slice (carry st) 0 idx) st1) as [-> ->].
  destruct (process_block_text (slice (carry st) 0 idx) st1) as [_ ->].
  rewrite length_app.
  unfold is_malformed, block_text.
  destruct (block_payload (slice (carry st) 0 idx)) as [payload|]; simpl; [|lia].
  destruct (JSON_parse payload) as [obj|]; simpl; [|lia].
  match goal with |- context [if ?c then [_] else []] => destruct c end; simpl; lia.
Qed.

(** X5. Blocks account for everything the loop does: the number of chunks
    written plus the number of parse failures never exceeds the number of
    blocks cut, so no block is answered twice and no malformed block is
    answered at all. *)
Theorem deltas_and_failures_within_blocks r t chunks :
  (length (res (stream_loop r t chunks)) + jsonFail (stream_loop r t chunks)
   <= blocks (stream_loop r t chunks))%nat.
Proof.
  rewrite stream_loop_drain.
  apply (drain_turns_ind (fun st out => accounted st -> accounted out)).
  - auto.
  - intros st idx _ IH Hst. apply IH. apply accounted_next_turn. exact Hst.
  - unfold accounted. simpl. lia.
Qed.

Lemma silent_iff_empty_process_block b st :
  silent_iff_empty st -> silent_iff_empty (process_block b st).
Proof.
  unfold silent_iff_empty. intros Hst.
  destruct (process_block_text b st) as [-> ->].
  destruct (block_text b) as [t|]; simpl; [|rewrite app_nil_r; exact Hst].
  destruct (Nat.ltb_spec (length (fullText st)) (length t)) as [Hlt|_];
    [|rewrite app_nil_r; exact Hst].
  split.
  - intros Hnil. apply app_eq_nil in Hnil as [_ Hnil]. discriminate.
  - intros ->. simpl in Hlt. lia.
Qed.

Lemma silent_iff_empty_loop r t chunks : silent_iff_empty (stream_loop r t chunks).
Proof.
  rewrite stream_loop_drain.
  apply (drain_turns_ind (fun st out => silent_iff_empty st -> silent_iff_empty out)).
  - auto.
  - intros st idx _ IH Hst. apply IH. unfold next_turn.
    apply silent_iff_empty_process_block. exact Hst.
  - split; reflexivity.
Qed.

Lemma advisory_writes r t chunks ending :
  exists created,
    res (stream_phase r t chunks ending)
    = match res (stream_loop r t chunks) with
      | [] => if EMPTY_RESPONSE_HINT
              then [delta_write (EMPTY_HINT, Date_now (ticks (stream_loop r t chunks)) / 1000)]
              else []
      | sent => sent
      end ++ [Write (sse_frame (stop_chunk created)); Write DONE_frame; End].
Proof.
  unfold stream_phase. rewrite finish_res.
  destruct (after_reads_fields ending (stream_loop r t chunks)) as (Hr & Hf & Hk).
  unfold hint_writes. rewrite Hr, Hf, Hk.
  pose proof (silent_iff_empty_loop r t chunks) as [Hsilent Hempty].
  destruct (res (stream_loop r t chunks)) as [|op ops] eqn:Hres.
  - rewrite (Hsilent eq_refl).
    destruct EMPTY_RESPONSE_HINT; eexists; reflexivity.
  - destruct (fullText (stream_loop r t chunks)) as [|u w];
      [specialize (Hempty eq_refl); discriminate|].
    eexists. reflexivity.
Qed.

(** X6. The advisory delta is sent exactly when the loop has sent nothing and
    the hint is enabled.  A stream that yields no text gets, if the hint is
    enabled, one frame [data: <JSON>] of a [chat.completion.chunk] object
    whose delta content is the advisory text, with a null finish_reason; a
    stream that yielded text gets what the loop wrote and never the advisory.
    In both cases there follow the frame of the object with an empty delta and
    finish_reason "stop", the marker [data: [DONE]] and the end of the
    response. *)
Theorem advisory_only_when_silent r t chunks ending :
  let chunk := fun (delta finish_reason : value) (created : Z) =>
    VObj [(js "id", VStr (js "chatcmpl_" ++ ToString_opt conversationId));
          (js "object", VStr (js "chat.completion.chunk"));
          (js "created", num created);
          (js "model", model);
          (js "choices",
           VArr [VObj [(js "index", num 0); (js "delta", delta);
                       (js "finish_reason", finish_reason)]])] in
  let data := fun c : value => Write (js "data: " ++ JSON_stringify c ++ [LF; LF]) in
  let content := fun s : jsstring => VObj [(js "content", VStr s)] in
  exists created,
    res (stream_phase r t chunks ending)
    = match res (stream_loop r t chunks) with
      | [] => if EMPTY_RESPONSE_HINT
              then [data (chunk (content EMPTY_HINT) VNull
                            (Date_now (ticks (stream_loop r t chunks)) / 1000))]
              else []
      | sent => sent
      end ++ [data (chunk (VObj []) (VStr (js "stop")) created);
              Write (js "data: [DONE]" ++ [LF; LF]);
              End].
Proof. cbv zeta. exact (advisory_writes r t chunks ending). Qed.
End StreamLoop.

(** ** Event blocks and the text they carry *)

Lemma trimStart_length (s : jsstring) : (length (trimStart s) <= length s)%nat.
Proof.
  induction s as [|u s IH]; simpl; [lia|]. destruct (is_js_space u); simpl; lia.
Qed.

Lemma trimStart_fixed (u : code_unit) (s : jsstring) :
  trimStart (u :: s) = u :: s -> is_js_space u = false.
Proof.
  simpl. destruct (is_js_space u); [|reflexivity]. intros Heq.
  pose proof (trimStart_length s) as Hlen. rewrite Heq in Hlen. simpl in Hlen. lia.
Qed.

Lemma trimStart_keeps (u : code_unit) (s : jsstring) :
  is_js_space u = false -> trimStart (u :: s) = u :: s.
Proof. intros Hu. simpl. rewrite Hu. reflexivity. Qed.

Lemma trimEnd_length (s : jsstring) : (length (trimEnd s) <= length s)%nat.
Proof.
  unfold trimEnd. rewrite length_rev.
  etrans; [apply trimStart_length|]. rewrite length_rev. lia.
Qed.

(** A text that [trim] leaves alone is left alone by both of its halves. *)
Lemma trim_fixed (p : jsstring) : trim p = p -> trimStart p = p /\ trimEnd p = p.
Proof.
  unfold trim. intros Hp.
  assert (Hs : trimStart p = p).
  { destruct p as [|u p]; [reflexivity|]. simpl in *.
    destruct (is_js_space u); [|reflexivity]. exfalso.
    pose proof (trimEnd_length (trimStart p)) as H1.
    pose proof (trimStart_length p) as H2.
    rewrite Hp in H1. simpl in H1. lia. }
  rewrite Hs in Hp. split; assumption.
Qed.

Lemma trimEnd_app (a p : jsstring) : p <> [] -> trimEnd p = p -> trimEnd (a ++ p) = a ++ p.
Proof.
  unfold trimEnd. intros Hne Hp.
  apply (f_equal (@rev code_unit)) in Hp. rewrite rev_involutive in Hp.
  rewrite rev_app_distr.
  destruct (rev p) as [|u q] eqn:Hq.
  { apply (f_equal (@rev code_unit)) in Hq. rewrite rev_involutive in Hq. contradiction. }
  change ((u :: q) ++ rev a) with (u :: q ++ rev a).
  rewrite (trimStart_keeps u _ (trimStart_fixed u q Hp)).
  change (u :: q ++ rev a) with ((u :: q) ++ rev a).
  rewrite <- Hq, <- rev_app_distr. apply rev_involutive.
Qed.

Lemma split_go_no_sep (sep : code_unit) (cur s : jsstring) :
  sep ∉ s -> split_go sep cur s = [rev cur ++ s].
Proof.
  revert cur. induction s as [|u s IH]; intros cur Hs; simpl.
  - rewrite app_nil_r. reflexivity.
  - apply not_elem_of_cons in Hs as [Hu Hs].
    destruct (N.eqb_spec u sep) as [->|_]; [contradiction|].
    rewrite IH by exact Hs. simpl. rewrite <- (assoc_L (++)). reflexivity.
Qed.

Lemma indexOf_blank_line_no_LF (s : jsstring) :
  LF ∉ s -> indexOf blank_line (s ++ [LF]) = None.
Proof.
  induction s as [|u s IH]; intros Hs; [reflexivity|].
  apply not_elem_of_cons in Hs as [Hu Hs].
  change ((u :: s) ++ [LF]) with (u :: s ++ [LF]). rewrite indexOf_cons.
  assert (Hp : startsWith blank_line (u :: s ++ [LF]) = false).
  { change (startsWith blank_line (u :: s ++ [LF]))
      with ((LF =? u)%N && startsWith [LF] (s ++ [LF])).
    destruct (N.eqb_spec LF u) as [E|_]; [congruence|reflexivity]. }
  rewrite Hp, IH by exact Hs. reflexivity.
Qed.

(** The payload of a one-line data block is the line after [data: ]. *)
Lemma block_payload_data_line (p : jsstring) :
  trim p = p -> p <> [] -> LF ∉ p -> block_payload (js "data: " ++ p) = Some p.
Proof.
  intros Htrim Hne HLF. destruct (trim_fixed p Htrim) as [Hs He].
  unfold block_payload, dataLines, split.
  rewrite split_go_no_sep.
  2:{ intros Hin. apply elem_of_app in Hin as [Hin|Hin]; [|contradiction].
      vm_compute in Hin. repeat (apply elem_of_cons in Hin as [Hin|Hin]; [discriminate|]).
      apply elem_of_nil in Hin. exact Hin. }
  simpl rev. rewrite app_nil_l.
  change (trimEnd <$> [js "data: " ++ p]) with [trimEnd (js "data: " ++ p)].
  rewrite (trimEnd_app _ p Hne He).
  change (js "data: " ++ p) with (100 :: 97 :: 116 :: 97 :: 58 :: 32 :: p)%N.
  cbn [List.filter startsWith N.eqb Pos.eqb andb js fmap list_fmap slice_from drop].
  change (startsWith (js "data:") (100 :: 97 :: 116 :: 97 :: 58 :: 32 :: p)%N) with true.
  cbn iota. cbn [fmap list_fmap slice_from drop].
  change (trimStart (32%N :: p)) with (trimStart p). rewrite Hs.
  cbn [join]. rewrite Htrim. destruct p; [contradiction|reflexivity].
Qed.

Section Frames.
Context `{Runtime} `{Config} `{Request}.

(** X7. The block parser reads back the frames the gateway writes: the frame
    of a chunk is one block closed by its blank line, and the payload of that
    block is the JSON text of the chunk, provided that text is what
    [JSON.stringify] gives for an object (not empty, without surrounding
    blanks, on one line). *)
Theorem frame_read_back chunk :
  trim (JSON_stringify chunk) = JSON_stringify chunk ->
  JSON_stringify chunk <> [] ->
  LF ∉ JSON_stringify chunk ->
  sse_frame chunk = frames [js "data: " ++ JSON_stringify chunk]
  /\ is_block (js "data: " ++ JSON_stringify chunk)
  /\ block_payload (js "data: " ++ JSON_stringify chunk) = Some (JSON_stringify chunk).
Proof.
  intros Htrim Hne HLF. split; [|split].
  - unfold sse_frame, frames. cbn [fmap list_fmap concat].
    rewrite app_nil_r, (assoc_L (++)). reflexivity.
  - unfold is_block. apply indexOf_blank_line_no_LF.
    intros Hin. apply elem_of_app in Hin as [Hin|Hin]; [|contradiction].
    vm_compute in Hin. repeat (apply elem_of_cons in Hin as [Hin|Hin]; [discriminate|]).
    apply elem_of_nil in Hin. exact Hin.
  - apply block_payload_data_line; assumption.
Qed.
End Frames.

(** ** The text extracted from an event *)

Lemma elem_of_rev {A : Type} (x : A) (l : list A) : x ∈ rev l -> x ∈ l.
Proof. rewrite !list_elem_of_In. apply in_rev. Qed.

Lemma elem_of_rev_2 {A : Type} (x : A) (l : list A) : x ∈ l -> x ∈ rev l.
Proof. rewrite !list_elem_of_In. apply in_rev. Qed.

Lemma nonempty_text_spec (m : value) (t : jsstring) :
  nonempty_text m = Some t -> extractTextFromMessage m = Some t /\ t <> [].
Proof.
  unfold nonempty_text. destruct (extractTextFromMessage m) as [[|u s]|]; try discriminate.
  intros Heq. injection Heq as <-. split; [reflexivity|discriminate].
Qed.

Lemma last_text_spec (l : list value) (t : jsstring) :
  last_text l = Some t -> exists m, m ∈ l /\ nonempty_text m = Some t.
Proof.
  induction l as [|m l IH]; [discriminate|]. simpl.
  destruct (nonempty_text m) as [t'|] eqn:Hm.
  - intros Heq. injection Heq as <-. exists m. split; [left|exact Hm].
  - intros Hl. destruct (IH Hl) as (m' & Hin & Hm'). exists m'. split; [right; exact Hin|exact Hm'].
Qed.

Lemma last_not_echo_spec (echo : jsstring) (l : list value) (t : jsstring) :
  last_not_echo echo l = Some t ->
  not_echo echo t /\ exists m, m ∈ l /\ nonempty_text m = Some t.
Proof.
  induction l as [|m l IH]; [discriminate|]. simpl.
  destruct (nonempty_text m) as [t'|] eqn:Hm.
  - destruct (negb (str_eqb echo []) && str_eqb (trim t') (trim echo)) eqn:Hecho.
    + intros Hl. destruct (IH Hl) as (Hne & m' & Hin & Hm').
      split; [exact Hne|]. exists m'. split; [right; exact Hin|exact Hm'].
    + intros Heq. injection Heq as <-. split.
      * apply andb_false_iff in Hecho as [He|He].
        -- left. apply negb_false_iff, str_eqb_eq in He. exact He.
        -- right. intros E. apply str_eqb_eq in E. congruence.
      * exists m. split; [left|exact Hm].
  - intros Hl. destruct (IH Hl) as (Hne & m' & Hin & Hm').
    split; [exact Hne|]. exists m'. split; [right; exact Hin|exact Hm'].
Qed.

Lemma last_not_echo_none (echo : jsstring) (l : list value) :
  last_not_echo echo l = None ->
  forall m t, m ∈ l -> nonempty_text m = Some t -> echo <> [] /\ trim t = trim echo.
Proof.
  induction l as [|m l IH]; intros Hnone m' t Hin Hm'; [inversion Hin|].
  simpl in Hnone. apply elem_of_cons in Hin as [->|Hin].
  - rewrite Hm' in Hnone.
    destruct (negb (str_eqb echo []) && str_eqb (trim t) (trim echo)) eqn:Hecho;
      [|discriminate].
    apply andb_true_iff in Hecho as [He Ht]. apply str_eqb_eq in Ht. split; [|exact Ht].
    intros ->. rewrite str_eqb_refl in He. discriminate.
  - destruct (nonempty_text m) as [t'|].
    + destruct (negb (str_eqb echo []) && str_eqb (trim t') (trim echo)); [|discriminate].
      exact (IH Hnone m' t Hin Hm').
    + exact (IH Hnone m' t Hin Hm').
Qed.

Lemma as_nonempty_array_spec (v : option value) (l : list value) :
  as_nonempty_array v = Some l -> v = Some (VArr l) /\ l <> [].
Proof.
  destruct v as [[| | | |[|x l']|]|]; try discriminate.
  intros Heq. injection Heq as <-. split; [reflexivity|discriminate].
Qed.

(** X8. A text extracted from an event is never empty and is the text of
    one of the messages of the event, read from its [text], [content] or
    [message.text]: nothing is made up and an event with only empty texts
    yields none. *)
Theorem extracted_text_is_a_message_text obj echo t :
  extractBestTextFromEvent obj echo = Some t ->
  t <> []
  /\ exists msgs m, offered obj msgs /\ m ∈ msgs /\ extractTextFromMessage m = Some t.
Proof.
  unfold extractBestTextFromEvent, offered.
  assert (Hlast : forall l, last_text (rev l) = Some t ->
            t <> [] /\ exists m, m ∈ l /\ extractTextFromMessage m = Some t).
  { intros l Hl. destruct (last_text_spec _ _ Hl) as (m & Hin & Hm).
    destruct (nonempty_text_spec _ _ Hm) as [Ht Hne].
    split; [exact Hne|]. exists m. split; [apply elem_of_rev; exact Hin|exact Ht]. }
  assert (Hwrapped :
    match as_nonempty_array (get_prop_opt (get_prop obj (js "value")) (js "messages")) with
    | Some wrapped => last_text (rev wrapped)
    | None => None
    end = Some t ->
    t <> [] /\ exists msgs m,
      (get_prop obj (js "messages") = Some (VArr msgs)
       \/ get_prop_opt (get_prop obj (js "value")) (js "messages") = Some (VArr msgs))
      /\ m ∈ msgs /\ extractTextFromMessage m = Some t).
  { destruct (as_nonempty_array (get_prop_opt _ _)) as [wrapped|] eqn:Hw; [|discriminate].
    apply as_nonempty_array_spec in Hw as [Hw _]. intros Hl.
    destruct (Hlast _ Hl) as (Hne & m & Hin & Hm).
    split; [exact Hne|]. exists wrapped, m. split; [right; exact Hw|split; assumption]. }
  destruct (as_nonempty_array (get_prop obj (js "messages"))) as [msgs|] eqn:Hmsgs;
    [|exact Hwrapped].
  apply as_nonempty_array_spec in Hmsgs as [Hmsgs _].
  destruct (last_not_echo echo (rev msgs)) as [t1|] eqn:H1.
  - intros Heq. injection Heq as <-.
    destruct (last_not_echo_spec _ _ _ H1) as (_ & m & Hin & Hm).
    destruct (nonempty_text_spec _ _ Hm) as [Ht Hne].
    split; [exact Hne|]. exists msgs, m.
    split; [left; exact Hmsgs|]. split; [apply elem_of_rev; exact Hin|exact Ht].
  - destruct (last_text (rev msgs)) as [t2|] eqn:H2; [|exact Hwrapped].
    intros Heq. injection Heq as <-.
    destruct (Hlast _ H2) as (Hne & m & Hin & Hm).
    split; [exact Hne|]. exists msgs, m. split; [left; exact Hmsgs|split; assumption].
Qed.

(** X9. The echo of the prompt is returned only as a last resort: when the
    text extracted equals the prompt (both trimmed), every message of
    [obj.messages] that has a text has the prompt as its text. *)
Theorem echo_only_as_last_resort obj echo msgs t :
  echo <> [] ->
  get_prop obj (js "messages") = Some (VArr msgs) ->
  extractBestTextFromEvent obj echo = Some t ->
  trim t = trim echo ->
  forall m t', m ∈ msgs -> nonempty_text m = Some t' -> trim t' = trim echo.
Proof.
  intros Hecho Hmsgs Hext Ht m t' Hin Hm.
  unfold extractBestTextFromEvent in Hext. rewrite Hmsgs in Hext.
  destruct msgs as [|m0 msgs]; [inversion Hin|].
  cbn [as_nonempty_array] in Hext.
  destruct (last_not_echo echo (rev (m0 :: msgs))) as [t1|] eqn:H1.
  - injection Hext as <-. destruct (last_not_echo_spec _ _ _ H1) as ([He|He] & _); contradiction.
  - apply (last_not_echo_none _ _ H1 m t'); [apply elem_of_rev_2; exact Hin|exact Hm].
Qed.

(** ** The diagnostic buffer and its route *)

Section DebugRouteFacts.
Context `{Runtime} `{Config}.

Lemma redis_lpush_other (key x k : jsstring) (r r' : store) :
  k <> key -> redis_lpush key x r = Ok r' -> r' !! k = r !! k.
Proof.
  intros Hk. unfold redis_lpush.
  destruct (r !! key) as [[[s|l] t]|]; intros Heq; try discriminate;
    injection Heq as <-; apply lookup_insert_ne; congruence.
Qed.

Lemma redis_ltrim_other (key k : jsstring) (a b : Z) (r r' : store) :
  k <> key -> redis_ltrim key a b r = Ok r' -> r' !! k = r !! k.
Proof.
  intros Hk. unfold redis_ltrim.
  destruct (r !! key) as [[[s|l] t]|]; intros Heq; try discriminate.
  - destruct (list_range l a b); injection Heq as <-;
      [apply lookup_delete_ne|apply lookup_insert_ne]; congruence.
  - injection Heq as <-. reflexivity.
Qed.

Lemma redis_expire_other (key k : jsstring) (n : Z) (r r' : store) :
  k <> key -> redis_expire key n r = Ok r' -> r' !! k = r !! k.
Proof.
  intros Hk. unfold redis_expire.
  destruct (r !! key) as [e|]; intros Heq.
  - destruct (n <=? 0); injection Heq as <-;
      [apply lookup_delete_ne|apply lookup_insert_ne]; congruence.
  - injection Heq as <-. reflexivity.
Qed.

Lemma pushDebugEvent_entry obj r limit :
  DEBUG_EVENT_LIMIT = Some limit ->
  debug_key_usable r ->
  pushDebugEvent obj r !! debug_key
  = Some {| r_val := RList (take (capacity limit) (JSON_stringify obj :: debug_events r));
            r_ttl := Some 3600 |}.
Proof.
  intros Hlimit. pose proof (capacity_pos limit) as Hcap.
  unfold debug_key_usable, pushDebugEvent, with_last_index, debug_events, redis_lpush.
  rewrite (last_index_limit limit Hlimit).
  destruct (r !! debug_key) as [[[s|l] t]|] eqn:Hk; [intros []| |]; intros _.
  - unfold redis_ltrim. rewrite lookup_insert_eq.
    rewrite list_range_from_0 by lia. rewrite capacity_stop.
    destruct (capacity limit) as [|n]; [lia|]. cbn [take].
    unfold redis_expire. rewrite lookup_insert_eq.
    change (3600 <=? 0) with false. cbn iota.
    rewrite lookup_insert_eq. reflexivity.
  - unfold redis_ltrim. rewrite lookup_insert_eq.
    rewrite list_range_from_0 by lia. rewrite capacity_stop.
    destruct (capacity limit) as [|n]; [lia|]. cbn [take].
    unfold redis_expire. rewrite lookup_insert_eq.
    change (3600 <=? 0) with false. cbn iota.
    rewrite lookup_insert_eq. reflexivity.
Qed.

(** X10. An append touches the buffer and nothing else: every other key of
    the store keeps its value and its expiry.  Under a limit that is an
    integer the buffer, when the append is accepted, gets its expiry renewed
    to one hour; under a setting that is not a number the trim is refused, the
    renewal is never reached, and the buffer keeps the expiry it had. *)
Theorem append_touches_only_the_buffer obj r :
  (forall k : jsstring, k <> debug_key -> pushDebugEvent obj r !! k = r !! k)
  /\ (forall limit, DEBUG_EVENT_LIMIT = Some limit -> debug_key_usable r ->
      exists entries,
        pushDebugEvent obj r !! debug_key
        = Some {| r_val := RList entries; r_ttl := Some 3600 |})
  /\ (DEBUG_EVENT_LIMIT = None -> debug_key_usable r ->
      pushDebugEvent obj r !! debug_key
      = Some {| r_val := RList (JSON_stringify obj :: debug_events r);
                r_ttl := r !! debug_key ≫= r_ttl |}).
Proof.
  split; [|split].
  - intros k Hk. unfold pushDebugEvent, with_last_index.
    destruct (redis_lpush debug_key (JSON_stringify obj) r) as [r1|] eqn:H1; [|reflexivity].
    rewrite <- (redis_lpush_other _ _ k _ _ Hk H1).
    destruct last_index as [stop|]; [|reflexivity].
    destruct (redis_ltrim debug_key 0 stop r1) as [r2|] eqn:H2; [|reflexivity].
    rewrite <- (redis_ltrim_other _ k _ _ _ _ Hk H2).
    destruct (redis_expire debug_key 3600 r2) as [r3|] eqn:H3; [|reflexivity].
    apply (redis_expire_other _ k _ _ _ Hk H3).
  - intros limit Hlimit Hr. eexists. apply (pushDebugEvent_entry obj r limit Hlimit Hr).
  - intros Hlimit. rewrite (pushDebugEvent_unlimited obj r Hlimit).
    unfold debug_key_usable, debug_events, redis_lpush.
    destruct (r !! debug_key) as [[[s|l] t]|] eqn:Hk; [intros []| |];
      intros _; apply lookup_insert_eq.
Qed.

(** X11. What was appended is what the diagnostic route shows first: under a
    limit that is an integer, after the append of an object that [JSON.parse]
    reads back, the route answers 200 with that object at the head of
    [events], with [count] the number of events, and with no more events than
    the buffer may hold.  Under a setting that is not a number the route does
    not answer: its [lrange] is refused. *)
Theorem last_events_show_the_append obj r :
  debug_key_usable r ->
  JSON_parse (JSON_stringify obj) = Some obj ->
  match DEBUG_EVENT_LIMIT with
  | Some limit =>
      exists older,
        debug_last_events (pushDebugEvent obj r)
        = Ok {| status := 200;
                body := json_obj [(js "count", Some (num (Z.of_nat (S (length older)))));
                                  (js "events", Some (VArr (obj :: older)))] |}
        /\ (S (length older) <= Z.to_nat (Z.max 1 limit))%nat
  | None => exists e, debug_last_events (pushDebugEvent obj r) = Throw e
  end.
Proof.
  intros Hr Hobj. destruct DEBUG_EVENT_LIMIT as [limit|] eqn:Hlimit.
  - pose proof (capacity_pos limit) as Hcap. fold (capacity limit).
    unfold debug_last_events, with_last_index, redis_lrange.
    rewrite (last_index_limit limit Hlimit).
    rewrite (pushDebugEvent_entry obj r limit Hlimit Hr).
    rewrite list_range_from_0 by lia. rewrite capacity_stop.
    rewrite take_take, Nat.min_id.
    destruct (capacity limit) as [|n] eqn:Hn; [lia|]. cbn [take].
    exists (parse_or_raw <$> take n (debug_events r)).
    assert (Hp : parse_or_raw (JSON_stringify obj) = obj)
      by (unfold parse_or_raw; rewrite Hobj; reflexivity).
    rewrite fmap_cons, Hp. cbn [length].
    split; [reflexivity|]. rewrite length_fmap, length_take. lia.
  - unfold debug_last_events, with_last_index. rewrite (last_index_none Hlimit).
    eexists. reflexivity.
Qed.
End DebugRouteFacts.

(** ** The credential paths *)

Lemma assoc_set_field_eq (k : jsstring) (v : value) (fields : list (jsstring * value)) :
  assoc k (set_field k v fields) = Some v.
Proof.
  induction fields as [|[k' v'] fields IH]; simpl.
  - rewrite str_eqb_refl. reflexivity.
  - destruct (str_eqb k k') eqn:E; simpl; rewrite ?str_eqb_refl, ?E; auto.
Qed.

Lemma assoc_set_field_ne (k k' : jsstring) (v : value) (fields : list (jsstring * value)) :
  k <> k' -> assoc k (set_field k' v fields) = assoc k fields.
Proof.
  intros Hne. assert (Hkk : str_eqb k k' = false).
  { apply not_true_is_false. intros E. apply str_eqb_eq in E. contradiction. }
  induction fields as [|[k1 v1] fields IH]; simpl.
  - rewrite Hkk. reflexivity.
  - destruct (str_eqb k' k1) eqn:E; simpl.
    + apply str_eqb_eq in E as <-. rewrite Hkk. reflexivity.
    + rewrite IH. reflexivity.
Qed.

Section CredentialFacts.
Context `{Runtime} `{MsalClient}.

(** X12. A token acquisition that fails writes nothing: whether reading the
    cache, deserializing it or the silent acquisition throws, Redis is left
    exactly as it was. *)
Theorem failed_acquisition_leaves_redis account w e w' :
  acquireAccessToken account w = (Throw e, w') -> w_redis w' = w_redis w.
Proof.
  unfold acquireAccessToken, loadMsalCache, saveMsalCache, redis_set.
  destruct (redis_get _ (w_redis w)) as [cached|e0].
  - match goal with |- context [match ?l with Ok _ => _ | Throw _ => _ end = _] =>
      destruct l as [c1|e1] end.
    + destruct (msal_acquireTokenSilent account c1) as [[res|e2] c2].
      * change (60 * 60 * 24 * 7 <=? 0) with false. cbn iota. discriminate.
      * intros Heq. injection Heq as _ <-. reflexivity.
    + intros Heq. injection Heq as _ <-. reflexivity.
  - intros Heq. injection Heq as _ <-. reflexivity.
Qed.

Lemma key_prefix_distinct (p q : string) (x y : jsstring) :
  (match list_ascii_of_string p, list_ascii_of_string q with
   | a :: _, b :: _ => negb (Ascii.eqb a b)
   | _, _ => false
   end) = true ->
  js p ++ x <> js q ++ y.
Proof.
  unfold js. destruct (list_ascii_of_string p) as [|a p']; [discriminate|].
  destruct (list_ascii_of_string q) as [|b q']; [discriminate|].
  intros Hab E. simpl in E. injection E as E _.
  apply (f_equal ascii_of_N) in E. rewrite !ascii_N_embedding in E. subst b.
  rewrite Ascii.eqb_refl in Hab. discriminate.
Qed.

(** X13. A key minted by the onboarding authenticates: once the [try] of the
    background task has run to its end for an account, a request carrying the
    minted key (longer than ten code units) is resolved to that account,
    whatever its session. *)
Theorem onboarded_key_authenticates txId userKey completedAt res account home w r' sess :
  result_account res = Some account ->
  get_prop account (js "homeAccountId") = Some (VStr home) -> home <> [] ->
  json_faithful account ->
  (10 < length userKey)%nat ->
  device_succeeded txId userKey completedAt res w = (Ok r', r') ->
  resolve_account {| x_user_key := Some userKey; session_account := sess |} r'
  = Resolved account.
Proof.
  intros Hacc Hhome Hne Hjson Hlen.
  unfold device_succeeded. rewrite Hacc. cbn [get_prop_opt mbind option_bind].
  rewrite Hhome.
  assert (Htruthy : truthy_opt (Some (VStr home)) = true).
  { simpl. destruct home; [contradiction|reflexivity]. }
  rewrite Htruthy. unfold saveMsalCache, redisSetJson, redis_set.
  change (60 * 60 * 24 * 7 <=? 0) with false.
  change (60 * 60 * 24 * 30 <=? 0) with false.
  change (60 * 60 * 24 =? 0) with false.
  change (60 * 60 * 24 <=? 0) with false. cbn iota.
  cbn [ToString_opt ToString].
  match goal with |- context [stored_or_fresh txId ?r] => set (r3 := r) end.
  destruct (stored_or_fresh txId r3) as [done|]; [|discriminate].
  destruct (assign done _ _) as [d1|]; [|discriminate].
  destruct (assign d1 _ _) as [d2|]; [|discriminate].
  destruct (assign d2 _ _) as [d3|]; [|discriminate].
  intros Heq. injection Heq as <-.
  assert (Hkey : r3 !! (js "userkey:" ++ userKey)
                 = Some {| r_val := RString home; r_ttl := Some (60 * 60 * 24 * 30) |}).
  { unfold r3. apply lookup_insert_eq. }
  assert (Haccount : r3 !! (js "account:" ++ home)
                     = Some {| r_val := RString (JSON_stringify account); r_ttl := None |}).
  { unfold r3. rewrite lookup_insert_ne by (apply key_prefix_distinct; reflexivity).
    apply lookup_insert_eq. }
  unfold resolve_account.
  rewrite (getUserContext_key {| x_user_key := Some userKey; session_account := sess |} userKey eq_refl Hlen).
  unfold getAccountByUserKey, redis_get.
  destruct userKey as [|u userKey]; [simpl in Hlen; lia|].
  match goal with |- context [<[devtx_key txId := ?e]> r3 !! ?x] =>
    replace (<[devtx_key txId := e]> r3 !! x)
      with (Some {| r_val := RString home; r_ttl := Some (60 * 60 * 24 * 30) |})
  end.
  2:{ symmetry. rewrite lookup_insert_ne; [exact Hkey|].
      apply not_eq_sym. apply (key_prefix_distinct "userkey:" "devtx:"). reflexivity. }
  destruct home as [|h home]; [contradiction|].
  rewrite (redisGetJson_stored _ account None _ Hjson).
  - destruct account; try discriminate. reflexivity.
  - rewrite lookup_insert_ne; [exact Haccount|].
    apply not_eq_sym. apply (key_prefix_distinct "account:" "devtx:"). reflexivity.
Qed.

(** X14. A flow that fails is recorded and mints nothing: when the provider's
    call throws, or returns a result without an account, the stored record of
    the transaction gets status "error" and the cause as [error], keeps its
    other fields, the status route answers with it, and no other key of the
    store is written. *)
Theorem device_failure_recorded txId userKey completedAt outcome cause fields ttl w :
  w_redis w !! devtx_key txId
  = Some {| r_val := RString (JSON_stringify (VObj fields)); r_ttl := ttl |} ->
  json_faithful (VObj fields) ->
  failure_cause outcome = Some cause ->
  json_faithful (failed_record (VObj fields) cause) ->
  exists r2,
    device_settled txId userKey completedAt outcome w = Ok r2
    /\ device_status txId r2
       = Ok {| status := 200; body := failed_record (VObj fields) cause |}
    /\ get_prop (failed_record (VObj fields) cause) (js "status") = Some (VStr (js "error"))
    /\ get_prop (failed_record (VObj fields) cause) (js "error") = Some (VStr cause)
    /\ (forall k, k <> js "status" -> k <> js "error" ->
          get_prop (failed_record (VObj fields) cause) k = get_prop (VObj fields) k)
    /\ (forall k : jsstring, k <> devtx_key txId -> r2 !! k = w_redis w !! k).
Proof.
  intros Hstored Hinfo Hcause Hrec.
  assert (Hfailed : forall e, cause_of e = cause ->
            device_failed txId e (w_redis w)
            = Ok (<[devtx_key txId :=
                      {| r_val := RString (JSON_stringify (failed_record (VObj fields) cause));
                         r_ttl := Some (60 * 60) |}]> (w_redis w))).
  { intros e He. unfold device_failed, stored_or_fresh.
    rewrite (redisGetJson_stored _ (VObj fields) ttl _ Hinfo Hstored).
    cbn [truthy assign]. rewrite He. unfold redisSetJson, redis_set.
    change (60 * 60 =? 0) with false. change (60 * 60 <=? 0) with false. reflexivity. }
  assert (Hsettled : device_settled txId userKey completedAt outcome w
            = Ok (<[devtx_key txId :=
                      {| r_val := RString (JSON_stringify (failed_record (VObj fields) cause));
                         r_ttl := Some (60 * 60) |}]> (w_redis w))).
  { unfold device_settled, failure_cause in *. destruct outcome as [res|e].
    - unfold device_succeeded.
      destruct (result_account res) as [account|] eqn:Hacc.
      + cbn [get_prop_opt mbind option_bind] in *.
        destruct (truthy_opt (get_prop account (js "homeAccountId"))); [discriminate|].
        injection Hcause as <-. apply Hfailed. reflexivity.
      + injection Hcause as <-. apply Hfailed. reflexivity.
    - injection Hcause as Hc. apply Hfailed. exact Hc. }
  eexists. split; [exact Hsettled|]. split.
  { apply (device_status_stored txId _ (Some (60 * 60))); [exact Hrec|reflexivity|].
    apply lookup_insert_eq. }
  cbn [failed_record get_prop]. split; [|split; [|split]].
  - rewrite assoc_set_field_ne by (intros E; vm_compute in E; discriminate).
    apply assoc_set_field_eq.
  - apply assoc_set_field_eq.
  - intros k Hs He. rewrite !assoc_set_field_ne by assumption. reflexivity.
  - intros k Hk. apply lookup_insert_ne. congruence.
Qed.
End CredentialFacts.

(** ** Keys *)

Lemma forall_below (n : nat) (P : N -> bool) :
  forallb P (List.map N.of_nat (seq 0 n)) = true ->
  forall x, (x < N.of_nat n)%N -> P x = true.
Proof.
  intros Hall x Hx. rewrite forallb_forall in Hall. apply Hall.
  apply in_map_iff. exists (N.to_nat x). split; [apply N2Nat.id|].
  apply in_seq. lia.
Qed.

Lemma triple_ind (P : list N -> Prop) :
  P [] -> (forall a, P [a]) -> (forall a b, P [a; b]) ->
  (forall a b c rest, P rest -> P (a :: b :: c :: rest)) ->
  forall l, P l.
Proof.
  intros H0 Hone Htwo Hstep.
  assert (Hall : forall l, P l /\ (forall a, P (a :: l)) /\ (forall a b, P (a :: b :: l))).
  { induction l as [|c l (IH0 & IH1 & IH2)]; [auto|].
    split; [apply IH1|]. split; [intros; apply IH2|]. intros a b. apply Hstep, IH0. }
  intros l. apply Hall.
Qed.

Lemma url_digit_not_PAD n : url_digit n <> PAD.
Proof.
  destruct (N.lt_ge_cases n 64) as [Hlt|Hge].
  - assert (Hb : negb (url_digit n =? PAD)%N = true).
    { revert n Hlt. apply (forall_below 64). vm_compute. reflexivity. }
    intros E. rewrite E, N.eqb_refl in Hb. discriminate.
  - unfold url_digit, base64_digit. rewrite nth_overflow; [vm_compute; discriminate|].
    change (length base64_alphabet) with 64%nat. lia.
Qed.

Lemma url_digit_safe n : (n < 64)%N -> url_digit n ∈ url_safe_alphabet.
Proof.
  intros Hlt. apply list_elem_of_In.
  assert (Hb : existsb (N.eqb (url_digit n)) url_safe_alphabet = true).
  { revert n Hlt. apply (forall_below 64). vm_compute. reflexivity. }
  apply existsb_exists in Hb as (u & Hin & Hu). apply N.eqb_eq in Hu as ->. exact Hin.
Qed.

Lemma url_value_digit n : (n < 64)%N -> url_value (url_digit n) = n.
Proof.
  intros Hlt.
  assert (Hb : (url_value (url_digit n) =? n)%N = true).
  { revert n Hlt. apply (forall_below 64). vm_compute. reflexivity. }
  apply N.eqb_eq. exact Hb.
Qed.

Lemma strip_trailing_app c x y :
  Forall (fun u => u <> c) x -> strip_trailing c (x ++ y) = x ++ strip_trailing c y.
Proof.
  induction 1 as [|u x Hu _ IH]; [reflexivity|].
  cbn [app strip_trailing]. rewrite IH.
  destruct (x ++ strip_trailing c y) eqn:E; [|reflexivity].
  apply N.eqb_neq in Hu. rewrite Hu. reflexivity.
Qed.

Lemma strip_trailing_run c n : strip_trailing c (replicate n c) = [].
Proof.
  induction n as [|n IH]; [reflexivity|].
  cbn [replicate strip_trailing]. rewrite IH, N.eqb_refl. reflexivity.
Qed.

Lemma base64url_three a b c rest :
  base64url (a :: b :: c :: rest)
  = [url_digit (N.shiftr a 2);
     url_digit (N.lor (N.shiftl (N.land a 3) 4) (N.shiftr b 4));
     url_digit (N.lor (N.shiftl (N.land b 15) 2) (N.shiftr c 6));
     url_digit (N.land c 63)] ++ base64url rest.
Proof.
  unfold base64url. cbn [base64 replace_unit fmap list_fmap].
  match goal with |- strip_trailing _ (?d1 :: ?d2 :: ?d3 :: ?d4 :: ?t) = _ =>
    change (d1 :: d2 :: d3 :: d4 :: t) with ([d1; d2; d3; d4] ++ t) end.
  rewrite strip_trailing_app; [reflexivity|].
  repeat constructor; apply url_digit_not_PAD.
Qed.

Lemma base64url_two a b :
  base64url [a; b]
  = [url_digit (N.shiftr a 2);
     url_digit (N.lor (N.shiftl (N.land a 3) 4) (N.shiftr b 4));
     url_digit (N.shiftl (N.land b 15) 2)].
Proof.
  unfold base64url. cbn [base64 replace_unit fmap list_fmap].
  match goal with |- strip_trailing _ (?d1 :: ?d2 :: ?d3 :: ?t) = _ =>
    change (d1 :: d2 :: d3 :: t) with ([d1; d2; d3] ++ replicate 1 PAD) end.
  rewrite strip_trailing_app, strip_trailing_run; [reflexivity|].
  repeat constructor; apply url_digit_not_PAD.
Qed.

Lemma base64url_one a :
  base64url [a] = [url_digit (N.shiftr a 2); url_digit (N.shiftl (N.land a 3) 4)].
Proof.
  unfold base64url. cbn [base64 replace_unit fmap list_fmap].
  match goal with |- strip_trailing _ (?d1 :: ?d2 :: ?t) = _ =>
    change (d1 :: d2 :: t) with ([d1; d2] ++ replicate 2 PAD) end.
  rewrite strip_trailing_app, strip_trailing_run; [reflexivity|].
  repeat constructor; apply url_digit_not_PAD.
Qed.

Lemma base64url_length buf : length (base64url buf) = ((4 * length buf + 2) / 3)%nat.
Proof.
  induction buf as [| | |a b c rest IH] using triple_ind.
  - reflexivity.
  - rewrite base64url_one. reflexivity.
  - rewrite base64url_two. reflexivity.
  - rewrite base64url_three, length_app, IH. cbn [length].
    replace (4 * S (S (S (length rest))) + 2)%nat with (4 * 3 + (4 * length rest + 2))%nat by lia.
    rewrite (Nat.div_add_l 4 3) by lia. reflexivity.
Qed.

Lemma sextets_small (a b c : N) :
  is_byte a -> is_byte b -> is_byte c ->
  (N.shiftr a 2 < 64 /\ N.lor (N.shiftl (N.land a 3) 4) (N.shiftr b 4) < 64
   /\ N.lor (N.shiftl (N.land b 15) 2) (N.shiftr c 6) < 64 /\ N.land c 63 < 64)%N.
Proof.
  unfold is_byte. intros Ha Hb Hc.
  assert (H1 : forall x, (x < 256)%N -> (N.shiftr x 2 <? 64)%N = true).
  { apply (forall_below 256). vm_compute. reflexivity. }
  assert (H2 : forall x, (x < 256)%N -> forall y, (y < 256)%N ->
            (N.lor (N.shiftl (N.land x 3) 4) (N.shiftr y 4) <? 64)%N
            && (N.lor (N.shiftl (N.land x 15) 2) (N.shiftr y 6) <? 64)%N = true).
  { intros x Hx.
    apply (forall_below 256 (fun y => (N.lor (N.shiftl (N.land x 3) 4) (N.shiftr y 4) <? 64)%N
            && (N.lor (N.shiftl (N.land x 15) 2) (N.shiftr y 6) <? 64)%N)).
    revert x Hx.
    apply (forall_below 256 (fun x => forallb (fun y =>
            (N.lor (N.shiftl (N.land x 3) 4) (N.shiftr y 4) <? 64)%N
            && (N.lor (N.shiftl (N.land x 15) 2) (N.shiftr y 6) <? 64)%N)
            (List.map N.of_nat (seq 0 256)))).
    vm_compute. reflexivity. }
  assert (H4 : forall x, (x < 256)%N -> (N.land x 63 <? 64)%N = true).
  { apply (forall_below 256). vm_compute. reflexivity. }
  pose proof (H2 a Ha b Hb) as Hab. pose proof (H2 b Hb c Hc) as Hbc.
  apply andb_true_iff in Hab as [Hab _]. apply andb_true_iff in Hbc as [_ Hbc].
  repeat split; apply N.ltb_lt; auto.
Qed.

(** X15. A key is made of URL-safe characters only (letters, digits, [-] and
    [_]: no [+], [/] or [=]), and [n] bytes give [ceil(4n/3)] of them. *)
Theorem base64url_is_url_safe buf :
  Forall is_byte buf ->
  Forall (fun u => u ∈ url_safe_alphabet) (base64url buf)
  /\ length (base64url buf) = ((4 * length buf + 2) / 3)%nat.
Proof.
  intros Hbytes. split; [|apply base64url_length].
  induction buf as [|a|a b|a b c rest IH] using triple_ind.
  - constructor.
  - rewrite base64url_one.
    apply Forall_cons in Hbytes as [Ha _].
    destruct (sextets_small a 0 0 Ha) as (H1 & H2 & _); [reflexivity..|].
    rewrite N.lor_0_r in H2.
    repeat (apply Forall_cons; split; [apply url_digit_safe; assumption|]). apply Forall_nil_2.
  - rewrite base64url_two.
    apply Forall_cons in Hbytes as [Ha Hbytes]. apply Forall_cons in Hbytes as [Hb _].
    destruct (sextets_small a b 0 Ha Hb) as (H1 & H2 & H3 & _); [reflexivity|].
    rewrite N.lor_0_r in H3.
    repeat (apply Forall_cons; split; [apply url_digit_safe; assumption|]). apply Forall_nil_2.
  - rewrite base64url_three.
    apply Forall_cons in Hbytes as [Ha Hbytes]. apply Forall_cons in Hbytes as [Hb Hbytes].
    apply Forall_cons in Hbytes as [Hc Hbytes].
    destruct (sextets_small a b c Ha Hb Hc) as (H1 & H2 & H3 & H4).
    apply Forall_app. split; [|apply IH; assumption].
    repeat (apply Forall_cons; split; [apply url_digit_safe; assumption|]). apply Forall_nil_2.
Qed.

(** X16. A freshly minted key passes the header test: the key made from the 24
    random bytes of the onboarding is 32 code units long, so [getUserContext]
    takes it, and whatever session the request carries is not consulted. *)
Theorem minted_key_selects_the_key_path buf sess :
  length buf = 24%nat ->
  length (base64url buf) = 32%nat
  /\ getUserContext {| x_user_key := Some (base64url buf); session_account := sess |}
     = Some (CtxUserKey (base64url buf)).
Proof.
  intros Hlen.
  assert (Hl : length (base64url buf) = 32%nat).
  { rewrite base64url_length, Hlen. reflexivity. }
  split; [exact Hl|]. unfold getUserContext. cbn [x_user_key]. rewrite Hl. reflexivity.
Qed.

Lemma bytes_read_back (a b c : N) :
  is_byte a -> is_byte b -> is_byte c ->
  let s1 := N.shiftr a 2 in
  let s2 := N.lor (N.shiftl (N.land a 3) 4) (N.shiftr b 4) in
  let s3 := N.lor (N.shiftl (N.land b 15) 2) (N.shiftr c 6) in
  let s4 := N.land c 63 in
  first_byte s1 s2 = a /\ second_byte s2 s3 = b /\ third_byte s3 s4 = c.
Proof.
  unfold is_byte. intros Ha Hb Hc.
  pose (check1 := fun x y =>
    (first_byte (N.shiftr x 2) (N.lor (N.shiftl (N.land x 3) 4) (N.shiftr y 4)) =? x)%N
    && (third_byte (N.lor (N.shiftl (N.land x 15) 2) (N.shiftr y 6)) (N.land y 63) =? y)%N).
  assert (H1 : forall x, (x < 256)%N -> forall y, (y < 256)%N -> check1 x y = true).
  { intros x Hx. apply (forall_below 256 (check1 x)). revert x Hx.
    apply (forall_below 256 (fun x => forallb (check1 x) (List.map N.of_nat (seq 0 256)))).
    vm_compute. reflexivity. }
  pose (check2 := fun h y l =>
    (second_byte (N.lor (N.shiftl h 4) (N.shiftr y 4))
                 (N.lor (N.shiftl (N.land y 15) 2) l) =? y)%N).
  assert (H2 : forall h, (h < 4)%N -> forall y, (y < 256)%N -> forall l, (l < 4)%N ->
            check2 h y l = true).
  { intros h Hh y Hy. apply (forall_below 4 (check2 h y)). revert y Hy.
    apply (forall_below 256 (fun y => forallb (check2 h y) (List.map N.of_nat (seq 0 4)))).
    revert h Hh.
    apply (forall_below 4 (fun h => forallb (fun y => forallb (check2 h y)
             (List.map N.of_nat (seq 0 4))) (List.map N.of_nat (seq 0 256)))).
    vm_compute. reflexivity. }
  assert (Hlow : forall x, (x < 256)%N -> (N.land x 3 <? 4)%N && (N.shiftr x 6 <? 4)%N = true).
  { apply (forall_below 256). vm_compute. reflexivity. }
  pose proof (H1 a Ha b Hb) as Hab. pose proof (H1 b Hb c Hc) as Hbc.
  apply andb_true_iff in Hab as [Hab _]. apply andb_true_iff in Hbc as [_ Hbc].
  pose proof (Hlow a Ha) as Hla. pose proof (Hlow c Hc) as Hlc.
  apply andb_true_iff in Hla as [Hla _]. apply andb_true_iff in Hlc as [_ Hlc].
  pose proof (H2 _ (proj1 (N.ltb_lt _ _) Hla) b Hb _ (proj1 (N.ltb_lt _ _) Hlc)) as Hm.
  cbv zeta. repeat split; apply N.eqb_eq; assumption.
Qed.

Lemma read_base64url_back buf : Forall is_byte buf -> read_base64url (base64url buf) = buf.
Proof.
  induction buf as [|a|a b|a b c rest IH] using triple_ind; intros Hbytes.
  - reflexivity.
  - rewrite base64url_one.
    apply Forall_cons in Hbytes as [Ha _].
    destruct (sextets_small a 0 0 Ha) as (H1 & H2 & _); [reflexivity..|].
    destruct (bytes_read_back a 0 0 Ha) as (R1 & _); [reflexivity..|].
    rewrite N.lor_0_r in H2, R1.
    cbn [read_base64url]. rewrite !url_value_digit by assumption. rewrite R1. reflexivity.
  - rewrite base64url_two.
    apply Forall_cons in Hbytes as [Ha Hbytes]. apply Forall_cons in Hbytes as [Hb _].
    destruct (sextets_small a b 0 Ha Hb) as (H1 & H2 & H3 & _); [reflexivity|].
    destruct (bytes_read_back a b 0 Ha Hb) as (R1 & R2 & _); [reflexivity|].
    rewrite N.lor_0_r in H3, R2.
    cbn [read_base64url]. rewrite !url_value_digit by assumption. rewrite R1, R2. reflexivity.
  - rewrite base64url_three.
    apply Forall_cons in Hbytes as [Ha Hbytes]. apply Forall_cons in Hbytes as [Hb Hbytes].
    apply Forall_cons in Hbytes as [Hc Hbytes].
    destruct (sextets_small a b c Ha Hb Hc) as (H1 & H2 & H3 & H4).
    destruct (bytes_read_back a b c Ha Hb Hc) as (R1 & R2 & R3).
    cbn [app read_base64url]. rewrite !url_value_digit by assumption.
    rewrite R1, R2, R3, IH by assumption. reflexivity.
Qed.

(** X17. Keys do not collide: two buffers of bytes with the same key are the
    same buffer, although the padding that tells their lengths apart has been
    stripped. *)
Theorem base64url_injective buf buf' :
  Forall is_byte buf -> Forall is_byte buf' ->
  base64url buf = base64url buf' -> buf = buf'.
Proof.
  intros Hb Hb' E. apply (f_equal read_base64url) in E.
  rewrite !read_base64url_back in E by assumption. exact E.
Qed.

(** ** What reaches the log *)

Section LoggingFacts.
Context `{Runtime}.

(** X18. A logged value is bounded: of a string, or of the JSON text of
    another value, [safeString] keeps at most [maxLen] code units and one
    ellipsis, and what it keeps is the beginning of the text, whole if it
    fits. *)
Theorem safeString_bounded v maxLen :
  v <> VNull ->
  exists out,
    safeString (Some v) maxLen = Some (VStr out)
    /\ (length out <= S maxLen)%nat
    /\ take maxLen out = take maxLen (text_of v)
    /\ ((length (text_of v) <= maxLen)%nat -> out = text_of v)
    /\ ((maxLen < length (text_of v))%nat -> length out = S maxLen /\ last out = Some ELLIPSIS).
Proof.
  intros Hv.
  exists (if (maxLen <? length (text_of v))%nat then slice (text_of v) 0 maxLen ++ [ELLIPSIS]
          else text_of v).
  split; [destruct v; try reflexivity; contradiction|].
  unfold slice. rewrite drop_0, Nat.sub_0_r.
  destruct (Nat.ltb_spec maxLen (length (text_of v))) as [Hlt|Hge].
  - assert (Hl : length (take maxLen (text_of v)) = maxLen) by (rewrite length_take; lia).
    repeat split.
    + rewrite length_app, Hl. simpl. lia.
    + rewrite take_app_le by lia. rewrite take_take. f_equal. lia.
    + lia.
    + rewrite length_app, Hl. simpl. lia.
    + apply last_snoc.
  - repeat split; try reflexivity; lia.
Qed.

Lemma set_field_as_map k v (h : list (jsstring * value)) :
  NoDup h.*1 -> k ∈ h.*1 ->
  set_field k v h = (fun kv => if str_eqb k kv.1 then (k, v) else kv) <$> h.
Proof.
  induction h as [|[k' v'] h IH]; intros Hnd Hin.
  - apply elem_of_nil in Hin. contradiction.
  - cbn [fmap list_fmap fst] in *. apply NoDup_cons in Hnd as [Hfresh Hnd].
    cbn [set_field].
    destruct (str_eqb k k') eqn:E.
    + apply str_eqb_eq in E as <-. f_equal.
      symmetry. transitivity (id <$> h); [|apply list_fmap_id].
      apply Forall_fmap_ext_1, Forall_forall. intros [k1 v1] Hkv. cbn [fst].
      destruct (str_eqb k k1) eqn:E1; [|reflexivity].
      apply str_eqb_eq in E1 as <-. exfalso. apply Hfresh.
      apply list_elem_of_fmap. exists (k, v1). split; [reflexivity|exact Hkv].
    + f_equal. apply IH; [exact Hnd|].
      apply elem_of_cons in Hin as [->|Hin]; [|exact Hin].
      rewrite str_eqb_refl in E. discriminate.
Qed.

Lemma redactHeaders_partial keys (h : list (jsstring * value)) :
  NoDup h.*1 -> (forall k, k ∈ keys -> k ∈ h.*1) ->
  redactHeaders keys h
  = (fun kv => if bool_decide (kv.1 ∈ keys) && is_sensitive kv.1 then (kv.1, REDACTED) else kv)
      <$> h.
Proof.
  unfold redactHeaders. induction keys as [|k keys IH] using rev_ind; intros Hnd Hsub.
  - cbn [foldl]. symmetry. transitivity (id <$> h); [|apply list_fmap_id].
    apply Forall_fmap_ext_1, Forall_forall. intros kv _.
    rewrite bool_decide_eq_false_2 by apply not_elem_of_nil. reflexivity.
  - rewrite foldl_snoc, IH; [|exact Hnd|intros k' Hk'; apply Hsub, elem_of_app; auto].
    set (g := fun kv : jsstring * value =>
                if bool_decide (kv.1 ∈ keys) && is_sensitive kv.1 then (kv.1, REDACTED) else kv).
    assert (Hfst : forall kv, (g kv).1 = kv.1).
    { intros kv. unfold g. destruct (_ && _); reflexivity. }
    assert (Hkeys : (g <$> h).*1 = h.*1).
    { rewrite <- list_fmap_compose. apply Forall_fmap_ext_1, Forall_forall.
      intros kv _. apply Hfst. }
    destruct (is_sensitive k) eqn:Hs.
    + rewrite set_field_as_map;
        [|rewrite Hkeys; exact Hnd
         |rewrite Hkeys; apply Hsub, elem_of_app; right; apply list_elem_of_singleton; reflexivity].
      rewrite <- list_fmap_compose. apply Forall_fmap_ext_1, Forall_forall.
      intros kv _. cbn [compose]. rewrite Hfst.
      destruct (str_eqb k kv.1) eqn:E.
      * apply str_eqb_eq in E as <-.
        rewrite bool_decide_eq_true_2
          by (apply elem_of_app; right; apply list_elem_of_singleton; reflexivity).
        rewrite Hs. reflexivity.
      * unfold g. replace (bool_decide (kv.1 ∈ keys ++ [k])) with (bool_decide (kv.1 ∈ keys));
          [reflexivity|].
        apply bool_decide_ext. rewrite elem_of_app, list_elem_of_singleton.
        split; [auto|]. intros [Hin | Heq]; [exact Hin|].
        rewrite Heq, str_eqb_refl in E. discriminate.
    + apply Forall_fmap_ext_1, Forall_forall. intros kv _. unfold g.
      destruct (decide (kv.1 = k)) as [->|Hne].
      * rewrite Hs, !andb_false_r. reflexivity.
      * replace (bool_decide (kv.1 ∈ keys ++ [k])) with (bool_decide (kv.1 ∈ keys));
          [reflexivity|].
        apply bool_decide_ext. rewrite elem_of_app, list_elem_of_singleton. tauto.
Qed.

Lemma redactHeaders_as_map keys (headers : list (jsstring * value)) :
  NoDup headers.*1 -> keys ≡ₚ headers.*1 ->
  redactHeaders keys headers = redacted <$> headers.
Proof.
  intros Hnd Hperm.
  rewrite redactHeaders_partial; [|exact Hnd|intros k Hk; rewrite <- Hperm; exact Hk].
  apply Forall_fmap_ext_1, Forall_forall. intros kv Hkv. unfold redacted.
  rewrite bool_decide_eq_true_2; [reflexivity|].
  rewrite Hperm. apply list_elem_of_fmap. exists kv. auto.
Qed.

(** X19. Redaction is a header-by-header rewrite: in whatever order the names
    are visited, the loop of in-place writes leaves the headers in their
    places and under their names, with "[REDACTED]" for the value of each
    header whose lower-cased name is [authorization], [cookie] or
    [set-cookie], and the other values as they were. *)
Theorem redactHeaders_rewrites_each_header keys (headers : list (jsstring * value)) :
  NoDup headers.*1 -> keys ≡ₚ headers.*1 ->
  redactHeaders keys headers = redacted <$> headers
  /\ (redactHeaders keys headers).*1 = headers.*1
  /\ (forall k v, (k, v) ∈ redactHeaders keys headers ->
        if is_sensitive k then v = REDACTED else (k, v) ∈ headers).
Proof.
  intros Hnd Hperm. rewrite (redactHeaders_as_map keys headers Hnd Hperm).
  split; [reflexivity|]. split.
  - rewrite <- list_fmap_compose. transitivity (fst <$> headers); [|reflexivity].
    apply Forall_fmap_ext_1, Forall_forall. intros kv _. unfold redacted. cbn [compose].
    destruct (is_sensitive kv.1); reflexivity.
  - intros k v Hin. apply list_elem_of_fmap in Hin as ([k0 v0] & Heq & Hin).
    unfold redacted in Heq. cbn [fst] in Heq.
    destruct (is_sensitive k0) eqn:Hs; injection Heq as -> ->; rewrite Hs;
      [reflexivity|exact Hin].
Qed.

(** X20. The access token never reaches the log: of the headers of a call to
    Graph, what [fetchGraph] logs has "[REDACTED]" under [Authorization],
    the other headers as sent, and the bearer credential under no name. *)
Theorem bearer_token_never_logged keys accessToken streaming :
  lowers_ascii ->
  keys ≡ₚ (graph_headers accessToken streaming).*1 ->
  let logged := redactHeaders keys (graph_headers accessToken streaming) in
  assoc (js "Authorization") logged = Some REDACTED
  /\ assoc (js "Content-Type") logged = Some (VStr (js "application/json"))
  /\ logged.*1 = (graph_headers accessToken streaming).*1
  /\ forall k, assoc k logged <> Some (VStr (js "Bearer " ++ accessToken)).
Proof.
  intros Hlow Hperm logged.
  assert (Hsens : forall s b, is_ascii (js s) ->
            str_eqb (ascii_lower (js s)) (js "authorization")
            || str_eqb (ascii_lower (js s)) (js "cookie")
            || str_eqb (ascii_lower (js s)) (js "set-cookie") = b ->
            is_sensitive (js s) = b).
  { intros s b Hs <-. unfold is_sensitive. rewrite (Hlow _ Hs). reflexivity. }
  assert (Hascii : forall s, forallb (fun u => (u <? 128)%N) (js s) = true -> is_ascii (js s)).
  { intros s Hs. apply Forall_forall. intros u Hu.
    rewrite forallb_forall in Hs. apply N.ltb_lt, Hs, list_elem_of_In, Hu. }
  assert (Ha : is_sensitive (js "Authorization") = true)
    by (apply Hsens; [apply Hascii|]; reflexivity).
  assert (Hc : is_sensitive (js "Content-Type") = false)
    by (apply Hsens; [apply Hascii|]; reflexivity).
  assert (Hacc : is_sensitive (js "Accept") = false)
    by (apply Hsens; [apply Hascii|]; reflexivity).
  assert (Hlogged : logged
            = [(js "Authorization", REDACTED); (js "Content-Type", VStr (js "application/json"))]
              ++ (if streaming then [(js "Accept", VStr (js "text/event-stream"))] else [])).
  { unfold logged. rewrite redactHeaders_as_map; [|clear; destruct streaming; vm_compute; repeat constructor; rewrite ?elem_of_cons, ?elem_of_nil; intuition discriminate|exact Hperm].
    unfold graph_headers, redacted.
    destruct streaming; cbn [fmap list_fmap app fst]; rewrite Ha, Hc, ?Hacc; reflexivity. }
  rewrite Hlogged. split; [reflexivity|]. split; [reflexivity|].
  split; [destruct streaming; reflexivity|].
  intros k E. destruct streaming; cbn [app assoc] in E;
    repeat (destruct (str_eqb k _); [vm_compute in E; discriminate|]); discriminate.
Qed.

End LoggingFacts.

(** ** The session store *)

Lemma ceil_seconds_spec ms :
  1000 * (ceil_seconds ms - 1) < ms <= 1000 * ceil_seconds ms.
Proof.
  unfold ceil_seconds.
  pose proof (Z.div_mod (- ms) 1000 ltac:(lia)) as Hdm.
  pose proof (Z.mod_pos_bound (- ms) 1000 ltac:(lia)) as Hb. lia.
Qed.

Lemma ceil_seconds_pos ms : 0 < ceil_seconds ms <-> 0 < ms.
Proof. pose proof (ceil_seconds_spec ms). lia. Qed.

Section SessionStoreFacts.
Context `{Runtime} `{SessionConfig}.

Lemma _key_inj sid sid' : _key sid = _key sid' -> sid = sid'.
Proof. unfold _key. apply app_inv_head. Qed.

Lemma _getTTL_pos sess now : 0 < store_ttl -> 0 < _getTTL sess now.
Proof.
  intros Hdefault. unfold _getTTL.
  destruct (sess_cookie sess ≫= expires) as [[exp|]|];
    destruct (sess_cookie sess ≫= maxAge) as [[ms|]|]; cbv zeta;
    repeat match goal with
           | |- context [0 <? ?t] => destruct (Z.ltb_spec 0 t)
           end; assumption.
Qed.

(** X21. The lifetime given to a session key is positive as soon as the
    default is; a cookie that expires in the future gives the key its own
    remaining time, rounded up to the second, and one that has already expired
    and states no positive [maxAge] gives it the default lifetime anew. *)
Theorem session_lifetime sess now :
  0 < store_ttl ->
  0 < _getTTL sess now
  /\ (forall c exp, sess_cookie sess = Some c -> expires c = Some (Some exp) -> now < exp ->
        1000 * (_getTTL sess now - 1) < exp - now <= 1000 * _getTTL sess now)
  /\ (forall c exp, sess_cookie sess = Some c -> expires c = Some (Some exp) -> exp <= now ->
        (forall ms, maxAge c = Some (Some ms) -> ms <= 0) ->
        _getTTL sess now = store_ttl).
Proof.
  intros Hdefault. split; [apply _getTTL_pos; exact Hdefault|]. split.
  - intros c exp Hc He Hfuture. unfold _getTTL. rewrite Hc. cbn [mbind option_bind].
    rewrite He. cbv zeta.
    pose proof (ceil_seconds_pos (exp - now)) as Hpos.
    destruct (Z.ltb_spec 0 (ceil_seconds (exp - now))); [|lia].
    apply ceil_seconds_spec.
  - intros c exp Hc He Hpast Hage. unfold _getTTL. rewrite Hc. cbn [mbind option_bind].
    rewrite He. cbv zeta.
    pose proof (ceil_seconds_pos (exp - now)) as Hpos.
    destruct (Z.ltb_spec 0 (ceil_seconds (exp - now))); [lia|].
    destruct (maxAge c) as [[ms|]|]; try reflexivity.
    pose proof (ceil_seconds_pos ms) as Hms. pose proof (Hage ms eq_refl).
    destruct (Z.ltb_spec 0 (ceil_seconds ms)); [lia|reflexivity].
Qed.

Lemma store_get_other (sid : jsstring) (r r' : store) :
  r' !! _key sid = r !! _key sid -> store_get sid r' = store_get sid r.
Proof. intros E. unfold store_get, redis_get. rewrite E. reflexivity. Qed.

(** X22. A session that is set is the session that is got: with a positive
    default lifetime [set] cannot be refused, [get] of the same id then
    answers what [JSON.stringify] wrote of the session, and no other key of
    the store, so no other session, is changed. *)
Theorem session_set_then_get (sid : jsstring) (sess : session) (now : Z) (r : store) :
  0 < store_ttl -> json_faithful (sess_json sess) ->
  exists r',
    store_set sid sess now r = Ok r'
    /\ store_get sid r' = Ok (Some (sess_json sess))
    /\ (forall k : jsstring, k <> _key sid -> r' !! k = r !! k)
    /\ (forall sid', sid' <> sid -> store_get sid' r' = store_get sid' r).
Proof.
  intros Hdefault [Hne Hparse].
  pose proof (_getTTL_pos sess now Hdefault) as Hpos.
  unfold store_set, redis_set. destruct (Z.leb_spec (_getTTL sess now) 0); [lia|].
  eexists. split; [reflexivity|].
  assert (Hothers : forall k : jsstring, k <> _key sid ->
            <[_key sid := {| r_val := RString (JSON_stringify (sess_json sess));
                             r_ttl := Some (_getTTL sess now) |}]> r !! k = r !! k).
  { intros k Hk. apply lookup_insert_ne. congruence. }
  split; [|split; [exact Hothers|]].
  - unfold store_get, redis_get. rewrite lookup_insert_eq.
    destruct (JSON_stringify (sess_json sess)) eqn:E; [contradiction|].
    rewrite Hparse. reflexivity.
  - intros sid' Hsid. apply store_get_other. apply Hothers.
    intros E. apply _key_inj in E. contradiction.
Qed.

(** X23. [destroy] forgets one session and [touch] forgets none: after
    [destroy] the id answers [null] and every other key is as before; with a
    positive default lifetime [touch] changes the lifetime of the key at most,
    so every id, the touched one included, answers what it answered. *)
Theorem session_destroy_and_touch (sid : jsstring) (sess : session) (now : Z) (r : store) :
  0 < store_ttl ->
  (exists r',
     store_destroy sid r = Ok r'
     /\ store_get sid r' = Ok None
     /\ forall k : jsstring, k <> _key sid -> r' !! k = r !! k)
  /\ (exists r',
        store_touch sid sess now r = Ok r'
        /\ (forall sid', store_get sid' r' = store_get sid' r)
        /\ (forall k : jsstring, r' !! k = None <-> r !! k = None)).
Proof.
  intros Hdefault. split.
  - eexists. split; [reflexivity|]. split.
    + unfold store_get, redis_get. rewrite lookup_delete_eq. reflexivity.
    + intros k Hk. apply lookup_delete_ne. congruence.
  - pose proof (_getTTL_pos sess now Hdefault) as Hpos.
    unfold store_touch, redis_expire.
    destruct (r !! _key sid) as [e|] eqn:Hentry.
    + destruct (Z.leb_spec (_getTTL sess now) 0); [lia|].
      eexists. split; [reflexivity|]. split.
      * intros sid'. unfold store_get, redis_get.
        destruct (decide (_key sid' = _key sid)) as [E|Hne].
        -- rewrite E, lookup_insert_eq, Hentry. destruct e as [[s|l] t]; reflexivity.
        -- rewrite lookup_insert_ne by congruence. reflexivity.
      * intros k. destruct (decide (k = _key sid)) as [->|Hne].
        -- rewrite lookup_insert_eq, Hentry. split; discriminate.
        -- rewrite lookup_insert_ne by congruence. reflexivity.
    + eexists. split; [reflexivity|]. split; [reflexivity|]. reflexivity.
Qed.

End SessionStoreFacts.

(** ** The prompt *)

Lemma join_ends (sep x a : jsstring) (lines : list jsstring) :
  exists body, join sep (x :: lines ++ [a]) = x ++ body ++ sep ++ a.
Proof.
  revert x. induction lines as [|l lines IH]; intros x.
  - exists []. reflexivity.
  - destruct (IH l) as [body Hbody]. exists (sep ++ l ++ body).
    change (join sep (x :: (l :: lines) ++ [a])) with (x ++ sep ++ join sep (l :: lines ++ [a])).
    rewrite Hbody. rewrite <- !(assoc_L (++)). reflexivity.
Qed.

Lemma join_cons (sep x : jsstring) (rest : list jsstring) :
  rest <> [] -> join sep (x :: rest) = x ++ sep ++ join sep rest.
Proof. destruct rest; [contradiction|reflexivity]. Qed.

Section PromptFacts.
Context `{Runtime} `{Engine}.

Lemma prompt_line_usable (m : value) :
  (exists line, prompt_line m = Ok line) <-> usable_message m.
Proof.
  unfold usable_message, prompt_line. split.
  - intros [line Hline]. split; [intros ->; discriminate|].
    intros r Hr Ht.
    destruct m; try discriminate; rewrite Hr in Hline; cbn [truthy_opt] in Hline;
      rewrite Ht in Hline; destruct r; try discriminate; eauto.
  - intros [Hnull Hrole].
    destruct m; try contradiction; cbn [get_prop truthy_opt]; eauto.
    destruct (assoc (js "role") fields) as [r|] eqn:Hr; cbn [truthy_opt]; [|eauto].
    destruct (truthy r) eqn:Ht; [|eauto].
    destruct (Hrole r Hr Ht) as [s ->]. eauto.
Qed.

Lemma prompt_lines_usable (items : list value) :
  (exists lines, prompt_lines items = Ok lines) <-> Forall usable_message items.
Proof.
  induction items as [|m items IH]; cbn [prompt_lines].
  - split; [constructor|eauto].
  - rewrite Forall_cons, <- IH, <- prompt_line_usable. split.
    + intros [lines Hlines]. destruct (prompt_line m); [|discriminate].
      destruct (prompt_lines items); [|discriminate]. eauto.
    + intros [[line ->] [lines ->]]. eauto.
Qed.

(** X24. [buildPrompt] fails on the roles only: of an array of messages it
    makes a prompt exactly when no message is [null] and every truthy [role]
    is a string; [content] of any kind, or none, is never a reason to fail, and
    an absent or empty list of messages gives a prompt as well. *)
Theorem buildPrompt_succeeds_iff (messages : list value) (mode : jsstring) :
  ((exists p, buildPrompt (Some (VArr messages)) mode = Ok p)
   <-> Forall usable_message messages)
  /\ (exists p, buildPrompt None mode = Ok p)
  /\ (exists p, buildPrompt (Some (VArr [])) mode = Ok p).
Proof.
  split; [|split; eexists; reflexivity].
  unfold buildPrompt. cbn [iterated truthy_opt truthy].
  rewrite <- prompt_lines_usable. split.
  - intros [p Hp]. destruct (prompt_lines messages); [eauto|discriminate].
  - intros [lines ->]. eauto.
Qed.

Lemma buildPrompt_framed (messages : option value) (mode p : jsstring) :
  buildPrompt messages mode = Ok p ->
  (exists tail, p = js "SYSTEM: " ++ hint_for mode ++ [LF] ++ tail)
  /\ (exists body, p = (js "SYSTEM: " ++ hint_for mode ++ body) ++ LF :: js "ASSISTANT:").
Proof.
  unfold buildPrompt. destruct (iterated messages) as [items|]; [|discriminate].
  destruct (prompt_lines items) as [lines|]; [|discriminate].
  intros Hp.
  assert (Hinj : forall a b : jsstring, @Ok jsstring a = Ok b -> a = b) by congruence.
  apply Hinj in Hp. subst p. cbv zeta. split.
  - exists (join [LF] (lines ++ [js "ASSISTANT:"])).
    rewrite join_cons by (destruct lines; discriminate).
    rewrite <- !(assoc_L (++)). reflexivity.
  - destruct (join_ends [LF] (js "SYSTEM: " ++ hint_for mode) (js "ASSISTANT:") lines)
      as [body Hbody].
    exists body. etrans; [exact Hbody|]. rewrite <- !(assoc_L (++)). reflexivity.
Qed.

(** X25. A prompt is framed and is its own trimmed form: it opens with
    "SYSTEM: " and the hint of the mode, closes with a line "ASSISTANT:", is
    never empty and has no white space to trim at either end, so the test
    against the echoed prompt in [extractBestTextFromEvent] is always in
    force and compares with the prompt as built. *)
Theorem prompt_is_framed (messages : option value) (mode p : jsstring) :
  buildPrompt messages mode = Ok p ->
  (js "SYSTEM: " ++ hint_for mode ++ [LF]) `prefix_of` p
  /\ (LF :: js "ASSISTANT:") `suffix_of` p
  /\ p <> []
  /\ trim p = p.
Proof.
  intros Hp. destruct (buildPrompt_framed _ _ _ Hp) as [[tail Htail] [body Hbody]].
  split; [|split; [|split]].
  - exists tail. rewrite Htail, <- !(assoc_L (++)). reflexivity.
  - eexists. exact Hbody.
  - rewrite Htail. discriminate.
  - unfold trim. rewrite Htail at 1.
    change (js "SYSTEM: " ++ ?x) with (83%N :: (js "YSTEM: " ++ x)).
    rewrite trimStart_keeps by reflexivity.
    change (83%N :: (js "YSTEM: " ++ ?x)) with (js "SYSTEM: " ++ x).
    rewrite <- Htail. rewrite Hbody. apply trimEnd_app; [discriminate|reflexivity].
Qed.

Lemma normalizeMode_mode (model : option value) (m : jsstring) :
  normalizeMode model = Ok m -> m = js "auto" \/ m = js "fast" \/ m = js "deep".
Proof.
  unfold normalizeMode.
  destruct (if truthy_opt model then default (VStr (js "auto")) model else VStr (js "auto"));
    try discriminate.
  destruct (str_eqb _ (js "gpt-5.2-fast")); [intros [= <-]; auto|].
  destruct (str_eqb _ (js "gpt-5.2-deep")); [intros [= <-]; auto|].
  destruct (existsb _ _) eqn:E; intros [= <-]; [|auto].
  cbn [existsb] in E. rewrite !orb_true_iff, !str_eqb_eq in E.
  destruct E as [E|[E|[E|E]]]; auto; discriminate.
Qed.

(** X26. A mode reaches the prompt with its own hint: for whatever model the
    request names, the mode that [normalizeMode] makes of it is a key of the
    hints, so neither the fall-back to the hint of "auto" nor a member
    inherited by the literal is ever what the prompt opens with. *)
Theorem mode_selects_its_own_hint (model messages : option value) (m p : jsstring) :
  normalizeMode model = Ok m ->
  buildPrompt messages m = Ok p ->
  exists h,
    assoc m hints = Some (VStr h)
    /\ (js "SYSTEM: " ++ h ++ [LF]) `prefix_of` p
    /\ (m <> js "auto" -> h <> hint_auto).
Proof.
  intros Hm Hp. destruct (buildPrompt_framed _ _ _ Hp) as [[tail Htail] _].
  assert (Hpre : (js "SYSTEM: " ++ hint_for m ++ [LF]) `prefix_of` p).
  { exists tail. rewrite Htail, <- !(assoc_L (++)). reflexivity. }
  apply normalizeMode_mode in Hm as [-> | [-> | ->]];
    eexists; (split; [reflexivity|]); (split; [exact Hpre|]);
    intros Hne; try contradiction; discriminate.
Qed.

End PromptFacts.

(** ** The bytes of the upstream *)

Lemma decode_app (d : decoder) (a b : list N) :
  decode d (a ++ b)
  = ((decode d a).1 ++ (decode (decode d a).2 b).1, (decode (decode d a).2 b).2).
Proof.
  revert d. induction a as [|x a IH]; intros d; cbn [app decode].
  - cbn [fst snd app]. destruct (decode d b). reflexivity.
  - destruct (decode_byte x d) as [t1 d1]. rewrite IH.
    destruct (decode d1 a) as [t2 d2]. cbn [fst snd].
    destruct (decode d2 b) as [t3 d3]. cbn [fst snd].
    rewrite (assoc_L (++)). reflexivity.
Qed.

Lemma concat_decoded_reads (d : decoder) (values : list (list N)) :
  concat (decoded_reads d values) = (decode d (concat values)).1.
Proof.
  revert d. induction values as [|v values IH]; intros d; [reflexivity|].
  cbn [decoded_reads concat]. rewrite decode_app.
  destruct (decode d v) as [t d1]. cbn [concat fst snd]. rewrite IH. reflexivity.
Qed.

Section UpstreamBytes.
Context `{Runtime} `{Config} `{Request}.

(** X27. The translation depends on the bytes received, not on how the reads
    cut them, even inside a character: the decoder keeps the bytes of an
    unfinished character for the next read, so two sequences of reads with
    the same bytes leave the same state and the same response. *)
Theorem read_boundaries_irrelevant r t (values values' : list (list N)) ending :
  concat values = concat values' ->
  concat (decoded_reads new_TextDecoder values)
  = concat (decoded_reads new_TextDecoder values')
  /\ stream_phase r t (decoded_reads new_TextDecoder values) ending
     = stream_phase r t (decoded_reads new_TextDecoder values') ending.
Proof.
  intros Hcat.
  assert (Htext : concat (decoded_reads new_TextDecoder values)
                  = concat (decoded_reads new_TextDecoder values'))
    by (rewrite !concat_decoded_reads, Hcat; reflexivity).
  split; [exact Htext|]. apply stream_phase_concat. exact Htext.
Qed.

End UpstreamBytes.

(** ** The further properties on concrete inputs *)

Lemma forallb_not_elem_of (u : code_unit) (s : jsstring) :
  forallb (fun v => negb (v =? u)%N) s = true -> u ∉ s.
Proof.
  intros Hall Hin. rewrite forallb_forall in Hall.
  apply list_elem_of_In, Hall in Hin. rewrite N.eqb_refl in Hin. discriminate.
Qed.

Lemma forallb_is_byte (buf : list N) :
  forallb (fun b => (b <? 256)%N) buf = true -> Forall is_byte buf.
Proof.
  intros Hall. apply Forall_forall. intros b Hb. rewrite forallb_forall in Hall.
  apply N.ltb_lt, Hall, list_elem_of_In, Hb.
Qed.

Section FurtherExamples.
Import Reference Fixtures.

(** The scenario in one read and in two. *)
Lemma chunk_boundaries_witness :
  stream_phase ∅ 0 scenario_chunks Done = stream_phase ∅ 0 [frames scenario_blocks] Done.
Proof.
  apply (chunk_boundaries_irrelevant ∅ 0%nat scenario_chunks [frames scenario_blocks] Done).
  vm_compute. reflexivity.
Defined.

(** A read that ends between the two bytes of an accented letter: the letter
    comes with the next read, and the response is that of the bytes read at
    once. *)
Lemma read_boundaries_witness :
  decoded_reads new_TextDecoder accented_reads
  = [js ": caf"; [233; 10]%N ++ event "Hi" ++ blank_line]
  /\ stream_phase ∅ 0 (decoded_reads new_TextDecoder accented_reads) Done
     = stream_phase ∅ 0 (decoded_reads new_TextDecoder [accented_bytes]) Done.
Proof.
  split; [vm_compute; reflexivity|].
  apply (proj2 (read_boundaries_irrelevant ∅ 0%nat accented_reads [accented_bytes] Done
                  ltac:(vm_compute; reflexivity))).
Defined.

Lemma loop_counts_blocks_witness :
  blocks (stream_loop ∅ 0 [frames mixed_blocks; mixed_rest]) = 2%nat
  /\ jsonFail (stream_loop ∅ 0 [frames mixed_blocks; mixed_rest]) = 1%nat
  /\ carry (stream_loop ∅ 0 [frames mixed_blocks; mixed_rest]) = mixed_rest.
Proof.
  destruct (loop_counts_blocks ∅ 0%nat [frames mixed_blocks; mixed_rest] mixed_blocks mixed_rest)
    as (Hblocks & Hfail & Hcarry).
  - repeat constructor.
  - vm_compute. reflexivity.
  - vm_compute. reflexivity.
  - split; [rewrite Hblocks; reflexivity|].
    split; [rewrite Hfail; vm_compute; reflexivity | exact Hcarry].
Defined.

Lemma frame_read_back_witness :
  block_payload (js "data: " ++ JSON_stringify (delta_chunk (js "Hi") 1700000001))
  = Some (JSON_stringify (delta_chunk (js "Hi") 1700000001)).
Proof.
  apply (frame_read_back (delta_chunk (js "Hi") 1700000001)).
  - vm_compute. reflexivity.
  - vm_compute. discriminate.
  - apply forallb_not_elem_of. vm_compute. reflexivity.
Defined.

Lemma extracted_text_witness :
  extractBestTextFromEvent echo_event (js "another prompt") = Some (js " SYSTEM: be brief ")
  /\ exists msgs m,
       offered echo_event msgs /\ m ∈ msgs
       /\ extractTextFromMessage m = Some (js " SYSTEM: be brief ").
Proof.
  assert (Hext : extractBestTextFromEvent echo_event (js "another prompt")
                 = Some (js " SYSTEM: be brief ")) by (vm_compute; reflexivity).
  split; [exact Hext|].
  apply (proj2 (extracted_text_is_a_message_text echo_event (js "another prompt") _ Hext)).
Defined.

Lemma echo_last_resort_witness :
  extractBestTextFromEvent echo_event prompt = Some (js " SYSTEM: be brief ")
  /\ forall m t', m ∈ [VObj [(js "text", VStr (js " SYSTEM: be brief "))]] ->
       nonempty_text m = Some t' -> trim t' = trim prompt.
Proof.
  assert (Hext : extractBestTextFromEvent echo_event prompt = Some (js " SYSTEM: be brief "))
    by (vm_compute; reflexivity).
  split; [exact Hext|].
  apply (echo_only_as_last_resort echo_event prompt _ (js " SYSTEM: be brief "));
    [vm_compute; discriminate | reflexivity | exact Hext | vm_compute; reflexivity].
Defined.

Lemma append_touches_only_the_buffer_witness :
  (exists entries,
     pushDebugEvent VNull ∅ !! debug_key
     = Some {| r_val := RList entries; r_ttl := Some 3600 |})
  /\ @pushDebugEvent runtime no_capacity VNull ∅ !! debug_key
     = Some {| r_val := RList [js "null"]; r_ttl := None |}.
Proof.
  destruct (append_touches_only_the_buffer VNull ∅) as (_ & Hrenewed & _).
  destruct (@append_touches_only_the_buffer runtime no_capacity VNull ∅) as (_ & _ & Hkept).
  split.
  - apply (Hrenewed 50 eq_refl). vm_compute. exact I.
  - rewrite Hkept; [vm_compute; reflexivity | reflexivity | vm_compute; exact I].
Defined.

Lemma last_events_witness :
  exists older : list value,
    debug_last_events (pushDebugEvent (VObj [(js "ts", num 1)]) ∅)
    = Ok {| status := 200;
            body := json_obj [(js "count", Some (num (Z.of_nat (S (length older)))));
                              (js "events", Some (VArr (VObj [(js "ts", num 1)] :: older)))] |}
    /\ (S (length older) <= 50)%nat.
Proof.
  refine (last_events_show_the_append (VObj [(js "ts", num 1)]) ∅ _ _).
  - vm_compute. exact I.
  - vm_compute. reflexivity.
Defined.

(** A stream without any event gets the advisory and the terminal sequence. *)
Lemma advisory_witness :
  let chunk := fun (delta finish_reason : value) (created : Z) =>
    VObj [(js "id", VStr (js "chatcmpl_conv-1"));
          (js "object", VStr (js "chat.completion.chunk"));
          (js "created", num created);
          (js "model", VStr (js "auto"));
          (js "choices",
           VArr [VObj [(js "index", num 0); (js "delta", delta);
                       (js "finish_reason", finish_reason)]])] in
  let data := fun c : value => Write (js "data: " ++ JSON_stringify c ++ [LF; LF]) in
  let content := fun s : jsstring => VObj [(js "content", VStr s)] in
  exists created,
    res (stream_phase ∅ 0 [] Done)
    = [data (chunk (content EMPTY_HINT) VNull 1700000000);
       data (chunk (VObj []) (VStr (js "stop")) created);
       Write (js "data: [DONE]" ++ [LF; LF]);
       End].
Proof.
  cbv zeta. exact (advisory_only_when_silent ∅ 0%nat [] Done).
Defined.

(** An account without [homeAccountId] makes the silent acquisition fail. *)
Lemma failed_acquisition_witness :
  (acquireAccessToken (VObj []) start_world).1
  = Throw (JsError (js "ClientAuthError") (js "no_account_found"))
  /\ w_redis (acquireAccessToken (VObj []) start_world).2 = w_redis start_world.
Proof.
  split; [vm_compute; reflexivity|].
  apply (failed_acquisition_leaves_redis (VObj []) start_world
           (JsError (js "ClientAuthError") (js "no_account_found"))
           (acquireAccessToken (VObj []) start_world).2).
  vm_compute. reflexivity.
Defined.

Lemma onboarded_key_witness :
  resolve_account {| x_user_key := Some minted_key; session_account := None |}
    (device_succeeded (js "tx-1") minted_key 1700000060000 device_result start_world).2
  = Resolved (session_of "home-1").
Proof.
  apply (onboarded_key_authenticates (js "tx-1") minted_key 1700000060000 device_result
           (session_of "home-1") (js "home-1") start_world).
  - reflexivity.
  - vm_compute. reflexivity.
  - vm_compute. discriminate.
  - split; [vm_compute; discriminate | vm_compute; reflexivity].
  - vm_compute. lia.
  - vm_compute. reflexivity.
Defined.

Lemma device_failure_witness :
  exists r2,
    device_settled (js "tx-1") minted_key 1700000060000 (Throw cancelled) pending_world = Ok r2
    /\ device_status (js "tx-1") r2
       = Ok {| status := 200;
               body := VObj [(js "txId", VStr (js "tx-1")); (js "status", VStr (js "error"));
                             (js "error", VStr (js "user_cancelled"))] |}.
Proof.
  destruct (device_failure_recorded (js "tx-1") minted_key 1700000060000 (Throw cancelled)
              (js "user_cancelled") pending_fields (Some 900) pending_world)
    as (r2 & Hsettled & Hstatus & _).
  - vm_compute. reflexivity.
  - split; [vm_compute; discriminate | vm_compute; reflexivity].
  - vm_compute. reflexivity.
  - split; [vm_compute; discriminate | vm_compute; reflexivity].
  - exists r2. split; [exact Hsettled|]. rewrite Hstatus. reflexivity.
Defined.

Lemma base64url_witness :
  Forall (fun u => u ∈ url_safe_alphabet) minted_key /\ length minted_key = 32%nat.
Proof.
  apply (base64url_is_url_safe key_bytes). apply forallb_is_byte. vm_compute. reflexivity.
Defined.

Lemma minted_key_witness :
  getUserContext {| x_user_key := Some minted_key;
                    session_account := Some (session_of "home-1") |}
  = Some (CtxUserKey minted_key).
Proof.
  apply (proj2 (minted_key_selects_the_key_path key_bytes (Some (session_of "home-1")) eq_refl)).
Defined.

Lemma base64url_injective_witness :
  base64url [104; 105]%N = js "aGk" /\ read_base64url (js "aGk") = [104; 105]%N.
Proof.
  split; [vm_compute; reflexivity|].
  apply (base64url_injective (read_base64url (js "aGk")) [104; 105]%N).
  - apply forallb_is_byte. vm_compute. reflexivity.
  - apply forallb_is_byte. vm_compute. reflexivity.
  - vm_compute. reflexivity.
Defined.

Lemma safeString_witness :
  exists out,
    safeString (Some (VStr (js "Hello, world"))) 5 = Some (VStr out)
    /\ (length out <= 6)%nat
    /\ take 5 out = js "Hello".
Proof.
  destruct (safeString_bounded (VStr (js "Hello, world")) 5) as (out & Hout & Hlen & Htake & _).
  - discriminate.
  - exists out. split; [exact Hout|]. split; [exact Hlen|]. rewrite Htake. reflexivity.
Defined.

Lemma redactHeaders_witness :
  redactHeaders sample_keys sample_headers
  = [(js "Authorization", REDACTED); (js "X-Trace", VStr (js "t-1"));
     (js "Set-Cookie", REDACTED)].
Proof.
  destruct (redactHeaders_rewrites_each_header sample_keys sample_headers) as (Hmap & _).
  - apply (bool_decide_unpack _). vm_compute. exact I.
  - apply perm_swap.
  - rewrite Hmap. vm_compute. reflexivity.
Defined.

Lemma bearer_token_witness :
  assoc (js "Authorization") (redactHeaders (graph_headers (js "tok") true).*1
                                (graph_headers (js "tok") true))
  = Some REDACTED.
Proof.
  apply (bearer_token_never_logged (graph_headers (js "tok") true).*1 (js "tok") true).
  - exact reference_lowers_ascii.
  - reflexivity.
Defined.

Lemma session_lifetime_witness :
  0 < _getTTL visit 1700000000000
  /\ 1000 * (_getTTL visit 1700000000000 - 1) < 1700000090500 - 1700000000000
     <= 1000 * _getTTL visit 1700000000000.
Proof.
  destruct (session_lifetime visit 1700000000000) as (Hpos & Hfuture & _).
  - vm_compute. reflexivity.
  - split; [exact Hpos|].
    apply (Hfuture _ 1700000090500 eq_refl eq_refl). vm_compute. reflexivity.
Defined.

Lemma session_set_then_get_witness :
  exists r',
    store_set (js "sid-1") visit 1700000000000 ∅ = Ok r'
    /\ store_get (js "sid-1") r' = Ok (Some (sess_json visit)).
Proof.
  destruct (session_set_then_get (js "sid-1") visit 1700000000000 ∅)
    as (r' & Hset & Hget & _).
  - vm_compute. reflexivity.
  - split; [vm_compute; discriminate | vm_compute; reflexivity].
  - exists r'. split; [exact Hset|exact Hget].
Defined.

Lemma session_destroy_witness :
  exists r',
    store_destroy (js "sid-1") ∅ = Ok r' /\ store_get (js "sid-1") r' = Ok None.
Proof.
  destruct (session_destroy_and_touch (js "sid-1") visit 1700000000000 ∅)
    as ((r' & Hdestroy & Hget & _) & _).
  - vm_compute. reflexivity.
  - exists r'. split; [exact Hdestroy|exact Hget].
Defined.

Lemma prompt_is_framed_witness :
  buildPrompt sample_messages (js "fast") = Ok sample_prompt
  /\ (js "SYSTEM: " ++ hint_fast ++ [LF]) `prefix_of` sample_prompt
  /\ trim sample_prompt = sample_prompt.
Proof.
  assert (Hp : buildPrompt sample_messages (js "fast") = Ok sample_prompt)
    by (vm_compute; reflexivity).
  split; [exact Hp|].
  destruct (prompt_is_framed sample_messages (js "fast") sample_prompt Hp)
    as (Hpre & _ & _ & Htrim).
  split; [exact Hpre|exact Htrim].
Defined.

Lemma mode_hint_witness :
  exists h,
    assoc (js "fast") hints = Some (VStr h)
    /\ (js "SYSTEM: " ++ h ++ [LF]) `prefix_of` sample_prompt.
Proof.
  destruct (mode_selects_its_own_hint (Some (VStr (js "GPT-5.2-Fast"))) sample_messages
              (js "fast") sample_prompt)
    as (h & Hh & Hpre & _).
  - vm_compute. reflexivity.
  - vm_compute. reflexivity.
  - exists h. split; [exact Hh|exact Hpre].
Defined.

End FurtherExamples.
